(** * Hermes2D selective assembler: sparse-structure preparation and
      form eligibility

    A shallow embedding of
    [hermes2d/src/discrete_problem/discrete_problem_selective_assembler.cpp]
    and the properties of its specification.

    Conventions.
    - C++ [int] values (dofs, markers, sequence numbers, sizes kept in
      [int] members) are [Z]; loop indices and container sizes are [nat].
    - [double] is the kernel's binary64 [float]; [fabs] is [PrimFloat.abs]
      and [<] is [PrimFloat.ltb].
    - A pointer that may be null is an [option]; an array is a [list].
    - A read outside an array, through a null pointer or of released
      storage has no defined behaviour in C++.  The eligibility predicates
      and [set_spaces] return [None] there; the structural pass runs in a
      small state monad whose outcome is [Fault] there and which keeps
      the state reached so far. *)

From Stdlib Require Import ZArith List Bool Lia PeanoNat.
From Stdlib Require Import PrimFloat.
From Stdlib Require Floats.
Import ListNotations.

Set Implicit Arguments.
Set Warnings "-inexact-float".

Local Open Scope Z_scope.

(** ** Mesh-side data *)

(** An edge node; only its boundary marker is read here. *)
Record Node := { node_marker : Z }.

(** [Element]: number of vertices (= number of edges), material marker and
    edge nodes [en].  [elem_id] identifies the element for the external
    lookups (assembly lists, neighbours). *)
Record Element := {
  elem_id : nat;
  nvert : nat;
  marker : Z;
  en : list Node
}.

Module Traverse.
(** [Traverse::State]: one slot per space in [e] (null when the space has
    no element on the patch), the representative element and the active
    edge. *)
Record State := {
  e : list (option Element);
  rep : option Element;
  isurf : Z
}.
End Traverse.

(** [AsmList]: [dof] holds the global dof of each local shape function,
    [cnt] is their number; a negative dof marks a constrained one. *)
Record AsmList := { dof : list Z }.

Definition cnt (a : AsmList) : nat := length (dof a).

(** ** Forms *)

(** Members of the common base class [Form]. *)
Record Form := {
  scaling_factor : float;
  assembleEverywhere : bool;
  areas_internal : list Z
}.

Module MatrixForm.
Record t := { base : Form; i : nat; j : nat }.
End MatrixForm.

Module VectorForm.
Record t := { base : Form; i : nat }.
End VectorForm.

(** The derived classes add nothing this file reads; each wraps its base. *)
Record MatrixFormVol := { mfvol_base :> MatrixForm.t }.
Record MatrixFormSurf := { mfsurf_base :> MatrixForm.t }.
Record MatrixFormDG := { mfdg_base :> MatrixForm.t }.
Record VectorFormVol := { vfvol_base :> VectorForm.t }.
Record VectorFormSurf := { vfsurf_base :> VectorForm.t }.
Record VectorFormDG := { vfdg_base :> VectorForm.t }.

(** The block-weighting table ([block_weights], null when absent); its
    class is outside this file, so [get_A] is taken as given. *)
Definition Table := nat -> nat -> float.

(** ** Eligibility predicates *)

(** [fabs(x) < 1e-12] *)
Definition threshold : float := 1e-12%float.

Definition below_threshold (x : float) : bool :=
  PrimFloat.ltb (PrimFloat.abs x) threshold.

(** [current_state->e[k]]: [None] outside the array, otherwise the slot. *)
Definition state_elem (st : Traverse.State) (k : nat) : option (option Element) :=
  nth_error (Traverse.e st) k.

Definition is_some {A : Type} (o : option A) : bool :=
  match o with Some _ => true | None => false end.

(** [rep->en[isurf]->marker] *)
Definition active_edge_marker (st : Traverse.State) : option Z :=
  match Traverse.rep st with
  | None => None
  | Some r =>
      if Traverse.isurf st <? 0 then None
      else option_map node_marker (nth_error (en r) (Z.to_nat (Traverse.isurf st)))
  end.

(** [rep->marker] *)
Definition rep_marker (st : Traverse.State) : option Z :=
  option_map marker (Traverse.rep st).

(** The loop [for ss: if (areas_internal[ss] == this_marker) return true]. *)
Fixpoint marker_listed (areas : list Z) (this_marker : Z) : bool :=
  match areas with
  | [] => false
  | a :: rest => if a =? this_marker then true else marker_listed rest this_marker
  end.

Section Predicates.

Variable block_weights : option Table.

Definition form_to_be_assembled_MatrixForm
           (form : MatrixForm.t) (current_state : Traverse.State) : option bool :=
  match state_elem current_state (MatrixForm.i form) with
  | None => None
  | Some ei =>
      if is_some ei then
        match state_elem current_state (MatrixForm.j form) with
        | None => None
        | Some ej =>
            if is_some ej then
              if below_threshold (scaling_factor (MatrixForm.base form)) then Some false
              else
                match block_weights with
                | Some get_A =>
                    if below_threshold (get_A (MatrixForm.i form) (MatrixForm.j form))
                    then Some false else Some true
                | None => Some true
                end
            else Some false
        end
      else Some false
  end.

Definition form_to_be_assembled_MatrixFormVol
           (form : MatrixFormVol) (current_state : Traverse.State) : option bool :=
  match form_to_be_assembled_MatrixForm form current_state with
  | None => None
  | Some false => Some false
  | Some true =>
      if assembleEverywhere (MatrixForm.base form) then Some true
      else
        match rep_marker current_state with
        | None => None
        | Some this_marker =>
            Some (marker_listed (areas_internal (MatrixForm.base form)) this_marker)
        end
  end.

Definition form_to_be_assembled_MatrixFormSurf
           (form : MatrixFormSurf) (current_state : Traverse.State) : option bool :=
  match form_to_be_assembled_MatrixForm form current_state with
  | None => None
  | Some false => Some false
  | Some true =>
      match active_edge_marker current_state with
      | None => None
      | Some this_marker =>
          if this_marker =? 0 then Some false
          else if assembleEverywhere (MatrixForm.base form) then Some true
          else Some (marker_listed (areas_internal (MatrixForm.base form)) this_marker)
      end
  end.

Definition form_to_be_assembled_MatrixFormDG
           (form : MatrixFormDG) (current_state : Traverse.State) : option bool :=
  form_to_be_assembled_MatrixForm form current_state.

Definition form_to_be_assembled_VectorForm
           (form : VectorForm.t) (current_state : Traverse.State) : option bool :=
  match state_elem current_state (VectorForm.i form) with
  | None => None
  | Some ei =>
      if negb (is_some ei) then Some false
      else if below_threshold (scaling_factor (VectorForm.base form)) then Some false
      else Some true
  end.

Definition form_to_be_assembled_VectorFormVol
           (form : VectorFormVol) (current_state : Traverse.State) : option bool :=
  match form_to_be_assembled_VectorForm form current_state with
  | None => None
  | Some false => Some false
  | Some true =>
      if assembleEverywhere (VectorForm.base form) then Some true
      else
        match rep_marker current_state with
        | None => None
        | Some this_marker =>
            Some (marker_listed (areas_internal (VectorForm.base form)) this_marker)
        end
  end.

Definition form_to_be_assembled_VectorFormSurf
           (form : VectorFormSurf) (current_state : Traverse.State) : option bool :=
  match form_to_be_assembled_VectorForm form current_state with
  | None => None
  | Some false => Some false
  | Some true =>
      match active_edge_marker current_state with
      | None => None
      | Some this_marker =>
          if this_marker =? 0 then Some false
          else if assembleEverywhere (VectorForm.base form) then Some true
          else Some (marker_listed (areas_internal (VectorForm.base form)) this_marker)
      end
  end.

Definition form_to_be_assembled_VectorFormDG
           (form : VectorFormDG) (current_state : Traverse.State) : option bool :=
  form_to_be_assembled_VectorForm form current_state.

(** The overload set of [form_to_be_assembled], one constructor per
    static type of the first argument. *)
Inductive AnyForm :=
| OfMatrixForm (f : MatrixForm.t)
| OfMatrixFormVol (f : MatrixFormVol)
| OfMatrixFormSurf (f : MatrixFormSurf)
| OfMatrixFormDG (f : MatrixFormDG)
| OfVectorForm (f : VectorForm.t)
| OfVectorFormVol (f : VectorFormVol)
| OfVectorFormSurf (f : VectorFormSurf)
| OfVectorFormDG (f : VectorFormDG).

Definition form_to_be_assembled (form : AnyForm) (current_state : Traverse.State)
  : option bool :=
  match form with
  | OfMatrixForm f => form_to_be_assembled_MatrixForm f current_state
  | OfMatrixFormVol f => form_to_be_assembled_MatrixFormVol f current_state
  | OfMatrixFormSurf f => form_to_be_assembled_MatrixFormSurf f current_state
  | OfMatrixFormDG f => form_to_be_assembled_MatrixFormDG f current_state
  | OfVectorForm f => form_to_be_assembled_VectorForm f current_state
  | OfVectorFormVol f => form_to_be_assembled_VectorFormVol f current_state
  | OfVectorFormSurf f => form_to_be_assembled_VectorFormSurf f current_state
  | OfVectorFormDG f => form_to_be_assembled_VectorFormDG f current_state
  end.

(** The [Form] members of any form. *)
Definition form_base (form : AnyForm) : Form :=
  match form with
  | OfMatrixForm f => MatrixForm.base f
  | OfMatrixFormVol f => MatrixForm.base f
  | OfMatrixFormSurf f => MatrixForm.base f
  | OfMatrixFormDG f => MatrixForm.base f
  | OfVectorForm f => VectorForm.base f
  | OfVectorFormVol f => VectorForm.base f
  | OfVectorFormSurf f => VectorForm.base f
  | OfVectorFormDG f => VectorForm.base f
  end.

(** The fields a form couples: row and column for a matrix form, the
    single field for a vector form. *)
Definition form_fields (form : AnyForm) : list nat :=
  match form with
  | OfMatrixForm f => [MatrixForm.i f; MatrixForm.j f]
  | OfMatrixFormVol f => [MatrixForm.i f; MatrixForm.j f]
  | OfMatrixFormSurf f => [MatrixForm.i f; MatrixForm.j f]
  | OfMatrixFormDG f => [MatrixForm.i f; MatrixForm.j f]
  | OfVectorForm f => [VectorForm.i f]
  | OfVectorFormVol f => [VectorForm.i f]
  | OfVectorFormSurf f => [VectorForm.i f]
  | OfVectorFormDG f => [VectorForm.i f]
  end.

(** The block weight a matrix form is scaled by, when a table is set. *)
Definition form_block_weight (form : AnyForm) : option float :=
  match block_weights, form_fields form with
  | Some get_A, [fi; fj] => Some (get_A fi fj)
  | _, _ => None
  end.

Definition is_surface_form (form : AnyForm) : bool :=
  match form with
  | OfMatrixFormSurf _ | OfVectorFormSurf _ => true
  | _ => false
  end.

(** Every field of the form has an element on the patch. *)
Definition elements_present (form : AnyForm) (st : Traverse.State) : Prop :=
  forall k, In k (form_fields form) -> exists el, state_elem st k = Some (Some el).

End Predicates.

(** ** Collaborators of the assembler *)

(** [Mesh]: the size of the boundary-marker universe
    ([get_boundary_markers_conversion().min_marker_unused]) and the result
    of a [NeighborSearch] on this mesh, taken as given: [get_neighbors el ed]
    is the vector [ns.get_neighbors()] after [ns.set_active_edge(ed)] for
    the central element [el] with errors ignored (empty on a boundary
    edge); [ns.get_num_neighbors()] is its length. *)
Record Mesh := {
  min_marker_unused : Z;
  get_neighbors : Element -> nat -> list Element
}.

(** [Space]: change counter [get_seq], number of dofs, mesh, and the
    assembly list of an element. *)
Record Space := {
  get_seq : Z;
  space_num_dofs : Z;
  get_mesh : Mesh;
  get_element_assembly_list : Element -> AsmList
}.

(** [Space<Scalar>::get_num_dofs(spaces)] *)
Definition get_num_dofs (spaces : list Space) : Z :=
  fold_right (fun sp acc => space_num_dofs sp + acc) 0 spaces.

(** [WeakForm]: the four form vectors whose sizes are tracked, the DG flag
    and the block table [get_blocks(force_diagonal_blocks)], taken as
    given ([blocks[m][n]] is [get_blocks fd m n]). *)
Record WeakForm := {
  mfvol : list MatrixFormVol;
  vfvol : list VectorFormVol;
  mfsurf : list MatrixFormSurf;
  vfsurf : list VectorFormSurf;
  is_DG : bool;
  get_blocks : bool -> nat -> nat -> bool
}.


(** *** The sparse matrix and vector targets *)

Inductive MatCall :=
| MatZero
| MatFree
| MatPrealloc (n : Z)
| MatPreAddIj (row col : Z)
| MatAlloc.

Inductive VecCall :=
| VecZero
| VecAlloc (n : Z).

(** Modelled from the spec: the [SparseMatrix] target, whose class is not
    part of this file.  Its two-phase contract: [zero] clears the numeric
    entries in place and keeps the pattern; [free] discards the pattern;
    [prealloc n] opens registration for [n] rows; [pre_add_ij] registers a
    nonzero coordinate; [alloc] commits the registered coordinates as the
    pattern.  Numeric entries are not represented.  [mat_calls] is the
    history of calls received, oldest first. *)
Record SparseMatrix := {
  mat_size : Z;
  mat_pre : list (Z * Z);
  mat_pattern : list (Z * Z);
  mat_calls : list MatCall
}.

Definition mat_zero (m : SparseMatrix) : SparseMatrix :=
  {| mat_size := mat_size m; mat_pre := mat_pre m; mat_pattern := mat_pattern m;
     mat_calls := mat_calls m ++ [MatZero] |}.

Definition mat_free (m : SparseMatrix) : SparseMatrix :=
  {| mat_size := 0; mat_pre := []; mat_pattern := [];
     mat_calls := mat_calls m ++ [MatFree] |}.

Definition mat_prealloc (m : SparseMatrix) (n : Z) : SparseMatrix :=
  {| mat_size := n; mat_pre := []; mat_pattern := mat_pattern m;
     mat_calls := mat_calls m ++ [MatPrealloc n] |}.

Definition mat_pre_add_ij (m : SparseMatrix) (row col : Z) : SparseMatrix :=
  {| mat_size := mat_size m; mat_pre := mat_pre m ++ [(row, col)];
     mat_pattern := mat_pattern m;
     mat_calls := mat_calls m ++ [MatPreAddIj row col] |}.

Definition coord_eq_dec (p q : Z * Z) : {p = q} + {p <> q}.
Proof. decide equality; apply Z.eq_dec. Defined.

Definition mat_alloc (m : SparseMatrix) : SparseMatrix :=
  {| mat_size := mat_size m; mat_pre := [];
     mat_pattern := nodup coord_eq_dec (mat_pre m);
     mat_calls := mat_calls m ++ [MatAlloc] |}.

(** Modelled from the spec: the [Vector] target, whose class is not part of
    this file.  [alloc n] releases the previous storage and leaves [n]
    zero entries; [zero] clears the entries in place; [length] is the
    number of entries.  Entries are not represented. *)
Record Vector := {
  vec_length : Z;
  vec_calls : list VecCall
}.

Definition vec_zero (v : Vector) : Vector :=
  {| vec_length := vec_length v; vec_calls := vec_calls v ++ [VecZero] |}.

Definition vec_alloc (v : Vector) (n : Z) : Vector :=
  {| vec_length := n; vec_calls := vec_calls v ++ [VecAlloc n] |}.

(** ** The assembler object *)

(** The recalculation arrays of one marker kind.  The class keeps them as
    separate members ([matrix_surface_recalculation], ...); they are
    grouped here by kind, surface and volume, together with the recorded
    marker count and form counts that size them.  A null array or row is
    [None]. *)
Record MarkerCache := {
  markers_size : Z;
  mf_forms_size : Z;
  vf_forms_size : Z;
  matrix_recalculation : option (list bool);
  vector_recalculation : option (list bool);
  matrix_forms_recalculation : option (list (option (list bool)));
  vector_forms_recalculation : option (list (option (list bool)))
}.

Record Assembler := {
  sp_seq : option (list Z);
  spaces_size : nat;
  surface : MarkerCache;
  volume : MarkerCache;
  matrix_structure_reusable : bool;
  vector_structure_reusable : bool;
  wf : option WeakForm;
  force_diagonal_blocks : bool
}.

(** The members under their names in the class. *)
Definition surface_markers_size (a : Assembler) := markers_size (surface a).
Definition volume_markers_size (a : Assembler) := markers_size (volume a).
Definition mfsurf_forms_size (a : Assembler) := mf_forms_size (surface a).
Definition vfsurf_forms_size (a : Assembler) := vf_forms_size (surface a).
Definition mfvol_forms_size (a : Assembler) := mf_forms_size (volume a).
Definition vfvol_forms_size (a : Assembler) := vf_forms_size (volume a).
Definition matrix_surface_recalculation (a : Assembler) := matrix_recalculation (surface a).
Definition vector_surface_recalculation (a : Assembler) := vector_recalculation (surface a).
Definition matrix_surface_forms_recalculation (a : Assembler) :=
  matrix_forms_recalculation (surface a).
Definition vector_surface_forms_recalculation (a : Assembler) :=
  vector_forms_recalculation (surface a).
Definition matrix_volume_recalculation (a : Assembler) := matrix_recalculation (volume a).
Definition vector_volume_recalculation (a : Assembler) := vector_recalculation (volume a).
Definition matrix_volume_forms_recalculation (a : Assembler) :=
  matrix_forms_recalculation (volume a).
Definition vector_volume_forms_recalculation (a : Assembler) :=
  vector_forms_recalculation (volume a).

Definition empty_cache : MarkerCache :=
  {| markers_size := 0; mf_forms_size := 0; vf_forms_size := 0;
     matrix_recalculation := None; vector_recalculation := None;
     matrix_forms_recalculation := None; vector_forms_recalculation := None |}.

(** The constructor. *)
Definition DiscreteProblemSelectiveAssembler (force_diagonal : bool) : Assembler :=
  {| sp_seq := None; spaces_size := 0;
     surface := empty_cache; volume := empty_cache;
     matrix_structure_reusable := false; vector_structure_reusable := false;
     wf := None; force_diagonal_blocks := force_diagonal |}.

Definition with_reusable (a : Assembler) (m v : bool) : Assembler :=
  {| sp_seq := sp_seq a; spaces_size := spaces_size a;
     surface := surface a; volume := volume a;
     matrix_structure_reusable := m; vector_structure_reusable := v;
     wf := wf a; force_diagonal_blocks := force_diagonal_blocks a |}.

Definition with_sp_seq (a : Assembler) (n : nat) (s : option (list Z)) : Assembler :=
  {| sp_seq := s; spaces_size := n;
     surface := surface a; volume := volume a;
     matrix_structure_reusable := matrix_structure_reusable a;
     vector_structure_reusable := vector_structure_reusable a;
     wf := wf a; force_diagonal_blocks := force_diagonal_blocks a |}.

Definition with_caches (a : Assembler) (s v : MarkerCache) : Assembler :=
  {| sp_seq := sp_seq a; spaces_size := spaces_size a;
     surface := s; volume := v;
     matrix_structure_reusable := matrix_structure_reusable a;
     vector_structure_reusable := vector_structure_reusable a;
     wf := wf a; force_diagonal_blocks := force_diagonal_blocks a |}.

Definition with_wf (a : Assembler) (w : option WeakForm) : Assembler :=
  {| sp_seq := sp_seq a; spaces_size := spaces_size a;
     surface := surface a; volume := volume a;
     matrix_structure_reusable := matrix_structure_reusable a;
     vector_structure_reusable := vector_structure_reusable a;
     wf := w; force_diagonal_blocks := force_diagonal_blocks a |}.

(** ** [set_spaces] and [set_weak_formulation] *)

(** The [int] whose four bytes are [bs], least significant first. *)
Definition int_of_bytes (bs : list Z) : Z :=
  let u := fold_right (fun b acc => b + 256 * acc) 0 bs in
  if u <? 2 ^ 31 then u else u - 2 ^ 32.

(** One [int] of an array after [memset(array, c, ...)]: every byte is
    [(unsigned char) c]. *)
Definition memset_int (c : Z) : Z := int_of_bytes (repeat (c mod 256) 4).

(** [calloc(n, ...)]: [n] zeroed entries; null when the count, converted
    to [size_t] from a negative [int], cannot be served. *)
Definition calloc {A : Type} (n : Z) (zero : A) : option (list A) :=
  if n <? 0 then None else Some (repeat zero (Z.to_nat n)).

(** [array[k] = v]; [None] outside the array. *)
Fixpoint array_set {A : Type} (l : list A) (k : nat) (v : A) : option (list A) :=
  match l, k with
  | [], _ => None
  | _ :: rest, O => Some (v :: rest)
  | x :: rest, S k' => option_map (cons x) (array_set rest k' v)
  end.

(** The loop of a later binding, from index [k] on: compare, clear both
    flags on a mismatch, store the new number. *)
Fixpoint compare_seqs (spacesToSet : list Space) (idx : list nat)
         (seqs : list Z) (reusable : bool * bool) : option (list Z * (bool * bool)) :=
  match idx with
  | [] => Some (seqs, reusable)
  | k :: rest =>
      match nth_error spacesToSet k with
      | None => None
      | Some sp =>
          let new_sp_seq := get_seq sp in
          match nth_error seqs k with
          | None => None
          | Some old =>
              let reusable' := if negb (new_sp_seq =? old) then (false, false) else reusable in
              match array_set seqs k new_sp_seq with
              | None => None
              | Some seqs' => compare_seqs spacesToSet rest seqs' reusable'
              end
          end
      end
  end.

(** [for (i < n) { if (rows[i]) free(rows[i]); rows[i] = calloc(forms_size) }] *)
Fixpoint realloc_rows (rows : option (list (option (list bool)))) (idx : list nat)
         (forms_size : Z) : option (option (list (option (list bool)))) :=
  match idx with
  | [] => Some rows
  | k :: rest =>
      match rows with
      | None => None
      | Some arr =>
          match array_set arr k (calloc forms_size false) with
          | None => None
          | Some arr' => realloc_rows (Some arr') rest forms_size
          end
      end
  end.

(** The body run for one marker kind when the marker count differs from
    the recorded one. *)
Definition resize_cache (c : MarkerCache) (new_size : Z) : option MarkerCache :=
  let idx := seq 0 (Z.to_nat new_size) in
  let mrows0 := calloc new_size (@None (list bool)) in
  match (if mf_forms_size c >? 0 then realloc_rows mrows0 idx (mf_forms_size c)
         else Some mrows0) with
  | None => None
  | Some mrows =>
      let vrows0 := calloc new_size (@None (list bool)) in
      match (if vf_forms_size c >? 0 then realloc_rows vrows0 idx (vf_forms_size c)
             else Some vrows0) with
      | None => None
      | Some vrows =>
          Some {| markers_size := new_size;
                  mf_forms_size := mf_forms_size c;
                  vf_forms_size := vf_forms_size c;
                  matrix_recalculation := calloc new_size false;
                  vector_recalculation := calloc new_size false;
                  matrix_forms_recalculation := mrows;
                  vector_forms_recalculation := vrows |}
      end
  end.

Definition check_markers (c : MarkerCache) (unused : Z) : option MarkerCache :=
  if negb (unused =? markers_size c) then resize_cache c unused else Some c.

(** The [if (!sp_seq) ... else ...] at the head of [set_spaces]. *)
Definition track_sequence_numbers (a : Assembler) (spacesToSet : list Space)
  : option Assembler :=
  match sp_seq a with
  | None =>
      let n := length spacesToSet in
      Some (with_sp_seq a n (Some (repeat (memset_int (-1)) n)))
  | Some seqs =>
      match compare_seqs spacesToSet (seq 0 (spaces_size a)) seqs
              (matrix_structure_reusable a, vector_structure_reusable a) with
      | None => None
      | Some (seqs', (m, v)) =>
          Some (with_reusable (with_sp_seq a (spaces_size a) (Some seqs')) m v)
      end
  end.

Definition set_spaces (a : Assembler) (spacesToSet : list Space) : option Assembler :=
  match track_sequence_numbers a spacesToSet with
  | None => None
  | Some a1 =>
      match nth_error spacesToSet 0 with
      | None => None
      | Some sp0 =>
          let unused := min_marker_unused (get_mesh sp0) in
          match check_markers (surface a1) unused with
          | None => None
          | Some s =>
              match check_markers (volume a1) unused with
              | None => None
              | Some v => Some (with_caches a1 s v)
              end
          end
      end
  end.

(** One of the four blocks of [set_weak_formulation]: on a changed form
    count, record it and give every marker a fresh row. *)
Definition resize_forms (rows : option (list (option (list bool))))
           (recorded : Z) (count : nat) (n_markers : Z)
  : option (Z * option (list (option (list bool)))) :=
  if negb (Z.of_nat count =? recorded) then
    match realloc_rows rows (seq 0 (Z.to_nat n_markers)) (Z.of_nat count) with
    | None => None
    | Some rows' => Some (Z.of_nat count, rows')
    end
  else Some (recorded, rows).

Definition set_weak_formulation (a : Assembler) (wf_ : WeakForm) : option Assembler :=
  let a0 := with_reusable (with_wf a (Some wf_)) false false in
  if Nat.eqb (spaces_size a0) 0 then Some a0
  else
    let vol := volume a0 in
    let srf := surface a0 in
    match resize_forms (matrix_forms_recalculation vol) (mf_forms_size vol)
            (length (mfvol wf_)) (markers_size vol) with
    | None => None
    | Some (mv_size, mv_rows) =>
    match resize_forms (vector_forms_recalculation vol) (vf_forms_size vol)
            (length (vfvol wf_)) (markers_size vol) with
    | None => None
    | Some (vv_size, vv_rows) =>
    match resize_forms (matrix_forms_recalculation srf) (mf_forms_size srf)
            (length (mfsurf wf_)) (markers_size srf) with
    | None => None
    | Some (ms_size, ms_rows) =>
    match resize_forms (vector_forms_recalculation srf) (vf_forms_size srf)
            (length (vfsurf wf_)) (markers_size srf) with
    | None => None
    | Some (vs_size, vs_rows) =>
        Some (with_caches a0
                {| markers_size := markers_size srf;
                   mf_forms_size := ms_size; vf_forms_size := vs_size;
                   matrix_recalculation := matrix_recalculation srf;
                   vector_recalculation := vector_recalculation srf;
                   matrix_forms_recalculation := ms_rows;
                   vector_forms_recalculation := vs_rows |}
                {| markers_size := markers_size vol;
                   mf_forms_size := mv_size; vf_forms_size := vv_size;
                   matrix_recalculation := matrix_recalculation vol;
                   vector_recalculation := vector_recalculation vol;
                   matrix_forms_recalculation := mv_rows;
                   vector_forms_recalculation := vv_rows |})
    end end end end.

(** ** The structural pass *)

(** Why a run stopped without a defined result. *)
Inductive fault :=
| NullPointer      (* read through a null pointer *)
| OutOfRange       (* read or write outside an array *)
| Released         (* use of storage after [delete] *)
| NoFuel.          (* a loop of the model ran out of fuel; never the outcome of a call *)

Inductive outcome (A : Type) :=
| Done (a : A)
| Fault (f : fault).

Arguments Fault {A} f.

(** What the loops of the rebuild branch read and write: the matrix
    target, the array [al], and the heap objects of the DG branch, each
    [None] once deleted. *)
Record Machine := {
  m_mat : SparseMatrix;
  m_al : list AsmList;
  neighbor_elems_arrays : option (list (list (list Element)));
  neighbor_elems_counts : option (list (list nat));
  m_an : option AsmList
}.

Definition M (A : Type) : Type := Machine -> Machine * outcome A.

Definition ret {A : Type} (a : A) : M A := fun s => (s, Done a).

Definition bind {A B : Type} (c : M A) (k : A -> M B) : M B :=
  fun s =>
    match c s with
    | (s', Done a) => k a s'
    | (s', Fault f) => (s', Fault f)
    end.

Definition raise {A : Type} (f : fault) : M A := fun s => (s, Fault f).

Definition gets {A : Type} (f : Machine -> A) : M A := fun s => (s, Done (f s)).

Definition modify (f : Machine -> Machine) : M unit := fun s => (f s, Done tt).

Declare Scope machine_scope.
Delimit Scope machine_scope with machine.
Notation "x <- c1 ;; c2" := (bind c1 (fun x => c2))
  (at level 61, c1 at next level, right associativity) : machine_scope.
Notation "c1 ;; c2" := (bind c1 (fun _ => c2))
  (at level 61, right associativity) : machine_scope.
Local Open Scope machine_scope.

(** A read that is defined only when [o] is. *)
Definition read {A : Type} (f : fault) (o : option A) : M A :=
  match o with
  | Some a => ret a
  | None => raise f
  end.

Definition when (b : bool) (c : M unit) : M unit := if b then c else ret tt.

(** [for (x : l) body] *)
Fixpoint for_each {A : Type} (l : list A) (body : A -> M unit) : M unit :=
  match l with
  | [] => ret tt
  | x :: rest => body x ;; for_each rest body
  end.

(** [for (k = 0; k < n; k++) body], [n] fixed. *)
Definition for_range (n : nat) (body : nat -> M unit) : M unit :=
  for_each (seq 0 n) body.

(** [for (; k < bound; k++) body] with the bound read from memory at every
    test. *)
Fixpoint for_from (fuel k : nat) (bound : M nat) (body : nat -> M unit) : M unit :=
  match fuel with
  | O => raise NoFuel
  | S fuel' =>
      b <- bound ;;
      if (k <? b)%nat then body k ;; for_from fuel' (S k) bound body
      else ret tt
  end.

(** The same from [k = 0]; the bound at entry gives the fuel, enough as
    long as the bound does not grow. *)
Definition for_upto (bound : M nat) (body : nat -> M unit) : M unit :=
  b <- bound ;; for_from (S b) 0 bound body.

(** The monadic map that fills an array left to right. *)
Fixpoint map_m {A B : Type} (f : A -> M B) (l : list A) : M (list B) :=
  match l with
  | [] => ret []
  | x :: rest => y <- f x ;; ys <- map_m f rest ;; ret (y :: ys)
  end.

Definition set_mat (s : Machine) (m : SparseMatrix) : Machine :=
  {| m_mat := m; m_al := m_al s;
     neighbor_elems_arrays := neighbor_elems_arrays s;
     neighbor_elems_counts := neighbor_elems_counts s;
     m_an := m_an s |}.

Definition set_al (s : Machine) (al : list AsmList) : Machine :=
  {| m_mat := m_mat s; m_al := al;
     neighbor_elems_arrays := neighbor_elems_arrays s;
     neighbor_elems_counts := neighbor_elems_counts s;
     m_an := m_an s |}.

Definition set_neighbors (s : Machine) (arrays : option (list (list (list Element))))
           (counts : option (list (list nat))) : Machine :=
  {| m_mat := m_mat s; m_al := m_al s;
     neighbor_elems_arrays := arrays;
     neighbor_elems_counts := counts;
     m_an := m_an s |}.

Definition set_an (s : Machine) (an : option AsmList) : Machine :=
  {| m_mat := m_mat s; m_al := m_al s;
     neighbor_elems_arrays := neighbor_elems_arrays s;
     neighbor_elems_counts := neighbor_elems_counts s;
     m_an := an |}.

(** [mat->pre_add_ij(row, col)] *)
Definition pre_add_ij (row col : Z) : M unit :=
  modify (fun s => set_mat s (mat_pre_add_ij (m_mat s) row col)).

(** [row >= 0] on an [int] *)
Definition is_dof (d : Z) : bool := d >=? 0.

Section StructuralPass.

Variable spaces : list Space.
Variable spaces_size_ : nat.
Variable blocks : nat -> nat -> bool.
Variable dg : bool.

(** [current_state->e[k]] *)
Definition elem_at (current_state : Traverse.State) (k : nat) : M (option Element) :=
  read OutOfRange (state_elem current_state k).

(** [spaces[k]] *)
Definition space_at (k : nat) : M Space := read OutOfRange (nth_error spaces k).

(** [al[k]] *)
Definition al_at (k : nat) : M AsmList :=
  al <- gets m_al ;; read OutOfRange (nth_error al k).

(** Obtain assembly lists for the element at all spaces. *)
Definition obtain_assembly_lists (current_state : Traverse.State) : M unit :=
  for_range spaces_size_ (fun i =>
    ei <- elem_at current_state i ;;
    match ei with
    | None => ret tt
    | Some el =>
        sp <- space_at i ;;
        al <- gets m_al ;;
        al' <- read OutOfRange (array_set al i (get_element_assembly_list sp el)) ;;
        modify (fun s => set_al s al')
    end).

(** Get the neighbors: both arrays are allocated, then filled for every
    space and edge.  The search is constructed on [current_state->e[el]];
    a null slot gives it nothing to search from and stops the run. *)
Definition get_the_neighbors (current_state : Traverse.State) (num_edges : nat) : M unit :=
  arrays <- map_m (fun el =>
              ei <- elem_at current_state el ;;
              central <- read NullPointer ei ;;
              sp <- space_at el ;;
              ret (map (fun ed => get_neighbors (get_mesh sp) central ed)
                       (seq 0 num_edges)))
            (seq 0 spaces_size_) ;;
  modify (fun s => set_neighbors s (Some arrays) (Some (map (map (@length Element)) arrays))).

(** [neighbor_elems_counts[el][ed]] *)
Definition count_at (el ed : nat) : M nat :=
  counts <- gets neighbor_elems_counts ;;
  rows <- read Released counts ;;
  row <- read OutOfRange (nth_error rows el) ;;
  read OutOfRange (nth_error row ed).

(** [neighbor_elems_arrays[el][ed][neigh]] *)
Definition neighbor_at (el ed neigh : nat) : M Element :=
  arrays <- gets neighbor_elems_arrays ;;
  rows <- read Released arrays ;;
  row <- read OutOfRange (nth_error rows el) ;;
  ns <- read OutOfRange (nth_error row ed) ;;
  read OutOfRange (nth_error ns neigh).

(** [an->cnt] and [an->dof[j]] on the heap object [an]. *)
Definition an_cnt : M nat :=
  an <- gets m_an ;; a <- read Released an ;; ret (cnt a).

Definition an_dof (j : nat) : M Z :=
  an <- gets m_an ;; a <- read Released an ;; read OutOfRange (nth_error (dof a) j).

(** [delete an] *)
Definition delete_an : M unit :=
  an <- gets m_an ;; _ <- read Released an ;; modify (fun s => set_an s None).

(** The deallocation of both neighbour arrays. *)
Definition delete_neighbor_arrays : M unit :=
  arrays <- gets neighbor_elems_arrays ;;
  _ <- read Released arrays ;;
  counts <- gets neighbor_elems_counts ;;
  _ <- read Released counts ;;
  modify (fun s => set_neighbors s None None).

(** The body of the [neigh] loop, deallocation included. *)
Definition dg_neighbor_body (current_state : Traverse.State) (m el ed neigh : nat)
  : M unit :=
  em <- (if blocks m el || blocks el m
         then ei <- elem_at current_state m ;; ret (is_some ei)
         else ret false) ;;
  when em (
    am <- al_at m ;;
    modify (fun s => set_an s (Some {| dof := [] |})) ;;
    sp <- space_at el ;;
    nb <- neighbor_at el ed neigh ;;
    modify (fun s => set_an s (Some (get_element_assembly_list sp nb))) ;;
    for_each (dof am) (fun am_dof_i =>
      when (is_dof am_dof_i) (
        for_upto an_cnt (fun j =>
          an_dof_j <- an_dof j ;;
          when (is_dof an_dof_j) (
            when (blocks m el) (pre_add_ij am_dof_i an_dof_j) ;;
            when (blocks el m) (pre_add_ij an_dof_j am_dof_i)) ;;
          delete_an)))) ;;
  delete_neighbor_arrays.

(** Pre-add into the stiffness matrix (DG). *)
Definition dg_pre_add (current_state : Traverse.State) (num_edges : nat) : M unit :=
  for_range spaces_size_ (fun m =>
    for_range spaces_size_ (fun el =>
      for_range num_edges (fun ed =>
        for_upto (count_at el ed) (dg_neighbor_body current_state m el ed)))).

Definition dg_part (current_state : Traverse.State) : M unit :=
  e0 <- elem_at current_state 0 ;;
  rep0 <- read NullPointer e0 ;;
  let num_edges := nvert rep0 in
  get_the_neighbors current_state num_edges ;;
  dg_pre_add current_state num_edges.

(** One equation block [(m, n)] of the local stiffness matrix. *)
Definition local_block (current_state : Traverse.State) (m n : nat) : M unit :=
  present <- (if blocks m n
              then em <- elem_at current_state m ;;
                   if is_some em
                   then en_ <- elem_at current_state n ;; ret (is_some en_)
                   else ret false
              else ret false) ;;
  when present (
    am <- al_at m ;;
    an <- al_at n ;;
    for_each (dof am) (fun am_dof_i =>
      when (is_dof am_dof_i) (
        for_each (dof an) (fun an_dof_j =>
          when (is_dof an_dof_j) (pre_add_ij am_dof_i an_dof_j))))).

(** Go through all equation-blocks of the local stiffness matrix. *)
Definition local_blocks (current_state : Traverse.State) : M unit :=
  for_range spaces_size_ (fun m =>
    for_range spaces_size_ (fun n => local_block current_state m n)).

Definition process_state (current_state : Traverse.State) : M unit :=
  obtain_assembly_lists current_state ;;
  when dg (dg_part current_state) ;;
  local_blocks current_state.

(** Loop through all elements. *)
Definition loop_states (states : list Traverse.State) : M unit :=
  for_each states process_state.

End StructuralPass.

(** ** [prepare_sparse_structure] *)

(** What a call leaves behind: the assembler, both targets, and whether the
    call returned. *)
Record Result := {
  res_asm : Assembler;
  res_mat : option SparseMatrix;
  res_rhs : option Vector;
  res_outcome : outcome unit
}.

Definition returned (r : Result) : Prop := res_outcome r = Done tt.

(** The machine at the start of the rebuild loops: [al] holds
    [spaces_size] empty lists, nothing of the DG branch is allocated. *)
Definition start_machine (m : SparseMatrix) (n : nat) : Machine :=
  {| m_mat := m; m_al := repeat {| dof := [] |} n;
     neighbor_elems_arrays := None; neighbor_elems_counts := None;
     m_an := None |}.

(** The last block: [if (!vector_structure_reusable && rhs)]. *)
Definition prepare_vector (a : Assembler) (mat : option SparseMatrix)
           (rhs : option Vector) (ndof : Z) : Result :=
  match vector_structure_reusable a, rhs with
  | false, Some v =>
      {| res_asm := with_reusable a (matrix_structure_reusable a) true;
         res_mat := mat; res_rhs := Some (vec_alloc v ndof);
         res_outcome := Done tt |}
  | _, _ =>
      {| res_asm := a; res_mat := mat; res_rhs := rhs; res_outcome := Done tt |}
  end.

(** The first block: [if (matrix_structure_reusable && mat) mat->zero()]. *)
Definition reuse_matrix (a : Assembler) (mat : option SparseMatrix)
  : option SparseMatrix :=
  match matrix_structure_reusable a, mat with
  | true, Some m => Some (mat_zero m)
  | _, _ => mat
  end.

(** The second block: [if (vector_structure_reusable && rhs) ...]. *)
Definition reuse_vector (a : Assembler) (rhs : option Vector) (ndof : Z)
  : option Vector :=
  match vector_structure_reusable a, rhs with
  | true, Some v =>
      Some (if vec_length v =? 0 then vec_alloc v ndof else vec_zero v)
  | _, _ => rhs
  end.

Definition prepare_sparse_structure (a : Assembler)
           (mat : option SparseMatrix) (rhs : option Vector)
           (spaces : list Space) (states : list Traverse.State) : Result :=
  let ndof := get_num_dofs spaces in
  let mat1 := reuse_matrix a mat in
  let rhs1 := reuse_vector a rhs ndof in
  match matrix_structure_reusable a, mat1 with
  | false, Some m =>
      (* Spaces have changed: create the matrix from scratch. *)
      let a1 := with_reusable a true (vector_structure_reusable a) in
      let m1 := mat_prealloc (mat_free m) ndof in
      match wf a with
      | None =>
          {| res_asm := a1; res_mat := Some m1; res_rhs := rhs1;
             res_outcome := Fault NullPointer |}
      | Some w =>
          let blocks := get_blocks w (force_diagonal_blocks a) in
          match loop_states spaces (spaces_size a) blocks (is_DG w) states
                  (start_machine m1 (spaces_size a)) with
          | (s, Fault f) =>
              {| res_asm := a1; res_mat := Some (m_mat s); res_rhs := rhs1;
                 res_outcome := Fault f |}
          | (s, Done _) =>
              prepare_vector a1 (Some (mat_alloc (m_mat s))) rhs1 ndof
          end
      end
  | _, _ => prepare_vector a mat1 rhs1 ndof
  end.

(** The calls of a call history that register a coordinate. *)
Fixpoint pre_adds (calls : list MatCall) : list (Z * Z) :=
  match calls with
  | [] => []
  | MatPreAddIj r c :: rest => (r, c) :: pre_adds rest
  | _ :: rest => pre_adds rest
  end.

(** ** Sample data *)

Module Sample.

Definition edge (mk : Z) : Node := {| node_marker := mk |}.

(** A triangle with three boundary-free edges. *)
Definition tri (id : nat) : Element :=
  {| elem_id := id; nvert := 3; marker := 1; en := [edge 0; edge 0; edge 0] |}.

(** Element 7 has the hanging-node neighbours 8 and 9 across edge 0. *)
Definition hanging (el : Element) (ed : nat) : list Element :=
  if andb (Nat.eqb (elem_id el) 7) (Nat.eqb ed 0) then [tri 8; tri 9] else [].

Definition no_neighbors (el : Element) (ed : nat) : list Element := [].

Definition mesh_of (nb : Element -> nat -> list Element) : Mesh :=
  {| min_marker_unused := 3; get_neighbors := nb |}.

(** Field 0: three dofs per element. *)
Definition space0 (nb : Element -> nat -> list Element) (sq : Z) : Space :=
  {| get_seq := sq; space_num_dofs := 30; get_mesh := mesh_of nb;
     get_element_assembly_list := fun el =>
       let b := 3 * Z.of_nat (elem_id el) in {| dof := [b; b + 1; b + 2] |} |}.

(** Field 1: two dofs per element. *)
Definition space1 (nb : Element -> nat -> list Element) (sq : Z) : Space :=
  {| get_seq := sq; space_num_dofs := 20; get_mesh := mesh_of nb;
     get_element_assembly_list := fun el =>
       let b := 100 + 2 * Z.of_nat (elem_id el) in {| dof := [b; b + 1] |} |}.

Definition all_blocks (force_diagonal : bool) (m n : nat) : bool := true.

Definition weak_form (dg : bool) : WeakForm :=
  {| mfvol := []; vfvol := []; mfsurf := []; vfsurf := [];
     is_DG := dg; get_blocks := all_blocks |}.

Definition state_of (els : list (option Element)) : Traverse.State :=
  {| Traverse.e := els; Traverse.rep := hd None els; Traverse.isurf := -1 |}.

Definition empty_mat : SparseMatrix :=
  {| mat_size := 0; mat_pre := []; mat_pattern := []; mat_calls := [] |}.

Definition empty_vec : Vector := {| vec_length := 0; vec_calls := [] |}.

(** An assembler bound to [n] fields and to a weak form. *)
Definition bound_assembler (n : nat) (dg : bool) : Assembler :=
  with_wf (with_sp_seq (DiscreteProblemSelectiveAssembler false) n
                       (Some (repeat 0 n)))
          (Some (weak_form dg)).

Definition two_spaces (nb : Element -> nat -> list Element) : list Space :=
  [space0 nb 0; space1 nb 0].




End Sample.

(** ** Vocabulary of the properties *)

(** Every slot the form reads in [e] exists (null or not). *)
Definition fields_in_range (form : AnyForm) (st : Traverse.State) : Prop :=
  forall k, In k (form_fields form) -> state_elem st k <> None.


(** Some field among the first [n] has a sequence number other than the
    last-seen one. *)
Definition seq_mismatch (spacesToSet : list Space) (seqs : list Z) (n : nat) : Prop :=
  exists k sp old,
    (k < n)%nat /\ nth_error spacesToSet k = Some sp /\
    nth_error seqs k = Some old /\ get_seq sp <> old.

(** A per-form row as [calloc] leaves it when [forms_size > 0]; null
    otherwise. *)
Definition fresh_row (forms_size : Z) : option (list bool) :=
  if forms_size >? 0 then Some (repeat false (Z.to_nat forms_size)) else None.

(** The arrays of one marker kind, all newly zeroed for [n] markers. *)
Definition fresh_cache (c : MarkerCache) (n : Z) : MarkerCache :=
  {| markers_size := n;
     mf_forms_size := mf_forms_size c;
     vf_forms_size := vf_forms_size c;
     matrix_recalculation := Some (repeat false (Z.to_nat n));
     vector_recalculation := Some (repeat false (Z.to_nat n));
     matrix_forms_recalculation := Some (repeat (fresh_row (mf_forms_size c)) (Z.to_nat n));
     vector_forms_recalculation := Some (repeat (fresh_row (vf_forms_size c)) (Z.to_nat n)) |}.

(** A per-form row holds no set flag. *)
Definition row_unset (row : option (list bool)) : Prop :=
  match row with
  | None => True
  | Some flags => Forall (fun b => b = false) flags
  end.

(** Marker [k] of the cache is in the unset state in all four arrays. *)
Definition marker_unset (c : MarkerCache) (k : nat) : Prop :=
  (exists arr, matrix_recalculation c = Some arr /\ nth_error arr k = Some false) /\
  (exists arr, vector_recalculation c = Some arr /\ nth_error arr k = Some false) /\
  (exists rows row, matrix_forms_recalculation c = Some rows /\
                    nth_error rows k = Some row /\ row_unset row) /\
  (exists rows row, vector_forms_recalculation c = Some rows /\
                    nth_error rows k = Some row /\ row_unset row).

(** The four arrays of the cache have exactly [n] entries. *)
Definition sized_to (c : MarkerCache) (n : nat) : Prop :=
  option_map (@length bool) (matrix_recalculation c) = Some n /\
  option_map (@length bool) (vector_recalculation c) = Some n /\
  option_map (@length (option (list bool))) (matrix_forms_recalculation c) = Some n /\
  option_map (@length (option (list bool))) (vector_forms_recalculation c) = Some n.


(** The matrix after the coordinates [coords] are registered in order. *)
Definition registered (m : SparseMatrix) (coords : list (Z * Z)) : SparseMatrix :=
  fold_left (fun acc rc => mat_pre_add_ij acc (fst rc) (snd rc)) coords m.

Definition as_call (rc : Z * Z) : MatCall := MatPreAddIj (fst rc) (snd rc).

Definition non_negative (rc : Z * Z) : Prop := 0 <= fst rc /\ 0 <= snd rc.

(** [m'] is [m] after some registrations, all of non-negative
    coordinates, and nothing else. *)
Definition only_registers (m m' : SparseMatrix) : Prop :=
  exists coords, m' = registered m coords /\ Forall non_negative coords.

(** A computation that, fault or not, does nothing to the matrix but
    register non-negative coordinates. *)
Definition preserves {A : Type} (c : M A) : Prop :=
  forall s, only_registers (m_mat s) (m_mat (fst (c s))).

(** The coordinates one local block registers: every pair of
    unconstrained dofs, row-major. *)
Definition block_pairs (am an : AsmList) : list (Z * Z) :=
  flat_map (fun di =>
              if is_dof di
              then flat_map (fun dj => if is_dof dj then [(di, dj)] else []) (dof an)
              else [])
           (dof am).

(** The matrix target in the middle of a rebuild: released, preallocated,
    then [coords] registered. *)
Definition rebuilding (m : SparseMatrix) (ndof : Z) (coords : list (Z * Z))
  : SparseMatrix :=
  registered (mat_prealloc (mat_free m) ndof) coords.

(** On a machine whose array [al] is [al], the computation returns after
    registering exactly [coords], in order, and touching nothing else. *)
Definition runs_as (al : list AsmList) (c : M unit) (coords : list (Z * Z)) : Prop :=
  forall s, m_al s = al ->
            c s = (set_mat s (registered (m_mat s) coords), Done tt).

(** The unconstrained dofs of an assembly list. *)
Definition unconstrained (a : AsmList) : list Z := filter is_dof (dof a).

(** The neighbours gathered for space [el] of a state: one list per edge,
    or the fault met on the way. *)
Definition neighbor_row (spaces : list Space) (st : Traverse.State)
           (num_edges el : nat) : outcome (list (list Element)) :=
  match state_elem st el with
  | None => Fault OutOfRange
  | Some None => Fault NullPointer
  | Some (Some central) =>
      match nth_error spaces el with
      | None => Fault OutOfRange
      | Some sp =>
          Done (map (fun ed => get_neighbors (get_mesh sp) central ed)
                    (seq 0 num_edges))
      end
  end.

(** A computation that never stops for lack of loop fuel. *)
Definition never_starves {A : Type} (c : M A) : Prop :=
  forall s, snd (c s) <> Fault NoFuel.

(** ** Vocabulary of the further properties *)

(** *** Forms *)

(** The form with its scaling factor replaced. *)
Definition rescale_base (b : Form) (x : float) : Form :=
  {| scaling_factor := x;
     assembleEverywhere := assembleEverywhere b;
     areas_internal := areas_internal b |}.

Definition rescale_matrix (f : MatrixForm.t) (x : float) : MatrixForm.t :=
  {| MatrixForm.base := rescale_base (MatrixForm.base f) x;
     MatrixForm.i := MatrixForm.i f; MatrixForm.j := MatrixForm.j f |}.

Definition rescale_vector (f : VectorForm.t) (x : float) : VectorForm.t :=
  {| VectorForm.base := rescale_base (VectorForm.base f) x;
     VectorForm.i := VectorForm.i f |}.

Definition rescale (form : AnyForm) (x : float) : AnyForm :=
  match form with
  | OfMatrixForm f => OfMatrixForm (rescale_matrix f x)
  | OfMatrixFormVol f => OfMatrixFormVol {| mfvol_base := rescale_matrix f x |}
  | OfMatrixFormSurf f => OfMatrixFormSurf {| mfsurf_base := rescale_matrix f x |}
  | OfMatrixFormDG f => OfMatrixFormDG {| mfdg_base := rescale_matrix f x |}
  | OfVectorForm f => OfVectorForm (rescale_vector f x)
  | OfVectorFormVol f => OfVectorFormVol {| vfvol_base := rescale_vector f x |}
  | OfVectorFormSurf f => OfVectorFormSurf {| vfsurf_base := rescale_vector f x |}
  | OfVectorFormDG f => OfVectorFormDG {| vfdg_base := rescale_vector f x |}
  end.

(** What the area restriction of a form asks of a state: nothing for the
    base and DG kinds; for a volume form, to be assembled everywhere or
    to list the marker of the representative element; for a surface form,
    an active edge with a non-zero marker, and to be assembled everywhere
    or to list that marker. *)
Definition area_admits (form : AnyForm) (st : Traverse.State) : Prop :=
  match form with
  | OfMatrixFormVol _ | OfVectorFormVol _ =>
      assembleEverywhere (form_base form) = true \/
      exists mk, rep_marker st = Some mk /\ In mk (areas_internal (form_base form))
  | OfMatrixFormSurf _ | OfVectorFormSurf _ =>
      exists mk, active_edge_marker st = Some mk /\ mk <> 0 /\
                 (assembleEverywhere (form_base form) = true \/
                  In mk (areas_internal (form_base form)))
  | _ => True
  end.

(** Neither the scaling factor nor, where one applies, the block weight
    is below the threshold. *)
Definition weighty (bw : option Table) (form : AnyForm) : Prop :=
  below_threshold (scaling_factor (form_base form)) = false /\
  forall w, form_block_weight bw form = Some w -> below_threshold w = false.

(** *** The recalculation cache *)

(** A per-marker flag array has one entry per marker; it may still be
    null while no marker is known. *)
Definition flags_sized (arr : option (list bool)) (n_markers : Z) : Prop :=
  match arr with
  | None => n_markers = 0
  | Some l => length l = Z.to_nat n_markers
  end.

(** A per-form row has one entry per recorded form; it may be null while
    no form is recorded. *)
Definition row_sized (forms_size : Z) (row : option (list bool)) : Prop :=
  match row with
  | None => forms_size = 0
  | Some l => length l = Z.to_nat forms_size
  end.

Definition rows_sized (rows : option (list (option (list bool))))
           (n_markers forms_size : Z) : Prop :=
  match rows with
  | None => n_markers = 0
  | Some l => length l = Z.to_nat n_markers /\ Forall (row_sized forms_size) l
  end.

(** The arrays of one marker kind agree with the recorded counts. *)
Definition cache_ok (c : MarkerCache) : Prop :=
  0 <= markers_size c /\ 0 <= mf_forms_size c /\ 0 <= vf_forms_size c /\
  flags_sized (matrix_recalculation c) (markers_size c) /\
  flags_sized (vector_recalculation c) (markers_size c) /\
  rows_sized (matrix_forms_recalculation c) (markers_size c) (mf_forms_size c) /\
  rows_sized (vector_forms_recalculation c) (markers_size c) (vf_forms_size c).

Definition assembler_ok (a : Assembler) : Prop :=
  cache_ok (surface a) /\ cache_ok (volume a) /\
  match sp_seq a with
  | None => spaces_size a = 0%nat
  | Some seqs => length seqs = spaces_size a
  end.

(** The marker count [set_spaces] reads is not negative. *)
Definition markers_counted (spacesToSet : list Space) : Prop :=
  forall sp0, nth_error spacesToSet 0 = Some sp0 ->
              0 <= min_marker_unused (get_mesh sp0).

(** The assemblers a program can hold: a new one, and what the three
    operations make of one. *)
Inductive reachable : Assembler -> Prop :=
| reach_new (force_diagonal : bool) :
    reachable (DiscreteProblemSelectiveAssembler force_diagonal)
| reach_set_spaces (a a' : Assembler) (spacesToSet : list Space) :
    reachable a -> markers_counted spacesToSet ->
    set_spaces a spacesToSet = Some a' -> reachable a'
| reach_set_weak_formulation (a a' : Assembler) (wf_ : WeakForm) :
    reachable a -> set_weak_formulation a wf_ = Some a' -> reachable a'
| reach_prepare (a : Assembler) (mat : option SparseMatrix) (rhs : option Vector)
                (spaces : list Space) (states : list Traverse.State) :
    reachable a ->
    reachable (res_asm (prepare_sparse_structure a mat rhs spaces states)).

(** The rows [set_weak_formulation] leaves for one form category: new
    zeroed rows of the new length on a changed count, the old rows
    otherwise. *)
Definition rows_after (rows : option (list (option (list bool))))
           (recorded : Z) (count : nat) (n_markers : Z)
  : option (list (option (list bool))) :=
  if Z.of_nat count =? recorded then rows
  else match rows with
       | None => None
       | Some _ => Some (repeat (Some (repeat false count)) (Z.to_nat n_markers))
       end.

(** The arrays of one marker kind after [set_weak_formulation] has seen
    [n_mf] matrix forms and [n_vf] vector forms of that kind. *)
Definition cache_after (c : MarkerCache) (n_mf n_vf : nat) : MarkerCache :=
  {| markers_size := markers_size c;
     mf_forms_size := Z.of_nat n_mf;
     vf_forms_size := Z.of_nat n_vf;
     matrix_recalculation := matrix_recalculation c;
     vector_recalculation := vector_recalculation c;
     matrix_forms_recalculation :=
       rows_after (matrix_forms_recalculation c) (mf_forms_size c) n_mf (markers_size c);
     vector_forms_recalculation :=
       rows_after (vector_forms_recalculation c) (vf_forms_size c) n_vf (markers_size c) |}.

(** [array[marker]] on a per-marker array. *)
Definition flag_at (arr : option (list bool)) (mk : nat) : option bool :=
  match arr with
  | None => None
  | Some l => nth_error l mk
  end.

(** [rows[marker][form]] on a per-marker, per-form array. *)
Definition row_flag_at (rows : option (list (option (list bool)))) (mk form : nat)
  : option bool :=
  match rows with
  | None => None
  | Some l =>
      match nth_error l mk with
      | Some (Some row) => nth_error row form
      | _ => None
      end
  end.

(** *** The structural pass *)

(** The unconstrained dofs of field [k] on a state; [None] when the field
    has no element there. *)
Definition field_dofs (spaces : list Space) (st : Traverse.State) (k : nat)
  : option (list Z) :=
  match state_elem st k, nth_error spaces k with
  | Some (Some el), Some sp => Some (unconstrained (get_element_assembly_list sp el))
  | _, _ => None
  end.

(** The coordinates of block [(m, k)] on a state. *)
Definition block_coords (spaces : list Space) (blocks : nat -> nat -> bool)
           (st : Traverse.State) (m k : nat) : list (Z * Z) :=
  if blocks m k then
    match field_dofs spaces st m, field_dofs spaces st k with
    | Some dm, Some dk => list_prod dm dk
    | _, _ => []
    end
  else [].

(** The coordinates of a state: block after block, rows first. *)
Definition state_coords (spaces : list Space) (n : nat)
           (blocks : nat -> nat -> bool) (st : Traverse.State) : list (Z * Z) :=
  flat_map (fun m => flat_map (fun k => block_coords spaces blocks st m k) (seq 0 n))
           (seq 0 n).

(** Every slot of the first [n] of a state and of the spaces exists. *)
Definition covers (spaces : list Space) (n : nat) (st : Traverse.State) : Prop :=
  (n <= length (Traverse.e st))%nat /\ (n <= length spaces)%nat.

(** Field 0 has an element on the state, on which the edges are counted;
    every one of the first [n] fields has an element there, in a space
    that exists, and none of these elements has a neighbour across any
    of the edges. *)
Definition isolated (spaces : list Space) (n : nat) (st : Traverse.State) : Prop :=
  exists e0,
    state_elem st 0 = Some (Some e0) /\
    forall el, (el < n)%nat ->
      exists central sp,
        state_elem st el = Some (Some central) /\
        nth_error spaces el = Some sp /\
        forall ed, (ed < nvert e0)%nat ->
                   get_neighbors (get_mesh sp) central ed = [].

(** The array [al] holds, for every field present on the state, the
    assembly list of its element. *)
Definition al_holds (spaces : list Space) (n : nat) (st : Traverse.State)
           (al : list AsmList) : Prop :=
  length al = n /\
  forall k el sp, (k < n)%nat ->
                  state_elem st k = Some (Some el) ->
                  nth_error spaces k = Some sp ->
                  nth_error al k = Some (get_element_assembly_list sp el).

(** On a machine with [n] assembly lists, the computation returns with
    the lists still [n], having registered exactly [coords]. *)
Definition registers (n : nat) (c : M unit) (coords : list (Z * Z)) : Prop :=
  forall s, length (m_al s) = n ->
            exists s', c s = (s', Done tt) /\
                       length (m_al s') = n /\
                       m_mat s' = registered (m_mat s) coords.

(** ** The Newton loop of the Hermes1D examples

    Both [main] functions of [hermes1d/examples] run the same loop around
    the assembly.  The assembly, the linear solver and the copy of the
    coefficients into the space belong to the library; they are taken as
    given.  [error(...)] is taken to report and end the program. *)

Module Newton.

(** [NEWTON_TOL] and [NEWTON_MAX_ITER]; neither is assigned after its
    initialisation. *)
Definition NEWTON_TOL : float := 1e-5%float.
Definition NEWTON_MAX_ITER : Z := 150.

(** How [main] leaves the loop: by [break] at iteration [it], by one of
    the two [error] calls, or, in the model only, for lack of fuel. *)
Inductive exit :=
| Break (it : Z) (coeff_vec : nat -> float)
| MatrixSolverFailed (it : Z)
| DidNotConverge (it : Z)
| NoFuel.

Section Loop.

(** The assembled Jacobian matrix. *)
Variable Matrix : Type.

(** The number of degrees of freedom. *)
Variable ndof : nat.

(** [dp->assemble(matrix, rhs)] for the coefficients last copied into the
    space; [rhs->get(i)] is the second component at [i]. *)
Variable assemble : (nat -> float) -> Matrix * (nat -> float).

(** [solver->solve()] on the matrix and the right-hand side, and
    [solver->get_solution()] when it succeeds. *)
Variable solve : Matrix -> (nat -> float) -> option (nat -> float).

(** [for (i < ndof) res_norm_squared += rhs->get(i) * rhs->get(i)] *)
Definition res_norm_squared (rhs : nat -> float) : float :=
  fold_left (fun acc i => PrimFloat.add acc (PrimFloat.mul (rhs i) (rhs i)))
            (seq 0 ndof) 0%float.

(** [for (i < ndof) rhs->set(i, -rhs->get(i))] *)
Definition negate (rhs : nat -> float) : nat -> float :=
  fun i => if (i <? ndof)%nat then PrimFloat.opp (rhs i) else rhs i.

(** [for (i < ndof) coeff_vec[i] += solver->get_solution()[i]] *)
Definition add_solution (coeff_vec solution : nat -> float) : nat -> float :=
  fun i => if (i <? ndof)%nat then PrimFloat.add (coeff_vec i) (solution i)
           else coeff_vec i.

(** The body of [while (1)], once per unit of fuel. *)
Fixpoint loop (fuel : nat) (it : Z) (coeff_vec : nat -> float) : exit :=
  match fuel with
  | O => NoFuel
  | S fuel' =>
      let (matrix, rhs) := assemble coeff_vec in
      if andb (PrimFloat.ltb (res_norm_squared rhs)
                             (PrimFloat.mul NEWTON_TOL NEWTON_TOL))
              (it >? 1)
      then Break it coeff_vec
      else
        match solve matrix (negate rhs) with
        | None => MatrixSolverFailed it
        | Some solution =>
            let coeff_vec' := add_solution coeff_vec solution in
            if it >=? NEWTON_MAX_ITER then DidNotConverge it
            else loop fuel' (it + 1) coeff_vec'
        end
  end.

(** The loop as [main] enters it: [it = 1]. *)
Definition newton (coeff_vec : nat -> float) : exit :=
  loop (Z.to_nat NEWTON_MAX_ITER) 1 coeff_vec.

(** The residual test of the loop on the coefficients [c]. *)
Definition small_residual (c : nat -> float) : bool :=
  PrimFloat.ltb (res_norm_squared (snd (assemble c)))
                (PrimFloat.mul NEWTON_TOL NEWTON_TOL).

(** The number of [solver->solve()] calls made before the exit. *)
Definition solves (x : exit) : Z :=
  match x with
  | Break it _ => it - 1
  | MatrixSolverFailed it => it
  | DidNotConverge it => it
  | NoFuel => 0
  end.

End Loop.

End Newton.

(** * Properties *)

Unset Implicit Arguments.

(** ** Eligibility predicates *)

Lemma matrix_form_present bw (f : MatrixForm.t) st ei ej :
  state_elem st (MatrixForm.i f) = Some (Some ei) ->
  state_elem st (MatrixForm.j f) = Some (Some ej) ->
  form_to_be_assembled_MatrixForm bw f st =
  Some (if below_threshold (scaling_factor (MatrixForm.base f)) then false
        else match bw with
             | Some get_A =>
                 negb (below_threshold (get_A (MatrixForm.i f) (MatrixForm.j f)))
             | None => true
             end).
Proof.
  intros Hi Hj. unfold form_to_be_assembled_MatrixForm. rewrite Hi, Hj. simpl.
  destruct (below_threshold (scaling_factor (MatrixForm.base f))); [reflexivity|].
  destruct bw as [get_A|]; [|reflexivity].
  destruct (below_threshold (get_A (MatrixForm.i f) (MatrixForm.j f))); reflexivity.
Qed.







Lemma surface_marker_zero_matrix bw (f : MatrixFormSurf) st :
  active_edge_marker st = Some 0 ->
  form_to_be_assembled_MatrixFormSurf bw f st <> Some true /\
  (form_to_be_assembled_MatrixForm bw f st <> None ->
   form_to_be_assembled_MatrixFormSurf bw f st = Some false).
Proof.
  intros Hm. unfold form_to_be_assembled_MatrixFormSurf. rewrite Hm. simpl.
  destruct (form_to_be_assembled_MatrixForm bw f st) as [[|]|];
    split; congruence.
Qed.

Lemma surface_marker_zero_vector (f : VectorFormSurf) st :
  active_edge_marker st = Some 0 ->
  form_to_be_assembled_VectorFormSurf f st <> Some true /\
  (form_to_be_assembled_VectorForm f st <> None ->
   form_to_be_assembled_VectorFormSurf f st = Some false).
Proof.
  intros Hm. unfold form_to_be_assembled_VectorFormSurf. rewrite Hm. simpl.
  destruct (form_to_be_assembled_VectorForm f st) as [[|]|];
    split; congruence.
Qed.

Lemma matrix_form_defined bw (f : MatrixForm.t) st :
  (forall k, In k [MatrixForm.i f; MatrixForm.j f] -> state_elem st k <> None) ->
  form_to_be_assembled_MatrixForm bw f st <> None.
Proof.
  intros Hr. unfold form_to_be_assembled_MatrixForm.
  pose proof (Hr (MatrixForm.i f) (or_introl eq_refl)) as Hi.
  pose proof (Hr (MatrixForm.j f) (or_intror (or_introl eq_refl))) as Hj.
  destruct (state_elem st (MatrixForm.i f)) as [ei|]; [|congruence].
  destruct (is_some ei); [|discriminate].
  destruct (state_elem st (MatrixForm.j f)) as [ej|]; [|congruence].
  destruct (is_some ej); [|discriminate].
  destruct (below_threshold _); [discriminate|].
  destruct bw as [get_A|]; [|discriminate].
  destruct (below_threshold _); discriminate.
Qed.

Lemma vector_form_defined (f : VectorForm.t) st :
  (forall k, In k [VectorForm.i f] -> state_elem st k <> None) ->
  form_to_be_assembled_VectorForm f st <> None.
Proof.
  intros Hr. unfold form_to_be_assembled_VectorForm.
  pose proof (Hr (VectorForm.i f) (or_introl eq_refl)) as Hi.
  destruct (state_elem st (VectorForm.i f)) as [ei|]; [|congruence].
  destruct (negb (is_some ei)); [discriminate|].
  destruct (below_threshold _); discriminate.
Qed.

(** C8. Marker-zero law.  For every non-DG surface form (matrix-surface or
    vector-surface) and every state whose active edge has marker 0,
    [form_to_be_assembled] never answers true, whatever the area
    restriction and the scaling factor; it returns false as soon as the
    slots of [e] the form reads exist. *)
Theorem marker_zero_law (bw : option Table) (form : AnyForm) (st : Traverse.State) :
  is_surface_form form = true ->
  active_edge_marker st = Some 0 ->
  form_to_be_assembled bw form st <> Some true /\
  (fields_in_range form st -> form_to_be_assembled bw form st = Some false).
Proof.
  intros Hs Hm.
  destruct form as [f|f|f|f|f|f|f|f]; try discriminate Hs; simpl.
  - destruct (surface_marker_zero_matrix bw f st Hm) as [H1 H2].
    split; [exact H1|]. intros Hr. apply H2, matrix_form_defined, Hr.
  - destruct (surface_marker_zero_vector f st Hm) as [H1 H2].
    split; [exact H1|]. intros Hr. apply H2, vector_form_defined, Hr.
Qed.

(** A surface form assembled everywhere, scaling 1, on an interior edge. *)
Lemma marker_zero_law_witness :
  form_to_be_assembled None
    (OfVectorFormSurf
       {| vfsurf_base :=
            {| VectorForm.base := {| scaling_factor := 1%float;
                                     assembleEverywhere := true;
                                     areas_internal := [] |};
               VectorForm.i := 0 |} |})
    {| Traverse.e := [Some (Sample.tri 1)]; Traverse.rep := Some (Sample.tri 1);
       Traverse.isurf := 2 |} = Some false.
Proof.
  apply marker_zero_law; [reflexivity | reflexivity |].
  intros k Hk. simpl in Hk. destruct Hk as [<- | []]. discriminate.
Defined.

(** ** Arrays *)

Section ArrayFacts.

Context {A : Type}.

Lemma array_set_length (l : list A) : forall k v l',
  array_set l k v = Some l' -> length l' = length l.
Proof.
  induction l as [|x l IH]; intros k v l' H; [discriminate|].
  destruct k as [|k]; simpl in H.
  - injection H as <-. reflexivity.
  - destruct (array_set l k v) as [r|] eqn:E; [|discriminate].
    injection H as <-. simpl. f_equal. eapply IH, E.
Qed.

Lemma array_set_same (l : list A) : forall k v l',
  array_set l k v = Some l' -> nth_error l' k = Some v.
Proof.
  induction l as [|x l IH]; intros k v l' H; [discriminate|].
  destruct k as [|k]; simpl in H.
  - injection H as <-. reflexivity.
  - destruct (array_set l k v) as [r|] eqn:E; [|discriminate].
    injection H as <-. simpl. eapply IH, E.
Qed.

Lemma array_set_other (l : list A) : forall k v l' n,
  array_set l k v = Some l' -> n <> k -> nth_error l' n = nth_error l n.
Proof.
  induction l as [|x l IH]; intros k v l' n H Hn; [discriminate|].
  destruct k as [|k]; simpl in H.
  - injection H as <-. destruct n; [congruence | reflexivity].
  - destruct (array_set l k v) as [r|] eqn:E; [|discriminate].
    injection H as <-. destruct n as [|n]; [reflexivity|].
    simpl. eapply IH; [exact E | congruence].
Qed.

Lemma array_set_defined (l : list A) : forall k v,
  (k < length l)%nat -> exists l', array_set l k v = Some l'.
Proof.
  induction l as [|x l IH]; intros k v Hk; simpl in Hk; [lia|].
  destruct k as [|k]; simpl.
  - eexists; reflexivity.
  - destruct (IH k v) as [r Hr]; [lia|]. rewrite Hr. eexists; reflexivity.
Qed.

Lemma array_set_middle (done : list A) (x v : A) (rest : list A) :
  array_set (done ++ x :: rest) (length done) v = Some (done ++ v :: rest).
Proof.
  induction done as [|d done IH]; simpl; [reflexivity|].
  rewrite IH. reflexivity.
Qed.

End ArrayFacts.

(** ** Sequence-number tracking *)

Lemma memset_minus_one : memset_int (-1) = -1.
Proof. reflexivity. Qed.

(** What the comparison loop over the indices [k .. k+n-1] leaves. *)
Lemma compare_seqs_spec (spacesToSet : list Space) (n : nat) :
  forall k seqs fl seqs' fl',
    compare_seqs spacesToSet (seq k n) seqs fl = Some (seqs', fl') ->
    length seqs' = length seqs /\
    (forall p, (k <= p < k + n)%nat ->
               exists sp, nth_error spacesToSet p = Some sp /\
                          nth_error seqs' p = Some (get_seq sp)) /\
    (forall p, ~ (k <= p < k + n)%nat -> nth_error seqs' p = nth_error seqs p) /\
    (fl = (false, false) -> fl' = (false, false)) /\
    ((exists p sp old, (k <= p < k + n)%nat /\ nth_error spacesToSet p = Some sp /\
                       nth_error seqs p = Some old /\ get_seq sp <> old) ->
     fl' = (false, false)) /\
    ((forall p sp old, (k <= p < k + n)%nat -> nth_error spacesToSet p = Some sp ->
                       nth_error seqs p = Some old -> get_seq sp = old) ->
     fl' = fl).
Proof.
  induction n as [|n IH]; intros k seqs fl seqs' fl' H; simpl in H.
  - injection H as <- <-.
    repeat split; auto; try (intros; lia).
    intros (p & _ & _ & Hp & _). lia.
  - destruct (nth_error spacesToSet k) as [sp|] eqn:Hsp; [|discriminate].
    destruct (nth_error seqs k) as [old|] eqn:Hold; [|discriminate].
    destruct (array_set seqs k (get_seq sp)) as [seqs1|] eqn:Hset; [|discriminate].
    apply IH in H. destruct H as (Hlen & Hnew & Hkeep & Hstay & Hmis & Hsame).
    pose proof (array_set_length _ _ _ _ Hset) as Hlen1.
    repeat split.
    + congruence.
    + intros p Hp. destruct (Nat.eq_dec p k) as [->|Hne].
      * exists sp. split; [exact Hsp|].
        rewrite Hkeep by lia. eapply array_set_same, Hset.
      * apply Hnew. lia.
    + intros p Hp. rewrite Hkeep by lia. eapply array_set_other; [exact Hset | lia].
    + intros ->. apply Hstay. destruct (negb (get_seq sp =? old)); reflexivity.
    + intros (p & sp' & old' & Hp & Hsp' & Hold' & Hne).
      destruct (Nat.eq_dec p k) as [->|Hpk].
      * apply Hstay. rewrite Hsp in Hsp'. rewrite Hold in Hold'.
        injection Hsp' as <-. injection Hold' as <-.
        apply Z.eqb_neq in Hne. rewrite Hne. reflexivity.
      * apply Hmis. exists p, sp', old'. repeat split; try lia; try assumption.
        rewrite (array_set_other _ _ _ _ _ Hset Hpk). exact Hold'.
    + intros Hall. rewrite Hsame.
      * rewrite (Hall k sp old) by (try lia; assumption).
        rewrite Z.eqb_refl. reflexivity.
      * intros p sp' old' Hp Hsp' Hold'. apply (Hall p sp' old'); try lia; try assumption.
        rewrite <- Hold'. symmetry. eapply array_set_other; [exact Hset | lia].
Qed.

Lemma compare_seqs_defined (spacesToSet : list Space) (n : nat) :
  forall k seqs fl,
    (k + n <= length spacesToSet)%nat -> (k + n <= length seqs)%nat ->
    exists r, compare_seqs spacesToSet (seq k n) seqs fl = Some r.
Proof.
  induction n as [|n IH]; intros k seqs fl Hs Hq; simpl.
  - eexists; reflexivity.
  - destruct (nth_error spacesToSet k) as [sp|] eqn:Hsp.
    2:{ apply nth_error_None in Hsp. lia. }
    destruct (nth_error seqs k) as [old|] eqn:Hold.
    2:{ apply nth_error_None in Hold. lia. }
    destruct (array_set_defined seqs k (get_seq sp)) as [seqs1 Hset]; [lia|].
    rewrite Hset. apply IH; [lia|].
    rewrite (array_set_length _ _ _ _ Hset). lia.
Qed.

(** A later binding, read off the assembler. *)
Lemma track_later_binding (a : Assembler) (spacesToSet : list Space) (seqs : list Z)
      (a1 : Assembler) :
  sp_seq a = Some seqs ->
  track_sequence_numbers a spacesToSet = Some a1 ->
  spaces_size a1 = spaces_size a /\ surface a1 = surface a /\ volume a1 = volume a /\
  wf a1 = wf a /\ force_diagonal_blocks a1 = force_diagonal_blocks a /\
  exists seqs',
    sp_seq a1 = Some seqs' /\
    compare_seqs spacesToSet (seq 0 (spaces_size a)) seqs
      (matrix_structure_reusable a, vector_structure_reusable a) =
    Some (seqs', (matrix_structure_reusable a1, vector_structure_reusable a1)).
Proof.
  intros Hseq H. unfold track_sequence_numbers in H. rewrite Hseq in H.
  destruct (compare_seqs _ _ _ _) as [[seqs' [m v]]|] eqn:E; [|discriminate].
  injection H as <-. simpl. repeat split. exists seqs'. split; reflexivity.
Qed.

(** A first binding, read off the assembler. *)
Lemma track_first_binding (a : Assembler) (spacesToSet : list Space) :
  sp_seq a = None ->
  track_sequence_numbers a spacesToSet =
  Some (with_sp_seq a (length spacesToSet) (Some (repeat (-1) (length spacesToSet)))).
Proof.
  intros Hseq. unfold track_sequence_numbers. rewrite Hseq.
  rewrite memset_minus_one. reflexivity.
Qed.

(** ** Cache arrays *)

Lemma realloc_rows_fresh (forms_size : Z) (n : nat) :
  forall done : list (option (list bool)),
    realloc_rows (Some (done ++ repeat None n)) (seq (length done) n) forms_size =
    Some (Some (done ++ repeat (calloc forms_size false) n)).
Proof.
  induction n as [|n IH]; intros done; simpl; [reflexivity|].
  rewrite array_set_middle.
  change (done ++ calloc forms_size false :: repeat None n)
    with (done ++ [calloc forms_size false] ++ repeat None n).
  rewrite app_assoc.
  replace (S (length done)) with (length (done ++ [calloc forms_size false]))
    by (rewrite length_app; simpl; lia).
  rewrite IH. rewrite <- app_assoc. reflexivity.
Qed.

Lemma calloc_rows (forms_size new_size : Z) :
  0 <= new_size ->
  (if forms_size >? 0
   then realloc_rows (calloc new_size None) (seq 0 (Z.to_nat new_size)) forms_size
   else Some (calloc new_size None)) =
  Some (Some (repeat (fresh_row forms_size) (Z.to_nat new_size))).
Proof.
  intros Hn. unfold calloc at 1 2, fresh_row.
  destruct (new_size <? 0) eqn:E; [apply Z.ltb_lt in E; lia|].
  destruct (forms_size >? 0) eqn:Hf; [|reflexivity].
  pose proof (realloc_rows_fresh forms_size (Z.to_nat new_size) []) as Hrows.
  simpl in Hrows. rewrite Hrows.
  unfold calloc. destruct (forms_size <? 0) eqn:E2; [|reflexivity].
  apply Z.ltb_lt in E2. apply Z.gtb_lt in Hf. lia.
Qed.

Lemma resize_cache_fresh (c : MarkerCache) (new_size : Z) :
  0 <= new_size -> resize_cache c new_size = Some (fresh_cache c new_size).
Proof.
  intros Hn. unfold resize_cache.
  rewrite (calloc_rows (mf_forms_size c) new_size Hn).
  rewrite (calloc_rows (vf_forms_size c) new_size Hn).
  unfold fresh_cache, calloc.
  destruct (new_size <? 0) eqn:E; [apply Z.ltb_lt in E; lia|]. reflexivity.
Qed.

Lemma resize_cache_defined (c : MarkerCache) (new_size : Z) :
  exists c', resize_cache c new_size = Some c'.
Proof.
  destruct (Z_lt_le_dec new_size 0) as [Hneg|Hpos].
  - unfold resize_cache, calloc.
    assert (E : (new_size <? 0) = true) by (apply Z.ltb_lt; lia). rewrite E.
    replace (Z.to_nat new_size) with 0%nat by lia. simpl.
    destruct (mf_forms_size c >? 0); destruct (vf_forms_size c >? 0);
      eexists; reflexivity.
  - eexists. apply resize_cache_fresh, Hpos.
Qed.

Lemma row_unset_fresh (forms_size : Z) : row_unset (fresh_row forms_size).
Proof.
  unfold fresh_row, row_unset. destruct (forms_size >? 0); [|exact I].
  apply Forall_forall. intros b Hb. apply repeat_spec in Hb. exact Hb.
Qed.

Lemma nth_error_repeat_lt {A : Type} (x : A) (n k : nat) :
  (k < n)%nat -> nth_error (repeat x n) k = Some x.
Proof.
  revert k. induction n as [|n IH]; intros k Hk; [lia|].
  destruct k as [|k]; simpl; [reflexivity|]. apply IH. lia.
Qed.

Lemma fresh_cache_unset (c : MarkerCache) (n : Z) (k : nat) :
  (k < Z.to_nat n)%nat -> marker_unset (fresh_cache c n) k.
Proof.
  intros Hk. unfold marker_unset, fresh_cache. simpl. repeat split.
  - eexists. split; [reflexivity|]. apply nth_error_repeat_lt, Hk.
  - eexists. split; [reflexivity|]. apply nth_error_repeat_lt, Hk.
  - eexists. eexists. split; [reflexivity|]. split.
    + apply nth_error_repeat_lt, Hk.
    + apply row_unset_fresh.
  - eexists. eexists. split; [reflexivity|]. split.
    + apply nth_error_repeat_lt, Hk.
    + apply row_unset_fresh.
Qed.

Lemma fresh_cache_sized (c : MarkerCache) (n : Z) :
  sized_to (fresh_cache c n) (Z.to_nat n).
Proof.
  unfold sized_to, fresh_cache. simpl. rewrite !repeat_length. repeat split.
Qed.

(** [set_spaces] taken apart. *)
Lemma set_spaces_inv (a : Assembler) (spacesToSet : list Space) (a' : Assembler) :
  set_spaces a spacesToSet = Some a' ->
  exists a1 sp0 s v,
    track_sequence_numbers a spacesToSet = Some a1 /\
    nth_error spacesToSet 0 = Some sp0 /\
    check_markers (surface a1) (min_marker_unused (get_mesh sp0)) = Some s /\
    check_markers (volume a1) (min_marker_unused (get_mesh sp0)) = Some v /\
    a' = with_caches a1 s v.
Proof.
  unfold set_spaces. intros H.
  destruct (track_sequence_numbers a spacesToSet) as [a1|]; [|discriminate].
  destruct (nth_error spacesToSet 0) as [sp0|]; [|discriminate].
  destruct (check_markers (surface a1) _) as [s|] eqn:Hs; [|discriminate].
  destruct (check_markers (volume a1) _) as [v|] eqn:Hv; [|discriminate].
  injection H as <-. exists a1, sp0, s, v. repeat split; assumption.
Qed.

Lemma check_markers_defined (c : MarkerCache) (unused : Z) :
  exists c', check_markers c unused = Some c'.
Proof.
  unfold check_markers. destruct (negb (unused =? markers_size c)).
  - apply resize_cache_defined.
  - eexists; reflexivity.
Qed.

(** [set_spaces] returns whenever the vector of spaces is non-empty and,
    on a later binding, covers the recorded number of fields. *)
Lemma set_spaces_defined (a : Assembler) (spacesToSet : list Space) :
  spacesToSet <> [] ->
  (forall seqs, sp_seq a = Some seqs ->
                (spaces_size a <= length spacesToSet)%nat /\
                (spaces_size a <= length seqs)%nat) ->
  exists a', set_spaces a spacesToSet = Some a'.
Proof.
  intros Hne Hwf. unfold set_spaces.
  assert (Ht : exists a1, track_sequence_numbers a spacesToSet = Some a1).
  { unfold track_sequence_numbers. destruct (sp_seq a) as [seqs|] eqn:Hseq.
    - destruct (Hwf seqs eq_refl) as [H1 H2].
      destruct (compare_seqs_defined spacesToSet (spaces_size a) 0 seqs
                  (matrix_structure_reusable a, vector_structure_reusable a))
        as [[seqs' [m v]] Hr]; [simpl; lia | simpl; lia |].
      rewrite Hr. eexists; reflexivity.
    - eexists; reflexivity. }
  destruct Ht as [a1 ->].
  destruct spacesToSet as [|sp0 rest]; [congruence|]. simpl.
  destruct (check_markers_defined (surface a1) (min_marker_unused (get_mesh sp0)))
    as [s ->].
  destruct (check_markers_defined (volume a1) (min_marker_unused (get_mesh sp0)))
    as [v ->].
  eexists; reflexivity.
Qed.

Lemma track_keeps_caches (a : Assembler) (spacesToSet : list Space) (a1 : Assembler) :
  track_sequence_numbers a spacesToSet = Some a1 ->
  surface a1 = surface a /\ volume a1 = volume a.
Proof.
  intros H. destruct (sp_seq a) as [seqs|] eqn:Hseq.
  - destruct (track_later_binding a spacesToSet seqs a1 Hseq H) as (_ & Hs & Hv & _).
    split; assumption.
  - rewrite (track_first_binding a spacesToSet Hseq) in H. injection H as <-.
    split; reflexivity.
Qed.

Lemma check_markers_changed (c : MarkerCache) (unused : Z) (c' : MarkerCache) :
  0 <= unused -> unused <> markers_size c ->
  check_markers c unused = Some c' -> c' = fresh_cache c unused.
Proof.
  intros Hpos Hne H. unfold check_markers in H.
  apply Z.eqb_neq in Hne. rewrite Hne in H. simpl in H.
  rewrite (resize_cache_fresh c unused Hpos) in H. congruence.
Qed.

(** C9. Cache resize safety.  When [set_spaces] sees a marker count
    different from the recorded one, all four recalculation arrays of that
    marker kind (per-marker flags and per-marker per-form rows, matrix and
    vector) are replaced by newly zeroed arrays with one entry per marker of
    the new count; nothing of the old arrays survives, so every marker
    index, those at or beyond the old bound included, starts unset.  The
    same holds for the surface and for the volume arrays. *)
Theorem cache_resize_safety (a : Assembler) (spacesToSet : list Space)
        (a' : Assembler) (sp0 : Space) :
  set_spaces a spacesToSet = Some a' ->
  nth_error spacesToSet 0 = Some sp0 ->
  0 <= min_marker_unused (get_mesh sp0) ->
  let new_size := min_marker_unused (get_mesh sp0) in
  (new_size <> surface_markers_size a ->
   surface a' = fresh_cache (surface a) new_size /\
   surface_markers_size a' = new_size /\
   sized_to (surface a') (Z.to_nat new_size) /\
   forall k, (k < Z.to_nat new_size)%nat -> marker_unset (surface a') k) /\
  (new_size <> volume_markers_size a ->
   volume a' = fresh_cache (volume a) new_size /\
   volume_markers_size a' = new_size /\
   sized_to (volume a') (Z.to_nat new_size) /\
   forall k, (k < Z.to_nat new_size)%nat -> marker_unset (volume a') k).
Proof.
  intros H Hsp0 Hpos new_size.
  apply set_spaces_inv in H.
  destruct H as (a1 & sp0' & s & v & Ht & Hsp0' & Hs & Hv & ->).
  rewrite Hsp0 in Hsp0'. injection Hsp0' as <-.
  destruct (track_keeps_caches a spacesToSet a1 Ht) as [Es Ev].
  rewrite Es in Hs. rewrite Ev in Hv.
  unfold surface_markers_size, volume_markers_size. simpl.
  split; intros Hne.
  - rewrite (check_markers_changed (surface a) new_size s Hpos Hne Hs).
    split; [reflexivity|]. split; [reflexivity|].
    split; [apply fresh_cache_sized|]. intros k Hk. apply fresh_cache_unset, Hk.
  - rewrite (check_markers_changed (volume a) new_size v Hpos Hne Hv).
    split; [reflexivity|]. split; [reflexivity|].
    split; [apply fresh_cache_sized|]. intros k Hk. apply fresh_cache_unset, Hk.
Qed.

(** The marker universe grows from 2 to 3 while stale flags are set. *)
Lemma cache_resize_safety_witness :
  let stale := {| markers_size := 2; mf_forms_size := 1; vf_forms_size := 0;
                  matrix_recalculation := Some [true; true];
                  vector_recalculation := Some [true; false];
                  matrix_forms_recalculation := Some [Some [true]; Some [true]];
                  vector_forms_recalculation := Some [None; None] |} in
  let a := with_caches (Sample.bound_assembler 2 false) stale stale in
  exists a',
    set_spaces a (Sample.two_spaces Sample.no_neighbors) = Some a' /\
    surface a' = fresh_cache stale 3 /\ volume a' = fresh_cache stale 3.
Proof.
  intros stale a.
  destruct (set_spaces a (Sample.two_spaces Sample.no_neighbors)) as [a'|] eqn:E;
    [|discriminate E].
  exists a'. split; [reflexivity|].
  destruct (cache_resize_safety a (Sample.two_spaces Sample.no_neighbors) a'
              (Sample.space0 Sample.no_neighbors 0) E eq_refl)
    as [Hs Hv]; [simpl; lia|].
  split.
  - apply Hs. vm_compute. discriminate.
  - apply Hv. vm_compute. discriminate.
Defined.

(** C10. The first call to [set_spaces] only allocates the last-seen array
    and fills it with -1; it records no sequence number and leaves the
    flags alone.  On the call that follows, whatever the flags have become
    in between, a field whose sequence number is non-negative differs from
    the recorded -1 and both flags are cleared, although no field
    changed. *)
Theorem first_binding_forces_rebuild (a : Assembler) (spacesToSet : list Space)
        (a1 : Assembler) (m v : bool) (a2 : Assembler) :
  sp_seq a = None ->
  set_spaces a spacesToSet = Some a1 ->
  set_spaces (with_reusable a1 m v) spacesToSet = Some a2 ->
  sp_seq a1 = Some (repeat (-1) (length spacesToSet)) /\
  spaces_size a1 = length spacesToSet /\
  matrix_structure_reusable a1 = matrix_structure_reusable a /\
  vector_structure_reusable a1 = vector_structure_reusable a /\
  ((exists sp, In sp spacesToSet /\ 0 <= get_seq sp) ->
   matrix_structure_reusable a2 = false /\ vector_structure_reusable a2 = false).
Proof.
  intros Hnone H1 H2.
  apply set_spaces_inv in H1.
  destruct H1 as (b1 & sp0 & s1 & v1 & Ht1 & _ & _ & _ & ->).
  rewrite (track_first_binding a spacesToSet Hnone) in Ht1. injection Ht1 as <-.
  simpl. split; [reflexivity|]. split; [reflexivity|].
  split; [reflexivity|]. split; [reflexivity|].
  intros (sp & Hin & Hseq).
  apply set_spaces_inv in H2.
  destruct H2 as (b2 & sp0' & s2 & v2 & Ht2 & _ & _ & _ & ->).
  simpl.
  set (b1 := with_reusable _ m v) in Ht2.
  destruct (track_later_binding b1 spacesToSet (repeat (-1) (length spacesToSet)) b2
              eq_refl Ht2) as (_ & _ & _ & _ & _ & seqs' & _ & Hcmp).
  simpl in Hcmp.
  apply compare_seqs_spec in Hcmp.
  destruct Hcmp as (_ & _ & _ & _ & Hmis & _).
  assert (Hfl : (matrix_structure_reusable b2, vector_structure_reusable b2)
                = (false, false)).
  { apply Hmis. apply In_nth_error in Hin. destruct Hin as [p Hp].
    assert (Hlt : (p < length spacesToSet)%nat).
    { apply nth_error_Some. congruence. }
    exists p, sp, (-1). repeat split; try lia; try assumption.
    apply nth_error_repeat_lt, Hlt. }
  injection Hfl as -> ->. split; reflexivity.
Qed.

(** Two bindings of the same two spaces (sequence numbers 0), with both
    flags set in between as a structural build leaves them. *)
Lemma first_binding_forces_rebuild_witness :
  let spaces := Sample.two_spaces Sample.no_neighbors in
  exists a1 a2,
    set_spaces (DiscreteProblemSelectiveAssembler false) spaces = Some a1 /\
    set_spaces (with_reusable a1 true true) spaces = Some a2 /\
    sp_seq a1 = Some [-1; -1] /\
    matrix_structure_reusable a2 = false /\ vector_structure_reusable a2 = false.
Proof.
  intros spaces.
  destruct (set_spaces (DiscreteProblemSelectiveAssembler false) spaces)
    as [a1|] eqn:E1; [|discriminate E1].
  destruct (set_spaces (with_reusable a1 true true) spaces)
    as [a2|] eqn:E2; [|injection E1 as <-; discriminate E2].
  exists a1, a2. split; [reflexivity|]. split; [exact E2|].
  destruct (first_binding_forces_rebuild (DiscreteProblemSelectiveAssembler false)
              spaces a1 true true a2 eq_refl E1 E2) as (Hs & _ & _ & _ & Hfl).
  split; [exact Hs|].
  apply Hfl. exists (Sample.space0 Sample.no_neighbors 0).
  split; [left; reflexivity | simpl; lia].
Defined.

(** ** The structural pass only registers non-negative coordinates *)

Local Open Scope machine_scope.

Lemma registered_app (m : SparseMatrix) (xs ys : list (Z * Z)) :
  registered m (xs ++ ys) = registered (registered m xs) ys.
Proof. unfold registered. apply fold_left_app. Qed.

Lemma registered_calls (coords : list (Z * Z)) : forall m,
  mat_calls (registered m coords) = mat_calls m ++ map as_call coords.
Proof.
  induction coords as [|rc coords IH]; intros m; simpl.
  - rewrite app_nil_r. reflexivity.
  - rewrite IH. simpl. rewrite <- app_assoc. reflexivity.
Qed.

Lemma registered_pre (coords : list (Z * Z)) : forall m,
  mat_pre (registered m coords) = mat_pre m ++ coords.
Proof.
  induction coords as [|[r c] coords IH]; intros m; simpl.
  - rewrite app_nil_r. reflexivity.
  - rewrite IH. simpl. rewrite <- app_assoc. reflexivity.
Qed.

Lemma registered_pattern (coords : list (Z * Z)) : forall m,
  mat_pattern (registered m coords) = mat_pattern m.
Proof.
  induction coords as [|rc coords IH]; intros m; simpl; [reflexivity|].
  rewrite IH. reflexivity.
Qed.

Lemma registered_size (coords : list (Z * Z)) : forall m,
  mat_size (registered m coords) = mat_size m.
Proof.
  induction coords as [|rc coords IH]; intros m; simpl; [reflexivity|].
  rewrite IH. reflexivity.
Qed.

Lemma only_registers_refl (m : SparseMatrix) : only_registers m m.
Proof. exists []. split; [reflexivity | constructor]. Qed.

Lemma only_registers_trans (m1 m2 m3 : SparseMatrix) :
  only_registers m1 m2 -> only_registers m2 m3 -> only_registers m1 m3.
Proof.
  intros (xs & -> & Hx) (ys & -> & Hy). exists (xs ++ ys). split.
  - symmetry. apply registered_app.
  - apply Forall_app. split; assumption.
Qed.

Lemma is_dof_nonneg (d : Z) : is_dof d = true -> 0 <= d.
Proof. unfold is_dof. intros H. apply Z.geb_le in H. exact H. Qed.

Lemma preserves_ret {A : Type} (x : A) : preserves (ret x).
Proof. intros s. apply only_registers_refl. Qed.

Lemma preserves_raise {A : Type} (f : fault) : preserves (@raise A f).
Proof. intros s. apply only_registers_refl. Qed.

Lemma preserves_gets {A : Type} (f : Machine -> A) : preserves (gets f).
Proof. intros s. apply only_registers_refl. Qed.

Lemma preserves_read {A : Type} (f : fault) (o : option A) : preserves (read f o).
Proof. destruct o; [apply preserves_ret | apply preserves_raise]. Qed.

Lemma preserves_bind {A B : Type} (c : M A) (k : A -> M B) :
  preserves c -> (forall x, preserves (k x)) -> preserves (bind c k).
Proof.
  intros Hc Hk s. unfold bind. specialize (Hc s).
  destruct (c s) as [s' [x|f]]; simpl in *.
  - eapply only_registers_trans; [exact Hc | apply Hk].
  - exact Hc.
Qed.

Lemma preserves_for_each {A : Type} (l : list A) (body : A -> M unit) :
  (forall x, preserves (body x)) -> preserves (for_each l body).
Proof.
  intros Hb. induction l as [|x l IH]; simpl.
  - apply preserves_ret.
  - apply preserves_bind; [apply Hb | intros _; exact IH].
Qed.

Lemma preserves_map_m {A B : Type} (f : A -> M B) (l : list A) :
  (forall x, preserves (f x)) -> preserves (map_m f l).
Proof.
  intros Hf. induction l as [|x l IH]; simpl.
  - apply preserves_ret.
  - apply preserves_bind; [apply Hf | intros y].
    apply preserves_bind; [exact IH | intros ys]. apply preserves_ret.
Qed.

Lemma preserves_modify (f : Machine -> Machine) :
  (forall s, m_mat (f s) = m_mat s) -> preserves (modify f).
Proof. intros Hf s. simpl. rewrite Hf. apply only_registers_refl. Qed.

Lemma preserves_when (b : bool) (c : M unit) :
  (b = true -> preserves c) -> preserves (when b c).
Proof. destruct b; intros H; [apply H; reflexivity | apply preserves_ret]. Qed.

Lemma preserves_for_range (n : nat) (body : nat -> M unit) :
  (forall k, preserves (body k)) -> preserves (for_range n body).
Proof. intros Hb. apply preserves_for_each, Hb. Qed.

Lemma preserves_for_from (bound : M nat) (body : nat -> M unit) :
  preserves bound -> (forall k, preserves (body k)) ->
  forall fuel k, preserves (for_from fuel k bound body).
Proof.
  intros Hbound Hbody. induction fuel as [|fuel IH]; intros k; simpl.
  - apply preserves_raise.
  - apply preserves_bind; [exact Hbound | intros b].
    destruct (k <? b)%nat; [|apply preserves_ret].
    apply preserves_bind; [apply Hbody | intros _; apply IH].
Qed.

Lemma preserves_for_upto (bound : M nat) (body : nat -> M unit) :
  preserves bound -> (forall k, preserves (body k)) ->
  preserves (for_upto bound body).
Proof.
  intros Hbound Hbody. unfold for_upto.
  apply preserves_bind; [exact Hbound | intros b].
  apply preserves_for_from; assumption.
Qed.

Lemma preserves_pre_add_ij (row col : Z) :
  0 <= row -> 0 <= col -> preserves (pre_add_ij row col).
Proof.
  intros Hr Hc s. simpl. exists [(row, col)]. split; [reflexivity|].
  constructor; [split; assumption | constructor].
Qed.

(** Takes a computation of the pass apart down to its reads, writes and
    registrations. *)
Ltac preserve :=
  repeat first
    [ apply preserves_for_upto; [|intros]
    | apply preserves_for_range; intros
    | apply preserves_for_each; intros
    | apply preserves_map_m; intros
    | apply preserves_when; intros
    | apply preserves_pre_add_ij; apply is_dof_nonneg; assumption
    | apply preserves_modify; intros; reflexivity
    | apply preserves_ret
    | apply preserves_raise
    | apply preserves_gets
    | apply preserves_read
    | apply preserves_bind; [|intros]
    | match goal with
      | |- preserves (match ?x with _ => _ end) => destruct x
      end ].

Section PassPreserves.

Variable spaces : list Space.
Variable n : nat.
Variable blocks : nat -> nat -> bool.
Variable dg : bool.

Lemma preserves_obtain (st : Traverse.State) :
  preserves (obtain_assembly_lists spaces n st).
Proof. unfold obtain_assembly_lists, elem_at, space_at. preserve. Qed.

Lemma preserves_get_the_neighbors (st : Traverse.State) (num_edges : nat) :
  preserves (get_the_neighbors spaces n st num_edges).
Proof. unfold get_the_neighbors, elem_at, space_at. preserve. Qed.

Lemma preserves_dg_neighbor_body (st : Traverse.State) (m el ed neigh : nat) :
  preserves (dg_neighbor_body spaces blocks st m el ed neigh).
Proof.
  unfold dg_neighbor_body, delete_neighbor_arrays, delete_an, an_cnt, an_dof,
    neighbor_at, al_at, elem_at, space_at.
  preserve.
Qed.

Lemma preserves_dg_part (st : Traverse.State) :
  preserves (dg_part spaces n blocks st).
Proof.
  unfold dg_part, dg_pre_add, elem_at.
  unfold count_at.
  preserve; try apply preserves_get_the_neighbors;
    try apply preserves_dg_neighbor_body.
Qed.

Lemma preserves_local_block (st : Traverse.State) (m k : nat) :
  preserves (local_block blocks st m k).
Proof. unfold local_block, al_at, elem_at. preserve. Qed.

Lemma preserves_process_state (st : Traverse.State) :
  preserves (process_state spaces n blocks dg st).
Proof.
  unfold process_state, local_blocks.
  preserve; try apply preserves_obtain; try apply preserves_dg_part;
    try apply preserves_local_block.
Qed.

Lemma preserves_loop_states (states : list Traverse.State) :
  preserves (loop_states spaces n blocks dg states).
Proof. apply preserves_for_each. intros st. apply preserves_process_state. Qed.

End PassPreserves.

(** ** [prepare_sparse_structure] by cases *)

(** With a reusable matrix structure, or without a matrix target, only the
    two re-zeroing blocks and the vector block run. *)
Lemma prepare_without_rebuild (a : Assembler) (mat : option SparseMatrix)
      (rhs : option Vector) (spaces : list Space) (states : list Traverse.State) :
  matrix_structure_reusable a = true \/ mat = None ->
  prepare_sparse_structure a mat rhs spaces states =
  prepare_vector a (reuse_matrix a mat) (reuse_vector a rhs (get_num_dofs spaces))
                 (get_num_dofs spaces).
Proof.
  intros H. unfold prepare_sparse_structure.
  destruct H as [H | ->].
  - rewrite H. reflexivity.
  - unfold reuse_matrix. destruct (matrix_structure_reusable a); reflexivity.
Qed.

(** With a matrix target and a structure that is not reusable, the call
    rebuilds: it registers some non-negative coordinates after [free] and
    [prealloc], and either commits them and goes on to the vector block,
    or stops at a fault with the registrations made so far. *)
Lemma prepare_with_rebuild (a : Assembler) (m : SparseMatrix)
      (rhs : option Vector) (spaces : list Space) (states : list Traverse.State) :
  matrix_structure_reusable a = false ->
  let ndof := get_num_dofs spaces in
  let a1 := with_reusable a true (vector_structure_reusable a) in
  exists coords,
    Forall non_negative coords /\
    (prepare_sparse_structure a (Some m) rhs spaces states =
     prepare_vector a1 (Some (mat_alloc (rebuilding m ndof coords)))
                    (reuse_vector a rhs ndof) ndof \/
     exists f,
       prepare_sparse_structure a (Some m) rhs spaces states =
       {| res_asm := a1; res_mat := Some (rebuilding m ndof coords);
          res_rhs := reuse_vector a rhs ndof; res_outcome := Fault f |}).
Proof.
  intros Hm ndof a1. unfold prepare_sparse_structure, reuse_matrix. rewrite Hm.
  fold ndof. fold a1.
  destruct (wf a) as [w|].
  - pose proof (preserves_loop_states spaces (spaces_size a)
                  (get_blocks w (force_diagonal_blocks a)) (is_DG w) states
                  (start_machine (mat_prealloc (mat_free m) ndof) (spaces_size a)))
      as Hp.
    destruct (loop_states _ _ _ _ _ _) as [s [u|f]]; simpl in Hp;
      destruct Hp as (coords & Hs & Hnn); exists coords; (split; [exact Hnn|]).
    + left. rewrite Hs. reflexivity.
    + right. exists f. rewrite Hs. reflexivity.
  - exists []. split; [constructor|]. right. exists NullPointer. reflexivity.
Qed.

Lemma prepare_vector_returns (a : Assembler) (mat : option SparseMatrix)
      (rhs : option Vector) (ndof : Z) :
  res_outcome (prepare_vector a mat rhs ndof) = Done tt /\
  res_mat (prepare_vector a mat rhs ndof) = mat /\
  matrix_structure_reusable (res_asm (prepare_vector a mat rhs ndof)) =
    matrix_structure_reusable a /\
  vector_structure_reusable (res_asm (prepare_vector a mat rhs ndof)) =
    (vector_structure_reusable a || is_some rhs)%bool /\
  res_rhs (prepare_vector a mat rhs ndof) =
    (if vector_structure_reusable a then rhs
     else option_map (fun v => vec_alloc v ndof) rhs).
Proof.
  unfold prepare_vector.
  destruct (vector_structure_reusable a) eqn:Hv; destruct rhs as [v|]; simpl;
    rewrite ?Hv; repeat split.
Qed.

Lemma reuse_vector_is_some (a : Assembler) (rhs : option Vector) (ndof : Z) :
  is_some (reuse_vector a rhs ndof) = is_some rhs.
Proof.
  unfold reuse_vector.
  destruct (vector_structure_reusable a); destruct rhs; reflexivity.
Qed.

(** The calls made on the matrix by a rebuild, committed or not, start
    with [free] and [prealloc]. *)
Lemma rebuilding_calls (m : SparseMatrix) (ndof : Z) (coords : list (Z * Z)) :
  mat_calls (rebuilding m ndof coords) =
  mat_calls m ++ MatFree :: MatPrealloc ndof :: map as_call coords.
Proof.
  unfold rebuilding. rewrite registered_calls. simpl.
  rewrite <- !app_assoc. reflexivity.
Qed.

Lemma in_as_call (row col : Z) (coords : list (Z * Z)) :
  In (MatPreAddIj row col) (map as_call coords) -> In (row, col) coords.
Proof.
  intros H. apply in_map_iff in H. destruct H as ([r c] & Heq & Hin).
  unfold as_call in Heq. simpl in Heq. injection Heq as -> ->. exact Hin.
Qed.

(** C6. In every structural registration of [prepare_sparse_structure],
    on the DG neighbour path and on the local-coupling path alike, an
    assembly-list entry with a negative dof is skipped: whatever the
    inputs, and whether the call returns or stops at a fault, none of the
    calls it makes on the matrix is a [pre_add_ij] with a negative row or
    column. *)
Theorem constrained_dofs_skipped (a : Assembler) (m : SparseMatrix)
        (rhs : option Vector) (spaces : list Space) (states : list Traverse.State) :
  exists m' new_calls,
    res_mat (prepare_sparse_structure a (Some m) rhs spaces states) = Some m' /\
    mat_calls m' = mat_calls m ++ new_calls /\
    forall row col, In (MatPreAddIj row col) new_calls -> 0 <= row /\ 0 <= col.
Proof.
  destruct (matrix_structure_reusable a) eqn:Hm.
  - rewrite (prepare_without_rebuild a (Some m) rhs spaces states (or_introl Hm)).
    destruct (prepare_vector_returns a (reuse_matrix a (Some m))
                (reuse_vector a rhs (get_num_dofs spaces)) (get_num_dofs spaces))
      as (_ & -> & _).
    unfold reuse_matrix. rewrite Hm.
    exists (mat_zero m), [MatZero]. split; [reflexivity|]. split; [reflexivity|].
    intros row col [H|[]]. discriminate H.
  - destruct (prepare_with_rebuild a m rhs spaces states Hm)
      as (coords & Hnn & [-> | [f ->]]).
    + destruct (prepare_vector_returns
                  (with_reusable a true (vector_structure_reusable a))
                  (Some (mat_alloc (rebuilding m (get_num_dofs spaces) coords)))
                  (reuse_vector a rhs (get_num_dofs spaces)) (get_num_dofs spaces))
        as (_ & -> & _).
      eexists. eexists. split; [reflexivity|]. split.
      * simpl. rewrite rebuilding_calls. rewrite <- app_assoc. reflexivity.
      * intros row col Hin. simpl in Hin.
        destruct Hin as [H|[H|Hin]]; try discriminate H.
        apply in_app_or in Hin. destruct Hin as [Hin|[H|[]]]; [|discriminate H].
        apply in_as_call in Hin.
        rewrite Forall_forall in Hnn. apply (Hnn (row, col) Hin).
    + eexists. eexists. split; [reflexivity|]. split.
      * simpl. apply rebuilding_calls.
      * intros row col Hin. simpl in Hin.
        destruct Hin as [H|[H|Hin]]; try discriminate H.
        apply in_as_call in Hin.
        rewrite Forall_forall in Hnn. apply (Hnn (row, col) Hin).
Qed.

(** The residual alone is assembled: no matrix target is passed. *)
Lemma flag_left_false_without_target :
  let r := prepare_sparse_structure (Sample.bound_assembler 2 false)
             None (Some Sample.empty_vec)
             (Sample.two_spaces Sample.no_neighbors)
             [Sample.state_of [Some (Sample.tri 1); Some (Sample.tri 1)]] in
  returned r /\
  matrix_structure_reusable (res_asm r) = false /\
  ~ (matrix_structure_reusable (res_asm r) = true /\
     vector_structure_reusable (res_asm r) = true).
Proof.
  vm_compute. split; [reflexivity|]. split; [reflexivity|].
  intros [H _]. discriminate H.
Qed.

(** What a call that returns leaves in the flags and the targets. *)
Lemma prepare_returned (a : Assembler) (mat : option SparseMatrix)
        (rhs : option Vector) (spaces : list Space) (states : list Traverse.State) :
  let r := prepare_sparse_structure a mat rhs spaces states in
  let ndof := get_num_dofs spaces in
  returned r ->
  matrix_structure_reusable (res_asm r) =
    (matrix_structure_reusable a || is_some mat)%bool /\
  vector_structure_reusable (res_asm r) =
    (vector_structure_reusable a || is_some rhs)%bool /\
  (forall m, matrix_structure_reusable a = false -> mat = Some m ->
             exists coords,
               res_mat r = Some (mat_alloc (rebuilding m ndof coords))) /\
  (forall v, vector_structure_reusable a = false -> rhs = Some v ->
             res_rhs r = Some (vec_alloc v ndof)).
Proof.
  intros r ndof Hret. unfold returned in Hret. subst r.
  destruct (matrix_structure_reusable a) eqn:Hm; [|destruct mat as [m|]].
  - rewrite (prepare_without_rebuild a mat rhs spaces states (or_introl Hm)) in *.
    destruct (prepare_vector_returns a (reuse_matrix a mat)
                (reuse_vector a rhs ndof) ndof) as (_ & _ & Hfm & Hfv & Hr).
    fold ndof. rewrite Hfm, Hfv, Hr, Hm, reuse_vector_is_some.
    split; [reflexivity|]. split; [reflexivity|].
    split; [intros m H; discriminate H|].
    intros v Hv ->. rewrite Hv. unfold reuse_vector. rewrite Hv. reflexivity.
  - destruct (prepare_with_rebuild a m rhs spaces states Hm)
      as (coords & _ & [E | [f E]]); rewrite E in *; [|discriminate Hret].
    fold ndof.
    destruct (prepare_vector_returns
                (with_reusable a true (vector_structure_reusable a))
                (Some (mat_alloc (rebuilding m ndof coords)))
                (reuse_vector a rhs ndof) ndof) as (_ & Hmat & Hfm & Hfv & Hr).
    rewrite Hfm, Hfv, Hr, Hmat, reuse_vector_is_some. simpl.
    split; [reflexivity|]. split; [reflexivity|].
    split; [intros m0 _ H; injection H as <-; exists coords; reflexivity|].
    intros v Hv ->. rewrite Hv. unfold reuse_vector. rewrite Hv. reflexivity.
  - rewrite (prepare_without_rebuild a None rhs spaces states (or_intror eq_refl)) in *.
    destruct (prepare_vector_returns a (reuse_matrix a None)
                (reuse_vector a rhs ndof) ndof) as (_ & _ & Hfm & Hfv & Hr).
    fold ndof. rewrite Hfm, Hfv, Hr, Hm, reuse_vector_is_some.
    split; [reflexivity|]. split; [reflexivity|].
    split; [intros m _ H; discriminate H|].
    intros v Hv ->. rewrite Hv. unfold reuse_vector. rewrite Hv. reflexivity.
Qed.

(** C4 (amended). For each of the two flags independently: after a call to
    [prepare_sparse_structure] that returns, the flag is true exactly when
    it was true on entry or its target (matrix, resp. vector) was passed.
    With a passed target and a false flag the call rebuilds in full: the
    matrix is released, preallocated, registered into and committed; the
    vector is reallocated to [ndof].  A flag whose target is null is left
    as it was.  In particular both flags are true after a returning call
    that was given both targets. *)
Theorem flags_after_prepare (a : Assembler) (mat : option SparseMatrix)
        (rhs : option Vector) (spaces : list Space) (states : list Traverse.State) :
  let r := prepare_sparse_structure a mat rhs spaces states in
  let ndof := get_num_dofs spaces in
  returned r ->
  matrix_structure_reusable (res_asm r) =
    (matrix_structure_reusable a || is_some mat)%bool /\
  vector_structure_reusable (res_asm r) =
    (vector_structure_reusable a || is_some rhs)%bool /\
  (forall m, matrix_structure_reusable a = false -> mat = Some m ->
             exists coords,
               res_mat r = Some (mat_alloc (rebuilding m ndof coords))) /\
  (forall v, vector_structure_reusable a = false -> rhs = Some v ->
             res_rhs r = Some (vec_alloc v ndof)) /\
  (is_some mat = true -> is_some rhs = true ->
   matrix_structure_reusable (res_asm r) = true /\
   vector_structure_reusable (res_asm r) = true).
Proof.
  intros r ndof Hret.
  destruct (prepare_returned a mat rhs spaces states Hret)
    as (Hfm & Hfv & Hmat & Hvec).
  fold r in Hfm, Hfv, Hmat, Hvec.
  split; [exact Hfm|]. split; [exact Hfv|].
  split; [exact Hmat|]. split; [exact Hvec|].
  intros Hm Hv. rewrite Hfm, Hfv, Hm, Hv, !orb_true_r.
  split; reflexivity.
Qed.

(** A first structural build for two fields, both targets passed. *)
Lemma flags_after_prepare_witness :
  let r := prepare_sparse_structure (Sample.bound_assembler 2 false)
             (Some Sample.empty_mat) (Some Sample.empty_vec)
             (Sample.two_spaces Sample.no_neighbors)
             [Sample.state_of [Some (Sample.tri 1); Some (Sample.tri 1)]] in
  matrix_structure_reusable (res_asm r) = true /\
  vector_structure_reusable (res_asm r) = true.
Proof.
  intros r.
  destruct (flags_after_prepare (Sample.bound_assembler 2 false)
              (Some Sample.empty_mat) (Some Sample.empty_vec)
              (Sample.two_spaces Sample.no_neighbors)
              [Sample.state_of [Some (Sample.tri 1); Some (Sample.tri 1)]])
    as (Hm & Hv & _); [vm_compute; reflexivity|].
  split; [exact Hm | exact Hv].
Defined.

(** A call with both structures reusable and both targets passed. *)
Lemma prepare_reusable (a : Assembler) (m : SparseMatrix) (v : Vector)
      (spaces : list Space) (states : list Traverse.State) :
  matrix_structure_reusable a = true ->
  vector_structure_reusable a = true ->
  prepare_sparse_structure a (Some m) (Some v) spaces states =
  {| res_asm := a;
     res_mat := Some (mat_zero m);
     res_rhs := Some (if vec_length v =? 0 then vec_alloc v (get_num_dofs spaces)
                      else vec_zero v);
     res_outcome := Done tt |}.
Proof.
  intros Hm Hv.
  unfold prepare_sparse_structure, reuse_matrix, reuse_vector, prepare_vector.
  rewrite Hm, Hv. reflexivity.
Qed.

Lemma prepare_vector_rhs (a a' : Assembler) (mat : option SparseMatrix) (v : Vector)
      (ndof : Z) :
  vector_structure_reusable a' = vector_structure_reusable a ->
  res_rhs (prepare_vector a' mat (reuse_vector a (Some v) ndof) ndof) =
  if vector_structure_reusable a then reuse_vector a (Some v) ndof
  else Some (vec_alloc v ndof).
Proof.
  intros Heq. unfold prepare_vector, reuse_vector. rewrite Heq.
  destruct (vector_structure_reusable a); reflexivity.
Qed.

(** The vector a returning call leaves is empty only if [ndof] is 0. *)
Lemma prepare_vector_length (a : Assembler) (mat : option SparseMatrix) (v : Vector)
      (spaces : list Space) (states : list Traverse.State) :
  let r := prepare_sparse_structure a mat (Some v) spaces states in
  returned r ->
  exists v1, res_rhs r = Some v1 /\
             (vec_length v1 = 0 -> get_num_dofs spaces = 0).
Proof.
  intros r Hret.
  assert (Hr : res_rhs r =
               if vector_structure_reusable a
               then reuse_vector a (Some v) (get_num_dofs spaces)
               else Some (vec_alloc v (get_num_dofs spaces))).
  { unfold returned in Hret. subst r.
    destruct (matrix_structure_reusable a) eqn:Hm; [|destruct mat as [m|]].
    - rewrite (prepare_without_rebuild a mat (Some v) spaces states (or_introl Hm)).
      apply prepare_vector_rhs; reflexivity.
    - destruct (prepare_with_rebuild a m (Some v) spaces states Hm)
        as (coords & _ & [E | [f E]]); rewrite E in *; [|discriminate Hret].
      apply prepare_vector_rhs; reflexivity.
    - rewrite (prepare_without_rebuild a None (Some v) spaces states
                 (or_intror eq_refl)).
      apply prepare_vector_rhs; reflexivity. }
  rewrite Hr. unfold reuse_vector.
  destruct (vector_structure_reusable a).
  - destruct (vec_length v =? 0) eqn:E.
    + eexists. split; [reflexivity|]. simpl. auto.
    + eexists. split; [reflexivity|]. simpl. intros H.
      apply Z.eqb_neq in E. contradiction.
  - eexists. split; [reflexivity|]. simpl. auto.
Qed.

(** C1. Idempotence.  Let a call of [prepare_sparse_structure] with both
    targets return, and let it be called again with nothing changed in
    between (same fields, same sequence numbers, same form model).  The
    second call returns, leaves the assembler as it was, makes exactly one
    call on the matrix, [zero], hence no [pre_add_ij], [prealloc] or
    [alloc], and leaves the registered pattern identical; on the vector it
    only re-zeroes: [zero], or for an empty vector (then [ndof] is 0)
    [alloc(0)], the length staying the same. *)
Theorem prepare_twice (a : Assembler) (m : SparseMatrix) (v : Vector)
        (spaces : list Space) (states : list Traverse.State) :
  let r1 := prepare_sparse_structure a (Some m) (Some v) spaces states in
  returned r1 ->
  exists m1 v1,
    res_mat r1 = Some m1 /\ res_rhs r1 = Some v1 /\
    let r2 := prepare_sparse_structure (res_asm r1) (Some m1) (Some v1) spaces states in
    returned r2 /\
    res_asm r2 = res_asm r1 /\
    exists m2 v2,
      res_mat r2 = Some m2 /\ res_rhs r2 = Some v2 /\
      mat_calls m2 = mat_calls m1 ++ [MatZero] /\
      pre_adds (mat_calls m2) = pre_adds (mat_calls m1) /\
      mat_pattern m2 = mat_pattern m1 /\
      mat_size m2 = mat_size m1 /\
      vec_length v2 = vec_length v1 /\
      (vec_calls v2 = vec_calls v1 ++ [VecZero] \/
       (vec_length v1 = 0 /\ vec_calls v2 = vec_calls v1 ++ [VecAlloc 0])).
Proof.
  intros r1 Hret.
  destruct (prepare_returned a (Some m) (Some v) spaces states Hret)
    as (Hfm & Hfv & Hmat & _).
  fold r1 in Hfm, Hfv, Hmat.
  rewrite orb_true_r in Hfm, Hfv.
  destruct (prepare_vector_length a (Some m) v spaces states Hret)
    as (v1 & Hv1 & Hlen).
  fold r1 in Hv1.
  assert (Hm1 : exists m1, res_mat r1 = Some m1).
  { destruct (matrix_structure_reusable a) eqn:Hm.
    - subst r1.
      rewrite (prepare_without_rebuild a (Some m) (Some v) spaces states
                 (or_introl Hm)).
      destruct (prepare_vector_returns a (reuse_matrix a (Some m))
                  (reuse_vector a (Some v) (get_num_dofs spaces))
                  (get_num_dofs spaces)) as (_ & -> & _).
      unfold reuse_matrix. rewrite Hm. eexists; reflexivity.
    - destruct (Hmat m eq_refl eq_refl) as [coords Hc]. eexists; exact Hc. }
  destruct Hm1 as [m1 Hm1].
  exists m1, v1. split; [exact Hm1|]. split; [exact Hv1|].
  intros r2. subst r2.
  rewrite (prepare_reusable (res_asm r1) m1 v1 spaces states Hfm Hfv).
  split; [reflexivity|]. split; [reflexivity|].
  eexists. eexists. split; [reflexivity|]. split; [reflexivity|].
  split; [reflexivity|].
  split.
  { simpl. clear. induction (mat_calls m1) as [|c cs IH]; [reflexivity|].
    destruct c; simpl; rewrite ?IH; reflexivity. }
  split; [reflexivity|]. split; [reflexivity|].
  destruct (vec_length v1 =? 0) eqn:E.
  - apply Z.eqb_eq in E. rewrite (Hlen E). simpl.
    split; [symmetry; exact E|]. right. split; [exact E | reflexivity].
  - simpl. split; [reflexivity|]. left. reflexivity.
Qed.

(** Two structural builds in a row for the two sample fields. *)
Lemma prepare_twice_witness :
  let a := Sample.bound_assembler 2 false in
  let spaces := Sample.two_spaces Sample.no_neighbors in
  let states := [Sample.state_of [Some (Sample.tri 1); Some (Sample.tri 1)]] in
  let r1 := prepare_sparse_structure a (Some Sample.empty_mat)
              (Some Sample.empty_vec) spaces states in
  exists m1 v1,
    res_mat r1 = Some m1 /\ res_rhs r1 = Some v1 /\
    length (mat_pattern m1) = 25%nat /\
    let r2 := prepare_sparse_structure (res_asm r1) (Some m1) (Some v1) spaces states in
    exists m2,
      res_mat r2 = Some m2 /\
      mat_calls m2 = mat_calls m1 ++ [MatZero] /\
      mat_pattern m2 = mat_pattern m1.
Proof.
  intros a spaces states r1.
  destruct (prepare_twice a Sample.empty_mat Sample.empty_vec spaces states)
    as (m1 & v1 & Hm1 & Hv1 & _ & _ & m2 & v2 & Hm2 & _ & Hc & _ & Hp & _);
    [vm_compute; reflexivity|].
  exists m1, v1. split; [exact Hm1|]. split; [exact Hv1|].
  split.
  - fold r1 in Hm1. vm_compute in Hm1. injection Hm1 as <-. reflexivity.
  - intros r2. exists m2. split; [exact Hm2|]. split; [exact Hc | exact Hp].
Defined.

(** A call on a matrix whose structure is not reusable starts the rebuild:
    [free], then [prealloc(ndof)]. *)
Lemma rebuild_starts (a : Assembler) (m : SparseMatrix) (rhs : option Vector)
      (spaces : list Space) (states : list Traverse.State) :
  matrix_structure_reusable a = false ->
  exists m' rest,
    res_mat (prepare_sparse_structure a (Some m) rhs spaces states) = Some m' /\
    mat_calls m' = mat_calls m ++ MatFree :: MatPrealloc (get_num_dofs spaces) :: rest.
Proof.
  intros Hm.
  destruct (prepare_with_rebuild a m rhs spaces states Hm)
    as (coords & _ & [-> | [f ->]]).
  - destruct (prepare_vector_returns
                (with_reusable a true (vector_structure_reusable a))
                (Some (mat_alloc (rebuilding m (get_num_dofs spaces) coords)))
                (reuse_vector a rhs (get_num_dofs spaces)) (get_num_dofs spaces))
      as (_ & -> & _).
    eexists. eexists. split; [reflexivity|].
    simpl. rewrite rebuilding_calls. rewrite <- app_assoc. reflexivity.
  - eexists. eexists. split; [reflexivity|]. simpl. apply rebuilding_calls.
Qed.

(** ** The local-coupling pass, exactly *)

Lemma set_mat_same (s : Machine) : set_mat s (m_mat s) = s.
Proof. destruct s; reflexivity. Qed.

Lemma runs_as_ret (al : list AsmList) : runs_as al (ret tt) [].
Proof. intros s _. simpl. rewrite set_mat_same. reflexivity. Qed.

Lemma runs_as_pre_add_ij (al : list AsmList) (row col : Z) :
  runs_as al (pre_add_ij row col) [(row, col)].
Proof. intros s _. reflexivity. Qed.

Lemma runs_as_then (al : list AsmList) (c1 c2 : M unit) (xs ys : list (Z * Z)) :
  runs_as al c1 xs -> runs_as al c2 ys -> runs_as al (c1 ;; c2) (xs ++ ys).
Proof.
  intros H1 H2 s Hal. unfold bind. rewrite (H1 s Hal).
  rewrite (H2 (set_mat s (registered (m_mat s) xs)) Hal). simpl.
  rewrite registered_app. reflexivity.
Qed.

Lemma runs_as_when (al : list AsmList) (b : bool) (c : M unit) (xs : list (Z * Z)) :
  runs_as al c xs -> runs_as al (when b c) (if b then xs else []).
Proof. intros H. destruct b; [exact H | apply runs_as_ret]. Qed.

Lemma runs_as_for_each {A : Type} (al : list AsmList) (l : list A)
      (body : A -> M unit) (g : A -> list (Z * Z)) :
  (forall x, runs_as al (body x) (g x)) ->
  runs_as al (for_each l body) (flat_map g l).
Proof.
  intros Hb. induction l as [|x l IH]; simpl.
  - apply runs_as_ret.
  - apply runs_as_then; [apply Hb | exact IH].
Qed.

(** A local block whose two fields are present registers every pair of
    unconstrained dofs. *)
Lemma local_block_exact (blocks : nat -> nat -> bool) (st : Traverse.State)
      (al : list AsmList) (m k : nat) (em ek : Element) (am ak : AsmList) :
  blocks m k = true ->
  state_elem st m = Some (Some em) ->
  state_elem st k = Some (Some ek) ->
  nth_error al m = Some am ->
  nth_error al k = Some ak ->
  runs_as al (local_block blocks st m k) (block_pairs am ak).
Proof.
  intros Hb Hm Hk Ham Hak s Hal.
  unfold local_block, elem_at, al_at. rewrite Hb.
  unfold bind at 1. unfold bind at 1. rewrite Hm. simpl.
  unfold bind at 1. rewrite Hk. simpl.
  unfold bind at 1. unfold bind at 1. simpl. rewrite Hal, Ham. simpl.
  unfold bind at 1. unfold bind at 1. simpl. rewrite Hal, Hak. simpl.
  revert s Hal.
  change (runs_as al
            (for_each (dof am) (fun am_dof_i =>
               when (is_dof am_dof_i)
                    (for_each (dof ak) (fun an_dof_j =>
                       when (is_dof an_dof_j) (pre_add_ij am_dof_i an_dof_j)))))
            (block_pairs am ak)).
  unfold block_pairs.
  apply runs_as_for_each. intros di.
  apply runs_as_when.
  apply (runs_as_for_each al (dof ak)
           (fun dj => when (is_dof dj) (pre_add_ij di dj))
           (fun dj => if is_dof dj then [(di, dj)] else [])).
  intros dj. apply runs_as_when, runs_as_pre_add_ij.
Qed.

Lemma pairs_with (di : Z) (l : list Z) :
  flat_map (fun dj => if is_dof dj then [(di, dj)] else []) l =
  map (fun dj => (di, dj)) (filter is_dof l).
Proof.
  induction l as [|x l IH]; simpl; [reflexivity|].
  destruct (is_dof x); simpl; rewrite IH; reflexivity.
Qed.

(** The registrations of a block are the product of the unconstrained
    dofs of its two fields. *)
Lemma block_pairs_prod (am an : AsmList) :
  block_pairs am an = list_prod (unconstrained am) (unconstrained an).
Proof.
  unfold block_pairs, unconstrained.
  induction (dof am) as [|x l IH]; simpl; [reflexivity|].
  destruct (is_dof x); simpl; rewrite IH; [|reflexivity].
  rewrite pairs_with. reflexivity.
Qed.

(** The structural pass over one state of a two-field problem with every
    block coupled, both fields present and no DG form. *)
Lemma two_field_pass (blocks : nat -> nat -> bool) (sp0 sp1 : Space)
      (el0 el1 : Element) (st : Traverse.State) (m1 : SparseMatrix) :
  (forall p q, blocks p q = true) ->
  Traverse.e st = [Some el0; Some el1] ->
  let am0 := get_element_assembly_list sp0 el0 in
  let am1 := get_element_assembly_list sp1 el1 in
  exists s',
    loop_states [sp0; sp1] 2 blocks false [st] (start_machine m1 2) = (s', Done tt) /\
    m_mat s' =
    registered m1 (block_pairs am0 am0 ++ block_pairs am0 am1 ++
                   block_pairs am1 am0 ++ block_pairs am1 am1).
Proof.
  intros Hb He am0 am1.
  assert (Hobtain :
            obtain_assembly_lists [sp0; sp1] 2 st (start_machine m1 2) =
            (set_al (start_machine m1 2) [am0; am1], Done tt)).
  { unfold obtain_assembly_lists, for_range, elem_at, state_elem. rewrite He.
    reflexivity. }
  assert (Hlocal :
            runs_as [am0; am1] (local_blocks 2 blocks st)
                    ((block_pairs am0 am0 ++ block_pairs am0 am1 ++ []) ++
                     (block_pairs am1 am0 ++ block_pairs am1 am1 ++ []) ++ [])).
  { unfold local_blocks, for_range. simpl seq. simpl for_each.
    repeat first
      [ apply runs_as_ret
      | apply runs_as_then
      | eapply local_block_exact;
        [ apply Hb
        | unfold state_elem; rewrite He; reflexivity
        | unfold state_elem; rewrite He; reflexivity
        | reflexivity
        | reflexivity ] ]. }
  eexists. split.
  - unfold loop_states. simpl for_each. unfold process_state.
    unfold bind at 1. unfold bind at 1. rewrite Hobtain.
    unfold bind at 1. simpl when. unfold ret at 1.
    rewrite (Hlocal (set_al (start_machine m1 2) [am0; am1]) eq_refl).
    reflexivity.
  - simpl. rewrite !app_nil_r, <- !app_assoc. reflexivity.
Qed.

(** C7. Two fields, every block of the mask set, no DG form, one state in
    which field 0 contributes 3 unconstrained dofs and field 1 contributes
    2: the structural pass returns after registering, between [free],
    [prealloc] and [alloc], the 9 pairs of block (0,0), the 6 of (0,1), the
    6 of (1,0) and the 4 of (1,1), in this order: 12 cross-block and 9 + 4
    same-block registrations, 25 in all. *)
Theorem two_field_scenario (a : Assembler) (w : WeakForm) (sp0 sp1 : Space)
        (el0 el1 : Element) (st : Traverse.State)
        (m : SparseMatrix) (rhs : option Vector) :
  spaces_size a = 2%nat ->
  matrix_structure_reusable a = false ->
  wf a = Some w ->
  is_DG w = false ->
  (forall p q, get_blocks w (force_diagonal_blocks a) p q = true) ->
  Traverse.e st = [Some el0; Some el1] ->
  let u0 := unconstrained (get_element_assembly_list sp0 el0) in
  let u1 := unconstrained (get_element_assembly_list sp1 el1) in
  length u0 = 3%nat ->
  length u1 = 2%nat ->
  let r := prepare_sparse_structure a (Some m) rhs [sp0; sp1] [st] in
  let same0 := list_prod u0 u0 in
  let cross01 := list_prod u0 u1 in
  let cross10 := list_prod u1 u0 in
  let same1 := list_prod u1 u1 in
  returned r /\
  (exists m',
      res_mat r = Some m' /\
      mat_calls m' =
        mat_calls m ++
        [MatFree; MatPrealloc (get_num_dofs [sp0; sp1])] ++
        map as_call (same0 ++ cross01 ++ cross10 ++ same1) ++ [MatAlloc]) /\
  length (cross01 ++ cross10) = 12%nat /\
  length same0 = 9%nat /\
  length same1 = 4%nat /\
  length (same0 ++ cross01 ++ cross10 ++ same1) = 25%nat.
Proof.
  intros Hsize Hflag Hwf Hdg Hblocks He u0 u1 Hu0 Hu1 r same0 cross01 cross10 same1.
  destruct (two_field_pass (get_blocks w (force_diagonal_blocks a)) sp0 sp1 el0 el1 st
              (mat_prealloc (mat_free m) (get_num_dofs [sp0; sp1])) Hblocks He)
    as (s' & Hrun & Hmat).
  assert (Hr : r = prepare_vector (with_reusable a true (vector_structure_reusable a))
                     (Some (mat_alloc (m_mat s')))
                     (reuse_vector a rhs (get_num_dofs [sp0; sp1]))
                     (get_num_dofs [sp0; sp1])).
  { subst r. unfold prepare_sparse_structure, reuse_matrix.
    rewrite Hflag, Hwf, Hsize, Hdg, Hrun. reflexivity. }
  destruct (prepare_vector_returns
              (with_reusable a true (vector_structure_reusable a))
              (Some (mat_alloc (m_mat s')))
              (reuse_vector a rhs (get_num_dofs [sp0; sp1]))
              (get_num_dofs [sp0; sp1])) as (Hout & Hres & _).
  split; [unfold returned; rewrite Hr; exact Hout|].
  split.
  - exists (mat_alloc (m_mat s')). split; [rewrite Hr; exact Hres|].
    simpl. rewrite Hmat, registered_calls. simpl.
    rewrite !block_pairs_prod. fold u0 u1 same0 cross01 cross10 same1.
    rewrite <- !app_assoc. reflexivity.
  - subst same0 cross01 cross10 same1.
    rewrite !length_app, !length_prod, Hu0, Hu1. repeat split.
Qed.

(** The two sample fields on one triangle: dofs 3, 4, 5 and 102, 103. *)
Lemma two_field_scenario_witness :
  let r := prepare_sparse_structure (Sample.bound_assembler 2 false)
             (Some Sample.empty_mat) None
             (Sample.two_spaces Sample.no_neighbors)
             [Sample.state_of [Some (Sample.tri 1); Some (Sample.tri 1)]] in
  returned r /\
  exists m', res_mat r = Some m' /\ length (pre_adds (mat_calls m')) = 25%nat.
Proof.
  intros r.
  destruct (two_field_scenario (Sample.bound_assembler 2 false)
              (Sample.weak_form false)
              (Sample.space0 Sample.no_neighbors 0)
              (Sample.space1 Sample.no_neighbors 0)
              (Sample.tri 1) (Sample.tri 1)
              (Sample.state_of [Some (Sample.tri 1); Some (Sample.tri 1)])
              Sample.empty_mat None
              eq_refl eq_refl eq_refl eq_refl (fun p q => eq_refl) eq_refl
              eq_refl eq_refl)
    as (Hret & (m' & Hm' & Hcalls) & _).
  split; [exact Hret|].
  exists m'. split; [exact Hm'|].
  rewrite Hcalls. reflexivity.
Defined.

(** ** The DG branch releases what it still iterates over *)

Lemma bind_done {A B : Type} (c : M A) (k : A -> M B) (s s' : Machine) (b : B) :
  bind c k s = (s', Done b) ->
  exists s1 x, c s = (s1, Done x) /\ k x s1 = (s', Done b).
Proof.
  unfold bind. destruct (c s) as [s1 [x|f]]; intros H.
  - exists s1, x. split; [reflexivity | exact H].
  - discriminate H.
Qed.

Lemma delete_neighbor_arrays_done (s s' : Machine) :
  delete_neighbor_arrays s = (s', Done tt) -> neighbor_elems_counts s' = None.
Proof.
  unfold delete_neighbor_arrays, bind, gets, read. simpl.
  destruct (neighbor_elems_arrays s); simpl; [|discriminate].
  destruct (neighbor_elems_counts s); simpl; [|discriminate].
  intros H. injection H as <-. reflexivity.
Qed.

(** A pass of the [neigh] loop body that returns has released the counts. *)
Lemma dg_neighbor_body_done (spaces : list Space) (blocks : nat -> nat -> bool)
      (st : Traverse.State) (m el ed neigh : nat) (s s' : Machine) :
  dg_neighbor_body spaces blocks st m el ed neigh s = (s', Done tt) ->
  neighbor_elems_counts s' = None.
Proof.
  unfold dg_neighbor_body. intros H.
  apply bind_done in H. destruct H as (s1 & em & _ & H).
  apply bind_done in H. destruct H as (s2 & u & _ & H).
  apply delete_neighbor_arrays_done in H. exact H.
Qed.

Lemma count_at_released (el ed : nat) (s : Machine) :
  neighbor_elems_counts s = None -> count_at el ed s = (s, Fault Released).
Proof. intros H. unfold count_at, bind, gets. rewrite H. reflexivity. Qed.

Lemma count_at_read (el ed : nat) (s : Machine) (rows : list (list nat))
      (row : list nat) (c : nat) :
  neighbor_elems_counts s = Some rows ->
  nth_error rows el = Some row ->
  nth_error row ed = Some c ->
  count_at el ed s = (s, Done c).
Proof.
  intros H1 H2 H3. unfold count_at, bind, gets. rewrite H1. simpl.
  rewrite H2. simpl. rewrite H3. reflexivity.
Qed.

(** Whenever an edge has a neighbour at all, the loop over its neighbours
    stops at a fault: at the latest when it tests its bound again after
    the first pass, the counts being released by then. *)
Lemma neighbor_loop_faults (spaces : list Space) (blocks : nat -> nat -> bool)
      (st : Traverse.State) (m el ed : nat) (s : Machine)
      (rows : list (list nat)) (row : list nat) (c : nat) :
  neighbor_elems_counts s = Some rows ->
  nth_error rows el = Some row ->
  nth_error row ed = Some c ->
  (0 < c)%nat ->
  exists s' f,
    for_upto (count_at el ed) (dg_neighbor_body spaces blocks st m el ed) s =
    (s', Fault f).
Proof.
  intros H1 H2 H3 Hc.
  pose proof (count_at_read el ed s rows row c H1 H2 H3) as Hcount.
  unfold for_upto. unfold bind at 1. rewrite Hcount.
  simpl for_from. unfold bind at 1. rewrite Hcount.
  assert (E : (0 <? c)%nat = true) by (apply Nat.ltb_lt; exact Hc). rewrite E.
  unfold bind at 1.
  destruct (dg_neighbor_body spaces blocks st m el ed 0 s) as [s1 [[]|f]] eqn:Hbody.
  - apply dg_neighbor_body_done in Hbody.
    destruct c as [|c']; [lia|]. simpl for_from. unfold bind at 1.
    rewrite (count_at_released el ed s1 Hbody).
    eexists. eexists. reflexivity.
  - eexists. eexists. reflexivity.
Qed.

(** C5 (the code at an edge with two neighbours).  One DG field; element 7
    has the two neighbours 8 and 9 across edge 0 (a hanging node); the
    block (0,0) is coupled.  The pass registers the pair (21, 24) of the
    first dofs of element 7 and of neighbour 8 and its inverse (24, 21),
    deletes the neighbour's assembly list inside the loop over its dofs,
    and stops at the next test of that loop, a read of released storage.
    None of the other 8 dof pairs of neighbour 8 and none of the 9 of
    neighbour 9 is registered, and the call has no defined result. *)
Theorem dg_pass_stops_after_first_pair :
  let nb := get_neighbors (get_mesh (Sample.space0 Sample.hanging 0))
                          (Sample.tri 7) 0 in
  let r := prepare_sparse_structure (Sample.bound_assembler 1 true)
             (Some Sample.empty_mat) (Some Sample.empty_vec)
             [Sample.space0 Sample.hanging 0]
             [Sample.state_of [Some (Sample.tri 7)]] in
  map elem_id nb = [8%nat; 9%nat] /\
  map (fun el => dof (get_element_assembly_list (Sample.space0 Sample.hanging 0) el))
      (Sample.tri 7 :: nb) = [[21; 22; 23]; [24; 25; 26]; [27; 28; 29]] /\
  res_outcome r = Fault Released /\
  option_map (fun m => pre_adds (mat_calls m)) (res_mat r) = Some [(21, 24); (24, 21)].
Proof. vm_compute. repeat split. Qed.

(** *** A DG pass returns only when no edge has a neighbour *)

Lemma for_each_unchanged {A : Type} (I : Machine -> Prop) (P : A -> Prop)
      (l : list A) (body : A -> M unit) :
  (forall x s s', In x l -> I s -> body x s = (s', Done tt) -> s' = s /\ P x) ->
  forall s s', I s -> for_each l body s = (s', Done tt) ->
               s' = s /\ forall x, In x l -> P x.
Proof.
  induction l as [|x l IH]; intros Hbody s s' HI Hrun; simpl in Hrun.
  - injection Hrun as <-. split; [reflexivity|]. intros x [].
  - apply bind_done in Hrun. destruct Hrun as (s1 & [] & Hx & Hrest).
    destruct (Hbody x s s1 (or_introl eq_refl) HI Hx) as [-> HP].
    destruct (IH (fun y t t' Hy => Hbody y t t' (or_intror Hy)) s s' HI Hrest)
      as [-> Hall].
    split; [reflexivity|]. intros y [<-|Hy]; [exact HP | apply Hall, Hy].
Qed.

Lemma for_each_done_each {A : Type} (l : list A) (body : A -> M unit) :
  forall s s', for_each l body s = (s', Done tt) ->
               forall x, In x l -> exists s1 s2, body x s1 = (s2, Done tt).
Proof.
  induction l as [|x l IH]; intros s s' Hrun y Hy; simpl in Hrun; [destruct Hy|].
  apply bind_done in Hrun. destruct Hrun as (s1 & [] & Hx & Hrest).
  destruct Hy as [<-|Hy].
  - exists s, s1. exact Hx.
  - apply (IH s1 s' Hrest y Hy).
Qed.

(** The loop over the neighbours of one edge returns only for an edge
    without neighbours, and then has done nothing. *)
Lemma neighbor_loop_done (spaces : list Space) (blocks : nat -> nat -> bool)
      (st : Traverse.State) (m el ed : nat) (s s' : Machine)
      (rows : list (list nat)) :
  neighbor_elems_counts s = Some rows ->
  for_upto (count_at el ed) (dg_neighbor_body spaces blocks st m el ed) s =
    (s', Done tt) ->
  s' = s /\ exists row, nth_error rows el = Some row /\ nth_error row ed = Some 0%nat.
Proof.
  intros Hc Hrun.
  destruct (nth_error rows el) as [row|] eqn:Hrow.
  2:{ unfold for_upto, count_at, bind, gets in Hrun. rewrite Hc in Hrun.
      simpl in Hrun. rewrite Hrow in Hrun. discriminate Hrun. }
  destruct (nth_error row ed) as [c|] eqn:Hcnt.
  2:{ unfold for_upto, count_at, bind, gets in Hrun. rewrite Hc in Hrun.
      simpl in Hrun. rewrite Hrow in Hrun. simpl in Hrun. rewrite Hcnt in Hrun.
      discriminate Hrun. }
  destruct c as [|c].
  - pose proof (count_at_read el ed s rows row 0 Hc Hrow Hcnt) as Hread.
    unfold for_upto in Hrun. unfold bind at 1 in Hrun. rewrite Hread in Hrun.
    simpl for_from in Hrun. unfold bind at 1 in Hrun. rewrite Hread in Hrun.
    simpl in Hrun. injection Hrun as <-.
    split; [reflexivity|]. exists row. split; [reflexivity | exact Hcnt].
  - destruct (neighbor_loop_faults spaces blocks st m el ed s rows row (S c)
                Hc Hrow Hcnt) as (s2 & f & Hf); [lia|].
    rewrite Hf in Hrun. discriminate Hrun.
Qed.

(** The three loops around it, likewise. *)
Lemma dg_pre_add_done (spaces : list Space) (n : nat) (blocks : nat -> nat -> bool)
      (st : Traverse.State) (num_edges : nat) (s s' : Machine)
      (rows : list (list nat)) :
  (0 < n)%nat ->
  neighbor_elems_counts s = Some rows ->
  dg_pre_add spaces n blocks st num_edges s = (s', Done tt) ->
  forall el ed, (el < n)%nat -> (ed < num_edges)%nat ->
    exists row, nth_error rows el = Some row /\ nth_error row ed = Some 0%nat.
Proof.
  intros Hn Hc Hrun el ed Hel Hed.
  unfold dg_pre_add, for_range in Hrun.
  pose (I := fun t : Machine => neighbor_elems_counts t = Some rows).
  pose (P := fun (el ed : nat) =>
               exists row, nth_error rows el = Some row /\
                           nth_error row ed = Some 0%nat).
  apply (for_each_unchanged I
           (fun _ : nat => forall el, In el (seq 0 n) ->
                                      forall ed, In ed (seq 0 num_edges) -> P el ed))
    in Hrun; [| |exact Hc].
  - destruct Hrun as [_ Hall].
    apply (Hall 0%nat); apply in_seq; lia.
  - intros m t t' _ Ht Hm.
    apply (for_each_unchanged I
             (fun el => forall ed, In ed (seq 0 num_edges) -> P el ed))
      in Hm; [exact Hm | | exact Ht].
    intros el' u u' _ Hu Hel'.
    apply (for_each_unchanged I (fun ed => P el' ed)) in Hel'; [exact Hel' | | exact Hu].
    intros ed' v v' _ Hv Hed'.
    apply (neighbor_loop_done spaces blocks st m el' ed' v v' rows Hv Hed').
Qed.

Lemma neighbor_row_run (spaces : list Space) (st : Traverse.State)
      (num_edges el : nat) (s : Machine) :
  (ei <- elem_at st el ;;
   central <- read NullPointer ei ;;
   sp <- space_at spaces el ;;
   ret (map (fun ed => get_neighbors (get_mesh sp) central ed) (seq 0 num_edges))) s =
  (s, neighbor_row spaces st num_edges el).
Proof.
  unfold neighbor_row, elem_at, space_at, bind, read.
  destruct (state_elem st el) as [[central|]|]; simpl; try reflexivity.
  destruct (nth_error spaces el); reflexivity.
Qed.

Lemma map_m_pure {A B : Type} (f : A -> M B) (g : A -> outcome B) (l : list A) :
  (forall x s, f x s = (s, g x)) ->
  forall s s' ys,
    map_m f l s = (s', Done ys) ->
    s' = s /\
    forall k x, nth_error l k = Some x ->
                exists y, nth_error ys k = Some y /\ g x = Done y.
Proof.
  intros Hf. induction l as [|x l IH]; intros s s' ys Hrun; simpl in Hrun.
  - injection Hrun as <- <-. split; [reflexivity|].
    intros k x Hk. destruct k; discriminate Hk.
  - apply bind_done in Hrun. destruct Hrun as (s1 & y & Hx & Hrest).
    rewrite Hf in Hx. injection Hx as <- Hgx.
    apply bind_done in Hrest. destruct Hrest as (s2 & ys' & Hl & Hret).
    injection Hret as <- <-.
    destruct (IH s s2 ys' Hl) as [-> Hall].
    split; [reflexivity|].
    intros k z Hk. destruct k as [|k]; simpl in Hk.
    + injection Hk as <-. exists y. split; [reflexivity | exact Hgx].
    + apply Hall, Hk.
Qed.

(** The DG part of a state returns only if no edge of the element of any
    space has a neighbour. *)
Lemma dg_part_done (spaces : list Space) (n : nat) (blocks : nat -> nat -> bool)
      (st : Traverse.State) (s s' : Machine) :
  (0 < n)%nat ->
  dg_part spaces n blocks st s = (s', Done tt) ->
  exists e0,
    state_elem st 0 = Some (Some e0) /\
    forall el ed, (el < n)%nat -> (ed < nvert e0)%nat ->
      exists central sp,
        state_elem st el = Some (Some central) /\
        nth_error spaces el = Some sp /\
        get_neighbors (get_mesh sp) central ed = [].
Proof.
  intros Hn Hrun. unfold dg_part in Hrun.
  apply bind_done in Hrun. destruct Hrun as (s1 & oe0 & He0 & Hrun).
  apply bind_done in Hrun. destruct Hrun as (s2 & e0 & Hrep & Hrun).
  apply bind_done in Hrun. destruct Hrun as (s3 & [] & Hget & Hpre).
  unfold elem_at, read in He0.
  destruct (state_elem st 0) as [oe|] eqn:Hst0; [|discriminate He0].
  injection He0 as <- <-.
  destruct oe as [e0'|]; [|discriminate Hrep].
  injection Hrep as <- <-.
  exists e0'. split; [reflexivity|].
  unfold get_the_neighbors in Hget.
  apply bind_done in Hget. destruct Hget as (s4 & arrays & Hmap & Hset).
  apply (map_m_pure _ (neighbor_row spaces st (nvert e0'))) in Hmap;
    [|intros x t; apply neighbor_row_run].
  destruct Hmap as [-> Hrows].
  injection Hset as <-.
  intros el ed Hel Hed.
  destruct (dg_pre_add_done spaces n blocks st (nvert e0')
              (set_neighbors s (Some arrays)
                             (Some (map (map (@length Element)) arrays))) s'
              (map (map (@length Element)) arrays) Hn eq_refl Hpre el ed Hel Hed)
    as (row & Hrow & Hzero).
  destruct (Hrows el el) as (nbs & Hnbs & Hg).
  { rewrite nth_error_seq.
    destruct (Nat.ltb_spec el n) as [_|Hge]; [reflexivity | lia]. }
  rewrite nth_error_map, Hnbs in Hrow. simpl in Hrow. injection Hrow as <-.
  unfold neighbor_row in Hg.
  destruct (state_elem st el) as [[central|]|]; try discriminate Hg.
  destruct (nth_error spaces el) as [sp|]; [|discriminate Hg].
  injection Hg as <-.
  exists central, sp. split; [reflexivity|]. split; [reflexivity|].
  rewrite !nth_error_map in Hzero.
  rewrite nth_error_seq in Hzero.
  destruct (Nat.ltb_spec ed (nvert e0')) as [_|Hge]; [|lia].
  simpl in Hzero. injection Hzero as Hlen.
  apply length_zero_iff_nil, Hlen.
Qed.

(** The same for a whole call: with a DG weak form, a rebuild that returns
    has met no neighbour across any edge, in any space, on any state; it
    has therefore registered nothing on the DG path. *)
Lemma dg_rebuild_returns_only_without_neighbors (a : Assembler) (w : WeakForm)
      (m : SparseMatrix) (rhs : option Vector)
      (spaces : list Space) (states : list Traverse.State) :
  matrix_structure_reusable a = false ->
  wf a = Some w ->
  is_DG w = true ->
  (0 < spaces_size a)%nat ->
  returned (prepare_sparse_structure a (Some m) rhs spaces states) ->
  forall st, In st states ->
    exists e0,
      state_elem st 0 = Some (Some e0) /\
      forall el ed, (el < spaces_size a)%nat -> (ed < nvert e0)%nat ->
        exists central sp,
          state_elem st el = Some (Some central) /\
          nth_error spaces el = Some sp /\
          get_neighbors (get_mesh sp) central ed = [].
Proof.
  intros Hflag Hwf Hdg Hn Hret st Hst.
  unfold returned, prepare_sparse_structure, reuse_matrix in Hret.
  rewrite Hflag, Hwf, Hdg in Hret.
  destruct (loop_states _ _ _ _ _ _) as [s [[]|f]] eqn:Hloop; [|discriminate Hret].
  unfold loop_states in Hloop.
  destruct (for_each_done_each _ _ _ _ Hloop st Hst) as (s1 & s2 & Hproc).
  unfold process_state in Hproc.
  apply bind_done in Hproc. destruct Hproc as (s3 & [] & _ & Hproc).
  apply bind_done in Hproc. destruct Hproc as (s4 & [] & Hpart & _).
  simpl when in Hpart.
  apply (dg_part_done spaces (spaces_size a) _ st s3 s4 Hn Hpart).
Qed.

(** ** The loop fuel is never exhausted *)

Lemma starves_ret {A : Type} (x : A) : never_starves (ret x).
Proof. intros s. discriminate. Qed.

Lemma starves_raise {A : Type} (f : fault) :
  f <> NoFuel -> never_starves (@raise A f).
Proof. intros Hf s. simpl. congruence. Qed.

Lemma starves_gets {A : Type} (f : Machine -> A) : never_starves (gets f).
Proof. intros s. discriminate. Qed.

Lemma starves_modify (f : Machine -> Machine) : never_starves (modify f).
Proof. intros s. discriminate. Qed.

Lemma starves_read {A : Type} (f : fault) (o : option A) :
  f <> NoFuel -> never_starves (read f o).
Proof. intros Hf. destruct o; [apply starves_ret | apply starves_raise, Hf]. Qed.

Lemma starves_bind {A B : Type} (c : M A) (k : A -> M B) :
  never_starves c -> (forall x, never_starves (k x)) -> never_starves (bind c k).
Proof.
  intros Hc Hk s. unfold bind. specialize (Hc s).
  destruct (c s) as [s' [x|f]]; simpl in *; [apply Hk|].
  intros H. injection H as ->. apply Hc. reflexivity.
Qed.

Lemma starves_when (b : bool) (c : M unit) :
  never_starves c -> never_starves (when b c).
Proof. destruct b; intros H; [exact H | apply starves_ret]. Qed.

Lemma starves_for_each {A : Type} (l : list A) (body : A -> M unit) :
  (forall x, never_starves (body x)) -> never_starves (for_each l body).
Proof.
  intros Hb. induction l as [|x l IH]; simpl.
  - apply starves_ret.
  - apply starves_bind; [apply Hb | intros _; exact IH].
Qed.

Lemma starves_for_range (n : nat) (body : nat -> M unit) :
  (forall k, never_starves (body k)) -> never_starves (for_range n body).
Proof. intros Hb. apply starves_for_each, Hb. Qed.

Lemma starves_map_m {A B : Type} (f : A -> M B) (l : list A) :
  (forall x, never_starves (f x)) -> never_starves (map_m f l).
Proof.
  intros Hf. induction l as [|x l IH]; simpl.
  - apply starves_ret.
  - apply starves_bind; [apply Hf | intros y].
    apply starves_bind; [exact IH | intros ys]. apply starves_ret.
Qed.

(** A loop whose body, when it returns, has released what the bound is
    read from: the second test of the bound is a fault of its own. *)
Lemma starves_for_upto (bound : M nat) (body : nat -> M unit) :
  (forall s, fst (bound s) = s) ->
  never_starves bound ->
  (forall k, never_starves (body k)) ->
  (forall k s s', body k s = (s', Done tt) ->
                  exists f, bound s' = (s', Fault f) /\ f <> NoFuel) ->
  never_starves (for_upto bound body).
Proof.
  intros Hpure Hbound Hbody Hrel s. unfold for_upto. unfold bind at 1.
  pose proof (Hbound s) as Hb0. pose proof (Hpure s) as Hs.
  destruct (bound s) as [s0 [b|f]] eqn:E0; simpl in Hb0, Hs; subst s0.
  2:{ simpl. intros H. injection H as ->. apply Hb0. reflexivity. }
  simpl for_from. unfold bind at 1. rewrite E0.
  destruct b as [|b']; [simpl; discriminate|].
  change ((0 <? S b')%nat) with true. cbv iota. unfold bind at 1.
  pose proof (Hbody 0%nat s) as Hbd.
  destruct (body 0%nat s) as [s2 [[]|f]] eqn:E2; simpl in Hbd; [|exact Hbd].
  destruct (Hrel 0%nat s s2 E2) as (f & Ef & Hf).
  simpl for_from. unfold bind at 1. rewrite Ef. simpl. congruence.
Qed.

Ltac starve :=
  repeat first
    [ apply starves_for_range; intros
    | apply starves_for_each; intros
    | apply starves_map_m; intros
    | apply starves_when
    | apply starves_modify
    | apply starves_ret
    | apply starves_raise; discriminate
    | apply starves_gets
    | apply starves_read; discriminate
    | apply starves_bind; [|intros]
    | match goal with
      | |- never_starves (match ?x with _ => _ end) => destruct x
      end ].

Lemma an_cnt_pure (s : Machine) : fst (an_cnt s) = s.
Proof. unfold an_cnt, bind, gets, read. destruct (m_an s); reflexivity. Qed.

Lemma count_at_pure (el ed : nat) (s : Machine) : fst (count_at el ed s) = s.
Proof.
  unfold count_at, bind, gets, read.
  destruct (neighbor_elems_counts s) as [rows|]; simpl; [|reflexivity].
  destruct (nth_error rows el) as [row|]; simpl; [|reflexivity].
  destruct (nth_error row ed); reflexivity.
Qed.

Lemma delete_an_done (s s' : Machine) :
  delete_an s = (s', Done tt) -> an_cnt s' = (s', Fault Released).
Proof.
  unfold delete_an, an_cnt, bind, gets, read. simpl.
  destruct (m_an s); simpl; [|discriminate].
  intros H. injection H as <-. reflexivity.
Qed.

(** The loop over the dofs of the neighbour's list. *)
Lemma starves_an_loop (pre : nat -> Z -> M unit) :
  (forall j d, never_starves (pre j d)) ->
  never_starves
    (for_upto an_cnt (fun j => an_dof_j <- an_dof j ;; pre j an_dof_j ;; delete_an)).
Proof.
  intros Hpre. apply starves_for_upto.
  - apply an_cnt_pure.
  - unfold an_cnt. starve.
  - intros j. unfold an_dof, delete_an.
    apply starves_bind; [starve | intros d].
    apply starves_bind; [apply Hpre | intros _]. starve.
  - intros j s s' H.
    apply bind_done in H. destruct H as (s1 & d & _ & H).
    apply bind_done in H. destruct H as (s2 & u & _ & H).
    exists Released. split; [exact (delete_an_done _ _ H) | discriminate].
Qed.

Lemma starves_dg_neighbor_body (spaces : list Space) (blocks : nat -> nat -> bool)
      (st : Traverse.State) (m el ed neigh : nat) :
  never_starves (dg_neighbor_body spaces blocks st m el ed neigh).
Proof.
  unfold dg_neighbor_body.
  apply starves_bind.
  { unfold elem_at. destruct (blocks m el || blocks el m); starve. }
  intros em. apply starves_bind; [|intros _; unfold delete_neighbor_arrays; starve].
  apply starves_when.
  unfold al_at, space_at, neighbor_at.
  apply starves_bind; [starve | intros am].
  apply starves_bind; [starve | intros _].
  apply starves_bind; [starve | intros sp].
  apply starves_bind; [starve | intros nb].
  apply starves_bind; [starve | intros _].
  apply starves_for_each. intros di. apply starves_when.
  apply (starves_an_loop
           (fun _ dj => when (is_dof dj)
                             (when (blocks m el) (pre_add_ij di dj) ;;
                              when (blocks el m) (pre_add_ij dj di)))).
  intros j d. unfold pre_add_ij. starve.
Qed.

Lemma starves_loop_states (spaces : list Space) (n : nat)
      (blocks : nat -> nat -> bool) (dg : bool) (states : list Traverse.State) :
  never_starves (loop_states spaces n blocks dg states).
Proof.
  unfold loop_states. apply starves_for_each. intros st.
  unfold process_state.
  apply starves_bind.
  { unfold obtain_assembly_lists, elem_at, space_at. starve. }
  intros _. apply starves_bind.
  - apply starves_when. unfold dg_part, elem_at.
    apply starves_bind; [starve | intros e0].
    apply starves_bind; [starve | intros rep0].
    apply starves_bind.
    { unfold get_the_neighbors, elem_at, space_at. starve. }
    intros _. unfold dg_pre_add.
    apply starves_for_range. intros m.
    apply starves_for_range. intros el.
    apply starves_for_range. intros ed.
    apply starves_for_upto.
    + apply count_at_pure.
    + unfold count_at. starve.
    + intros neigh. apply starves_dg_neighbor_body.
    + intros neigh s s' H. exists Released.
      split; [|discriminate].
      apply count_at_released. exact (dg_neighbor_body_done _ _ _ _ _ _ _ _ _ H).
  - intros _. unfold local_blocks, local_block, al_at, elem_at, pre_add_ij. starve.
Qed.

(** No call of [prepare_sparse_structure] stops for lack of fuel: a run
    either returns or stops at undefined behaviour of the code. *)
Lemma prepare_never_starves (a : Assembler) (mat : option SparseMatrix)
      (rhs : option Vector) (spaces : list Space) (states : list Traverse.State) :
  res_outcome (prepare_sparse_structure a mat rhs spaces states) <> Fault NoFuel.
Proof.
  unfold prepare_sparse_structure.
  assert (Hv : forall a' m' r' n,
             res_outcome (prepare_vector a' m' r' n) <> Fault NoFuel).
  { intros a' m' r' n. unfold prepare_vector.
    destruct (vector_structure_reusable a'); destruct r'; discriminate. }
  destruct (matrix_structure_reusable a); [apply Hv|].
  destruct (reuse_matrix a mat) as [m|]; [|apply Hv].
  destruct (wf a) as [w|]; [|discriminate].
  pose proof (starves_loop_states spaces (spaces_size a)
                (get_blocks w (force_diagonal_blocks a)) (is_DG w) states
                (start_machine (mat_prealloc (mat_free m) (get_num_dofs spaces))
                               (spaces_size a))) as Hs.
  destruct (loop_states _ _ _ _ _ _) as [s [[]|f]]; [apply Hv|].
  simpl in *. exact Hs.
Qed.

(** A DG pass over an element without neighbours returns; the registrations
    are those of the local block. *)
Example dg_without_neighbors_returns :
  let r := prepare_sparse_structure (Sample.bound_assembler 1 true)
             (Some Sample.empty_mat) (Some Sample.empty_vec)
             [Sample.space0 Sample.no_neighbors 0]
             [Sample.state_of [Some (Sample.tri 7)]] in
  returned r /\
  option_map (fun m => length (pre_adds (mat_calls m))) (res_mat r) = Some 9%nat.
Proof. vm_compute. split; reflexivity. Qed.

(** ** [set_weak_formulation] and a life cycle *)

(** Binding a weak form always invalidates both structures. *)
Lemma set_weak_formulation_invalidates (a : Assembler) (wf_ : WeakForm)
      (a' : Assembler) :
  set_weak_formulation a wf_ = Some a' ->
  matrix_structure_reusable a' = false /\
  vector_structure_reusable a' = false /\
  wf a' = Some wf_.
Proof.
  unfold set_weak_formulation. intros H.
  destruct (Nat.eqb _ 0).
  - injection H as <-. repeat split.
  - destruct (resize_forms _ _ _ _) as [[mv_size mv_rows]|]; [|discriminate].
    destruct (resize_forms _ _ _ _) as [[vv_size vv_rows]|]; [|discriminate].
    destruct (resize_forms _ _ _ _) as [[ms_size ms_rows]|]; [|discriminate].
    destruct (resize_forms _ _ _ _) as [[vs_size vs_rows]|]; [|discriminate].
    injection H as <-. repeat split.
Qed.

(** Construction, first binding of the spaces, binding of the weak form,
    first build, second build (re-zeroing only), and a second binding of
    the same spaces, which clears the flags again. *)
Example life_cycle :
  let spaces := Sample.two_spaces Sample.no_neighbors in
  let states := [Sample.state_of [Some (Sample.tri 1); Some (Sample.tri 1)]] in
  exists a1 a2 a3,
    set_spaces (DiscreteProblemSelectiveAssembler false) spaces = Some a1 /\
    set_weak_formulation a1 (Sample.weak_form false) = Some a2 /\
    let r1 := prepare_sparse_structure a2 (Some Sample.empty_mat)
                (Some Sample.empty_vec) spaces states in
    let r2 := prepare_sparse_structure (res_asm r1) (res_mat r1) (res_rhs r1)
                spaces states in
    returned r1 /\ returned r2 /\
    option_map mat_calls (res_mat r2) =
      option_map (fun m => mat_calls m ++ [MatZero]) (res_mat r1) /\
    option_map vec_calls (res_rhs r2) = Some [VecAlloc 50; VecZero] /\
    set_spaces (res_asm r2) spaces = Some a3 /\
    matrix_structure_reusable (res_asm r2) = true /\
    matrix_structure_reusable a3 = false.
Proof.
  intros spaces states.
  eexists. eexists. eexists.
  split; [vm_compute; reflexivity|].
  split; [vm_compute; reflexivity|].
  vm_compute. repeat split.
Qed.

(** * Further properties *)

(** ** Eligibility, exactly *)

Lemma marker_listed_In (areas : list Z) (mk : Z) :
  marker_listed areas mk = true <-> In mk areas.
Proof.
  induction areas as [|a rest IH]; simpl.
  - split; [discriminate | intros []].
  - destruct (a =? mk) eqn:E.
    + apply Z.eqb_eq in E. split; [intros _; left; exact E | reflexivity].
    + apply Z.eqb_neq in E. rewrite IH. split; [intros H; right; exact H|].
      intros [H|H]; [contradiction | exact H].
Qed.

Lemma matrix_base_exact bw (f : MatrixForm.t) st :
  form_to_be_assembled_MatrixForm bw f st = Some true <->
  (forall k, In k [MatrixForm.i f; MatrixForm.j f] ->
             exists el, state_elem st k = Some (Some el)) /\
  below_threshold (scaling_factor (MatrixForm.base f)) = false /\
  (forall w, match bw with
             | Some get_A => Some (get_A (MatrixForm.i f) (MatrixForm.j f))
             | None => None
             end = Some w -> below_threshold w = false).
Proof.
  split.
  - unfold form_to_be_assembled_MatrixForm. intros H.
    destruct (state_elem st (MatrixForm.i f)) as [[ei|]|] eqn:Hi;
      simpl in H; try discriminate H.
    destruct (state_elem st (MatrixForm.j f)) as [[ej|]|] eqn:Hj;
      simpl in H; try discriminate H.
    destruct (below_threshold (scaling_factor (MatrixForm.base f))) eqn:Hs;
      [discriminate H|].
    split; [|split; [reflexivity|]].
    + intros k [<-|[<-|[]]]; eexists; eassumption.
    + intros w Hw. destruct bw as [get_A|]; [|discriminate Hw].
      injection Hw as <-.
      destruct (below_threshold (get_A (MatrixForm.i f) (MatrixForm.j f)));
        [discriminate H | reflexivity].
  - intros (Hp & Hs & Hw).
    destruct (Hp (MatrixForm.i f)) as [ei Hi]; [simpl; auto|].
    destruct (Hp (MatrixForm.j f)) as [ej Hj]; [simpl; auto|].
    rewrite (matrix_form_present bw f st ei ej Hi Hj), Hs.
    destruct bw as [get_A|]; [|reflexivity].
    rewrite (Hw _ eq_refl). reflexivity.
Qed.

Lemma vector_base_exact (f : VectorForm.t) st :
  form_to_be_assembled_VectorForm f st = Some true <->
  (forall k, In k [VectorForm.i f] -> exists el, state_elem st k = Some (Some el)) /\
  below_threshold (scaling_factor (VectorForm.base f)) = false.
Proof.
  unfold form_to_be_assembled_VectorForm. split.
  - intros H.
    destruct (state_elem st (VectorForm.i f)) as [[ei|]|] eqn:Hi;
      simpl in H; try discriminate H.
    destruct (below_threshold (scaling_factor (VectorForm.base f))) eqn:Hs;
      [discriminate H|].
    split; [|reflexivity]. intros k [<-|[]]. eexists; eassumption.
  - intros (Hp & Hs).
    destruct (Hp (VectorForm.i f)) as [ei Hi]; [simpl; auto|].
    rewrite Hi, Hs. reflexivity.
Qed.

Lemma specialised_exact (o k : option bool) :
  match o with None => None | Some false => Some false | Some true => k end = Some true
  <-> o = Some true /\ k = Some true.
Proof.
  destruct o as [[|]|]; split; try (intros [H _]; discriminate H);
    try discriminate; [intros H; split; [reflexivity | exact H] | intros [_ H]; exact H].
Qed.

Lemma volume_rule (b : Form) (st : Traverse.State) :
  (if assembleEverywhere b then Some true
   else match rep_marker st with
        | None => None
        | Some this_marker => Some (marker_listed (areas_internal b) this_marker)
        end) = Some true <->
  assembleEverywhere b = true \/
  exists mk, rep_marker st = Some mk /\ In mk (areas_internal b).
Proof.
  destruct (assembleEverywhere b).
  - split; [intros _; left; reflexivity | reflexivity].
  - split.
    + destruct (rep_marker st) as [mk|]; [|discriminate].
      intros H. injection H as H. right. exists mk.
      split; [reflexivity | apply marker_listed_In, H].
    + intros [H | (mk & -> & Hin)]; [discriminate H|].
      f_equal. apply marker_listed_In, Hin.
Qed.

Lemma surface_rule (b : Form) (st : Traverse.State) :
  match active_edge_marker st with
  | None => None
  | Some this_marker =>
      if this_marker =? 0 then Some false
      else if assembleEverywhere b then Some true
      else Some (marker_listed (areas_internal b) this_marker)
  end = Some true <->
  exists mk, active_edge_marker st = Some mk /\ mk <> 0 /\
             (assembleEverywhere b = true \/ In mk (areas_internal b)).
Proof.
  split.
  - destruct (active_edge_marker st) as [mk|]; [|discriminate].
    destruct (mk =? 0) eqn:E; [discriminate|]. apply Z.eqb_neq in E.
    intros H. exists mk. split; [reflexivity|]. split; [exact E|].
    destruct (assembleEverywhere b); [left; reflexivity|].
    injection H as H. right. apply marker_listed_In, H.
  - intros (mk & -> & Hne & Hok). apply Z.eqb_neq in Hne. rewrite Hne.
    destruct (assembleEverywhere b); [reflexivity|].
    destruct Hok as [H|H]; [discriminate H|].
    f_equal. apply marker_listed_In, H.
Qed.

(** When a form is eligible.  Whatever its kind, [form_to_be_assembled]
    answers true exactly when every field of the form has an element on
    the state, neither the scaling factor nor (matrix forms under a table)
    the block weight is below the threshold, and the area restriction
    admits the state: no condition for the base and DG kinds, the marker
    of the representative element for a volume form, a non-zero marker of
    the active edge for a surface form. *)
Theorem eligibility_exact (bw : option Table) (form : AnyForm) (st : Traverse.State) :
  form_to_be_assembled bw form st = Some true <->
  elements_present form st /\ weighty bw form /\ area_admits form st.
Proof.
  assert (Hv : forall P Q : Prop, (P /\ Q) <-> (P /\ (Q /\ (forall w : float,
               @None float = Some w -> below_threshold w = false)))).
  { intros P Q. split; [intros [H1 H2] | intros (H1 & H2 & _)];
      repeat split; try assumption. intros w H. discriminate H. }
  unfold elements_present, weighty, form_block_weight.
  destruct form as [f|f|f|f|f|f|f|f]; simpl;
    unfold form_to_be_assembled_MatrixFormVol, form_to_be_assembled_MatrixFormSurf,
           form_to_be_assembled_MatrixFormDG, form_to_be_assembled_VectorFormVol,
           form_to_be_assembled_VectorFormSurf, form_to_be_assembled_VectorFormDG;
    rewrite ?specialised_exact, ?volume_rule, ?surface_rule,
            ?matrix_base_exact, ?vector_base_exact.
  - destruct bw; tauto.
  - destruct bw; tauto.
  - destruct bw; tauto.
  - destruct bw; tauto.
  - destruct bw; rewrite (Hv _ _); tauto.
  - destruct bw; rewrite (Hv _ _); tauto.
  - destruct bw; rewrite (Hv _ _); tauto.
  - destruct bw; rewrite (Hv _ _); tauto.
Qed.

(** ** The threshold test and the sign, and not-a-number *)

Lemma abs_opp (x : float) : PrimFloat.abs (PrimFloat.opp x) = PrimFloat.abs x.
Proof.
  apply FloatAxioms.Prim2SF_inj.
  rewrite !FloatAxioms.abs_spec, FloatAxioms.opp_spec.
  destruct (FloatOps.Prim2SF x); reflexivity.
Qed.

Lemma below_threshold_opp (x : float) :
  below_threshold (PrimFloat.opp x) = below_threshold x.
Proof. unfold below_threshold. rewrite abs_opp. reflexivity. Qed.

Lemma below_threshold_nan (x : float) :
  PrimFloat.is_nan x = true -> below_threshold x = false.
Proof.
  intros H. unfold below_threshold.
  rewrite FloatAxioms.ltb_spec, FloatAxioms.abs_spec.
  assert (E : FloatOps.Prim2SF x = SpecFloat.S754_nan).
  { unfold FloatOps.Prim2SF. rewrite H. reflexivity. }
  rewrite E. reflexivity.
Qed.

(** The predicates read the scaling factor only through the threshold
    test. *)
Lemma eligibility_by_threshold (bw : option Table) (form : AnyForm)
      (x y : float) (st : Traverse.State) :
  below_threshold x = below_threshold y ->
  form_to_be_assembled bw (rescale form x) st =
  form_to_be_assembled bw (rescale form y) st.
Proof.
  intros H.
  destruct form as [f|f|f|f|f|f|f|f]; simpl;
    unfold form_to_be_assembled_MatrixFormVol, form_to_be_assembled_MatrixFormSurf,
           form_to_be_assembled_MatrixFormDG, form_to_be_assembled_VectorFormVol,
           form_to_be_assembled_VectorFormSurf, form_to_be_assembled_VectorFormDG,
           form_to_be_assembled_MatrixForm, form_to_be_assembled_VectorForm;
    simpl; rewrite H; reflexivity.
Qed.

(** The sign of the scaling factor is immaterial: a form scaled by [-x]
    is eligible on exactly the states on which it is when scaled by [x]. *)
Theorem eligibility_ignores_sign (bw : option Table) (form : AnyForm)
        (x : float) (st : Traverse.State) :
  form_to_be_assembled bw (rescale form (PrimFloat.opp x)) st =
  form_to_be_assembled bw (rescale form x) st.
Proof. apply eligibility_by_threshold, below_threshold_opp. Qed.

(** A scaling factor that is not a number is not below the threshold
    ([fabs(NaN) < 1e-12] is false): the form is not filtered out but
    treated like one scaled by 1. *)
Theorem nan_scaling_is_not_filtered (bw : option Table) (form : AnyForm)
        (x : float) (st : Traverse.State) :
  PrimFloat.is_nan x = true ->
  form_to_be_assembled bw (rescale form x) st =
  form_to_be_assembled bw (rescale form 1%float) st.
Proof.
  intros H. apply eligibility_by_threshold.
  rewrite (below_threshold_nan x H). reflexivity.
Qed.

(** A vector form scaled by 0/0 on a patch where its field is present. *)
Lemma nan_scaling_is_not_filtered_witness :
  form_to_be_assembled None
    (rescale (OfVectorForm
                {| VectorForm.base := {| scaling_factor := 0%float;
                                         assembleEverywhere := true;
                                         areas_internal := [] |};
                   VectorForm.i := 0 |})
             (PrimFloat.div 0%float 0%float))
    (Sample.state_of [Some (Sample.tri 1)]) = Some true.
Proof.
  rewrite nan_scaling_is_not_filtered; reflexivity.
Defined.

(** ** Binding the spaces: when it is defined, what it reads *)

Lemma array_set_id {A : Type} (l : list A) : forall k v,
  nth_error l k = Some v -> array_set l k v = Some l.
Proof.
  induction l as [|x l IH]; intros k v H; destruct k as [|k]; simpl in *;
    try discriminate H.
  - injection H as ->. reflexivity.
  - rewrite (IH k v H). reflexivity.
Qed.

Lemma compare_seqs_prefix (spacesToSet extra : list Space) (n : nat) :
  forall k seqs fl,
    (k + n <= length spacesToSet)%nat ->
    compare_seqs (spacesToSet ++ extra) (seq k n) seqs fl =
    compare_seqs spacesToSet (seq k n) seqs fl.
Proof.
  induction n as [|n IH]; intros k seqs fl Hk; simpl; [reflexivity|].
  rewrite nth_error_app1 by lia.
  destruct (nth_error spacesToSet k) as [sp|]; [|reflexivity].
  destruct (nth_error seqs k) as [old|]; [|reflexivity].
  destruct (array_set seqs k (get_seq sp)) as [seqs1|]; [|reflexivity].
  apply IH. lia.
Qed.

Lemma compare_seqs_fix (spacesToSet : list Space) (n : nat) :
  forall k seqs fl,
    (forall p, (k <= p < k + n)%nat ->
               exists sp, nth_error spacesToSet p = Some sp /\
                          nth_error seqs p = Some (get_seq sp)) ->
    compare_seqs spacesToSet (seq k n) seqs fl = Some (seqs, fl).
Proof.
  induction n as [|n IH]; intros k seqs fl H; simpl; [reflexivity|].
  destruct (H k) as (sp & Hsp & Hold); [lia|].
  rewrite Hsp, Hold, Z.eqb_refl. simpl.
  rewrite (array_set_id seqs k (get_seq sp) Hold).
  apply IH. intros p Hp. apply H. lia.
Qed.

Lemma compare_seqs_in_range (spacesToSet : list Space) (n k : nat)
      (seqs : list Z) (fl : bool * bool) (r : list Z * (bool * bool)) :
  compare_seqs spacesToSet (seq k n) seqs fl = Some r ->
  (0 < n)%nat ->
  (k + n <= length spacesToSet)%nat /\ (k + n <= length seqs)%nat.
Proof.
  destruct r as [seqs' fl']. intros H Hn.
  apply compare_seqs_spec in H. destruct H as (Hlen & Hnew & _).
  destruct (Hnew (k + n - 1)%nat) as (sp & Hsp & Hs); [lia|].
  assert (H1 : (k + n - 1 < length spacesToSet)%nat)
    by (apply nth_error_Some; congruence).
  assert (H2 : (k + n - 1 < length seqs')%nat)
    by (apply nth_error_Some; congruence).
  lia.
Qed.

Lemma resize_cache_inv (c : MarkerCache) (new_size : Z) (c' : MarkerCache) :
  resize_cache c new_size = Some c' ->
  markers_size c' = new_size /\
  mf_forms_size c' = mf_forms_size c /\ vf_forms_size c' = vf_forms_size c.
Proof.
  unfold resize_cache. intros H.
  destruct (if mf_forms_size c >? 0 then _ else _) as [mrows|]; [|discriminate H].
  destruct (if vf_forms_size c >? 0 then _ else _) as [vrows|]; [|discriminate H].
  injection H as <-. repeat split.
Qed.

Lemma check_markers_inv (c : MarkerCache) (unused : Z) (c' : MarkerCache) :
  check_markers c unused = Some c' ->
  markers_size c' = unused /\
  mf_forms_size c' = mf_forms_size c /\ vf_forms_size c' = vf_forms_size c.
Proof.
  unfold check_markers. destruct (unused =? markers_size c) eqn:E; simpl.
  - intros H. injection H as <-. apply Z.eqb_eq in E. repeat split. congruence.
  - apply resize_cache_inv.
Qed.

Lemma check_markers_again (c : MarkerCache) (unused : Z) (c' : MarkerCache) :
  check_markers c unused = Some c' -> check_markers c' unused = Some c'.
Proof.
  intros H. destruct (check_markers_inv c unused c' H) as (Hs & _).
  unfold check_markers. rewrite Hs, Z.eqb_refl. reflexivity.
Qed.

(** [set_spaces] is defined exactly on a non-empty vector of spaces that,
    on a later binding, holds at least as many spaces as the first one
    did: it reads [spacesToSet[0]] in any case and, later,
    [spacesToSet[i]] for every [i] below the recorded [spaces_size]. *)
Theorem set_spaces_defined_iff (a : Assembler) (spacesToSet : list Space) :
  assembler_ok a ->
  ((exists a', set_spaces a spacesToSet = Some a') <->
   spacesToSet <> [] /\
   (sp_seq a <> None -> (spaces_size a <= length spacesToSet)%nat)).
Proof.
  intros (_ & _ & Hseq). split.
  - intros [a' H]. apply set_spaces_inv in H.
    destruct H as (a1 & sp0 & s & v & Ht & Hsp0 & _).
    split; [intros ->; discriminate Hsp0|].
    intros Hsome. destruct (sp_seq a) as [seqs|] eqn:E; [|congruence].
    destruct (track_later_binding a spacesToSet seqs a1 E Ht)
      as (_ & _ & _ & _ & _ & seqs' & _ & Hcmp).
    destruct (spaces_size a) as [|n] eqn:En; [lia|].
    apply compare_seqs_in_range in Hcmp; [|lia]. lia.
  - intros [Hne Hlen]. apply set_spaces_defined; [exact Hne|].
    intros seqs E. rewrite E in Hseq. split; [|lia].
    apply Hlen. congruence.
Qed.

(** A second binding of two spaces to an assembler first bound to two. *)
Lemma set_spaces_defined_iff_witness :
  exists a', set_spaces (Sample.bound_assembler 2 false)
                        (Sample.two_spaces Sample.no_neighbors) = Some a'.
Proof.
  apply set_spaces_defined_iff.
  - unfold assembler_ok, cache_ok. simpl. repeat split; lia.
  - split; [discriminate|]. intros _. simpl. lia.
Defined.

(** A later binding reads only the first [spaces_size] spaces: whatever
    is appended to them is ignored, so that a change in an appended space
    is not seen. *)
Theorem later_binding_ignores_further_spaces (a : Assembler)
        (spacesToSet extra : list Space) :
  sp_seq a <> None ->
  (0 < spaces_size a <= length spacesToSet)%nat ->
  set_spaces a (spacesToSet ++ extra) = set_spaces a spacesToSet.
Proof.
  intros Hseq Hlen. unfold set_spaces, track_sequence_numbers.
  destruct (sp_seq a) as [seqs|]; [|congruence].
  rewrite compare_seqs_prefix by (simpl; lia).
  rewrite nth_error_app1 by lia. reflexivity.
Qed.

(** A third space, refined or not, appended to the two first bound. *)
Lemma later_binding_ignores_further_spaces_witness :
  set_spaces (with_reusable (Sample.bound_assembler 2 false) true true)
             (Sample.two_spaces Sample.no_neighbors ++
              [Sample.space0 Sample.no_neighbors 5]) =
  set_spaces (with_reusable (Sample.bound_assembler 2 false) true true)
             (Sample.two_spaces Sample.no_neighbors).
Proof.
  apply later_binding_ignores_further_spaces;
    [discriminate | simpl; lia].
Defined.

(** From the second binding on, binding the same spaces again changes
    nothing: the sequence numbers are the recorded ones, the flags and
    the cache arrays stay as they are. *)
Theorem rebinding_same_spaces_is_identity (a : Assembler)
        (spacesToSet : list Space) (a' : Assembler) :
  sp_seq a <> None ->
  set_spaces a spacesToSet = Some a' ->
  set_spaces a' spacesToSet = Some a'.
Proof.
  intros Hsome H.
  destruct (sp_seq a) as [seqs|] eqn:Hseq; [|congruence].
  apply set_spaces_inv in H.
  destruct H as (a1 & sp0 & s & v & Ht & Hsp0 & Hs & Hv & ->).
  destruct (track_later_binding a spacesToSet seqs a1 Hseq Ht)
    as (Hsize & _ & _ & _ & _ & seqs' & Hseq' & Hcmp).
  apply compare_seqs_spec in Hcmp. destruct Hcmp as (_ & Hnew & _).
  assert (Htrack : track_sequence_numbers (with_caches a1 s v) spacesToSet =
                   Some (with_caches a1 s v)).
  { unfold track_sequence_numbers.
    change (sp_seq (with_caches a1 s v)) with (sp_seq a1).
    change (spaces_size (with_caches a1 s v)) with (spaces_size a1).
    rewrite Hseq', Hsize.
    rewrite compare_seqs_fix by (intros p Hp; apply Hnew; lia).
    f_equal. destruct a1; simpl in *. subst. reflexivity. }
  unfold set_spaces. rewrite Htrack, Hsp0.
  change (surface (with_caches a1 s v)) with s.
  change (volume (with_caches a1 s v)) with v.
  rewrite (check_markers_again _ _ _ Hs), (check_markers_again _ _ _ Hv).
  reflexivity.
Qed.

(** The sample spaces bound a second and a third time. *)
Lemma rebinding_same_spaces_is_identity_witness :
  exists a',
    set_spaces (with_reusable (Sample.bound_assembler 2 false) true true)
               [Sample.space0 Sample.no_neighbors 0;
                Sample.space1 Sample.no_neighbors 1] = Some a' /\
    set_spaces a' [Sample.space0 Sample.no_neighbors 0;
                   Sample.space1 Sample.no_neighbors 1] = Some a'.
Proof.
  destruct (set_spaces (with_reusable (Sample.bound_assembler 2 false) true true)
              [Sample.space0 Sample.no_neighbors 0;
               Sample.space1 Sample.no_neighbors 1]) as [a'|] eqn:E;
    [|discriminate E].
  exists a'. split; [reflexivity|].
  apply (rebinding_same_spaces_is_identity
           (with_reusable (Sample.bound_assembler 2 false) true true));
    [discriminate | exact E].
Defined.

(** After [set_spaces] both recorded marker counts, the surface one and
    the volume one, are the boundary-marker count of the mesh of the
    first space: the meshes of the other spaces are not consulted, and
    the volume arrays are sized by boundary markers too. *)
Theorem marker_counts_from_first_space (a : Assembler) (spacesToSet : list Space)
        (a' : Assembler) (sp0 : Space) (others others' : list Space) :
  spacesToSet = sp0 :: others ->
  length others' = length others ->
  map get_seq others' = map get_seq others ->
  set_spaces a spacesToSet = Some a' ->
  surface_markers_size a' = min_marker_unused (get_mesh sp0) /\
  volume_markers_size a' = min_marker_unused (get_mesh sp0) /\
  set_spaces a (sp0 :: others') = Some a'.
Proof.
  intros -> Hlen Hseqs H.
  assert (Hcmp : forall n k seqs fl,
             compare_seqs (sp0 :: others') (seq k n) seqs fl =
             compare_seqs (sp0 :: others) (seq k n) seqs fl).
  { induction n as [|n IH]; intros k seqs fl; simpl; [reflexivity|].
    assert (Hk : option_map get_seq (nth_error (sp0 :: others') k) =
                 option_map get_seq (nth_error (sp0 :: others) k)).
    { rewrite <- !nth_error_map. simpl. rewrite Hseqs. reflexivity. }
    destruct (nth_error (sp0 :: others') k) as [sp'|];
      destruct (nth_error (sp0 :: others) k) as [sp|]; simpl in Hk;
      try discriminate Hk; [|reflexivity].
    injection Hk as ->.
    destruct (nth_error seqs k) as [old|]; [|reflexivity].
    destruct (array_set seqs k (get_seq sp)) as [seqs1|]; [|reflexivity].
    apply IH. }
  assert (Hsame : set_spaces a (sp0 :: others') = set_spaces a (sp0 :: others)).
  { unfold set_spaces, track_sequence_numbers.
    destruct (sp_seq a) as [seqs|].
    - rewrite Hcmp. reflexivity.
    - simpl length. rewrite Hlen. reflexivity. }
  rewrite Hsame. split; [|split; [|exact H]].
  - apply set_spaces_inv in H.
    destruct H as (a1 & sp & s & v & _ & Hsp & Hs & _ & ->).
    injection Hsp as <-. apply (check_markers_inv _ _ _ Hs).
  - apply set_spaces_inv in H.
    destruct H as (a1 & sp & s & v & _ & Hsp & _ & Hv & ->).
    injection Hsp as <-. apply (check_markers_inv _ _ _ Hv).
Qed.

(** The second sample space on a mesh with seven markers instead of
    three. *)
Lemma marker_counts_from_first_space_witness :
  exists a',
    set_spaces (DiscreteProblemSelectiveAssembler false)
               (Sample.two_spaces Sample.no_neighbors) = Some a' /\
    set_spaces (DiscreteProblemSelectiveAssembler false)
               [Sample.space0 Sample.no_neighbors 0;
                {| get_seq := 0; space_num_dofs := 20;
                   get_mesh := {| min_marker_unused := 7;
                                  get_neighbors := Sample.no_neighbors |};
                   get_element_assembly_list :=
                     get_element_assembly_list
                       (Sample.space1 Sample.no_neighbors 0) |}] = Some a' /\
    volume_markers_size a' = 3.
Proof.
  destruct (set_spaces (DiscreteProblemSelectiveAssembler false)
              (Sample.two_spaces Sample.no_neighbors)) as [a'|] eqn:E;
    [|discriminate E].
  exists a'. split; [reflexivity|].
  destruct (marker_counts_from_first_space (DiscreteProblemSelectiveAssembler false)
              (Sample.two_spaces Sample.no_neighbors) a'
              (Sample.space0 Sample.no_neighbors 0)
              [Sample.space1 Sample.no_neighbors 0]
              [{| get_seq := 0; space_num_dofs := 20;
                  get_mesh := {| min_marker_unused := 7;
                                 get_neighbors := Sample.no_neighbors |};
                  get_element_assembly_list :=
                    get_element_assembly_list
                      (Sample.space1 Sample.no_neighbors 0) |}]
              eq_refl eq_refl eq_refl E) as (_ & Hv & Hsame).
  split; [exact Hsame | exact Hv].
Defined.

(** ** The cache stays sized to the recorded counts *)

Lemma row_sized_fresh (forms_size : Z) :
  0 <= forms_size -> row_sized forms_size (fresh_row forms_size).
Proof.
  intros H. unfold fresh_row, row_sized.
  destruct (forms_size >? 0) eqn:E.
  - apply repeat_length.
  - destruct (Z.gtb_spec forms_size 0); [discriminate E | lia].
Qed.

Lemma cache_ok_fresh (c : MarkerCache) (n : Z) :
  0 <= n -> 0 <= mf_forms_size c -> 0 <= vf_forms_size c ->
  cache_ok (fresh_cache c n).
Proof.
  intros Hn Hm Hv. unfold cache_ok, fresh_cache. simpl.
  repeat split; try assumption; try apply repeat_length;
    apply Forall_forall; intros r Hr; apply repeat_spec in Hr; subst r;
    apply row_sized_fresh; assumption.
Qed.

Lemma check_markers_ok (c : MarkerCache) (unused : Z) (c' : MarkerCache) :
  cache_ok c -> 0 <= unused -> check_markers c unused = Some c' -> cache_ok c'.
Proof.
  intros Hok Hu H. unfold check_markers in H.
  destruct (unused =? markers_size c); simpl in H.
  - injection H as <-. exact Hok.
  - rewrite (resize_cache_fresh c unused Hu) in H. injection H as <-.
    destruct Hok as (_ & Hm & Hv & _). apply cache_ok_fresh; assumption.
Qed.

Lemma set_spaces_ok (a : Assembler) (spacesToSet : list Space) (a' : Assembler) :
  assembler_ok a -> markers_counted spacesToSet ->
  set_spaces a spacesToSet = Some a' -> assembler_ok a'.
Proof.
  intros (Hs & Hv & Hseq) Hcount H.
  apply set_spaces_inv in H.
  destruct H as (a1 & sp0 & s & v & Ht & Hsp0 & Hcs & Hcv & ->).
  destruct (track_keeps_caches a spacesToSet a1 Ht) as [Es Ev].
  rewrite Es in Hcs. rewrite Ev in Hcv.
  specialize (Hcount sp0 Hsp0).
  unfold assembler_ok. simpl.
  split; [exact (check_markers_ok (surface a) _ s Hs Hcount Hcs)|].
  split; [exact (check_markers_ok (volume a) _ v Hv Hcount Hcv)|].
  destruct (sp_seq a) as [seqs|] eqn:E.
  - destruct (track_later_binding a spacesToSet seqs a1 E Ht)
      as (Hsize & _ & _ & _ & _ & seqs' & -> & Hcmp).
    apply compare_seqs_spec in Hcmp. destruct Hcmp as (Hlen & _). congruence.
  - rewrite (track_first_binding a spacesToSet E) in Ht. injection Ht as <-.
    simpl. apply repeat_length.
Qed.

Lemma realloc_rows_all (forms_size : Z) (rest : list (option (list bool))) :
  forall done : list (option (list bool)),
    realloc_rows (Some (done ++ rest)) (seq (length done) (length rest)) forms_size =
    Some (Some (done ++ repeat (calloc forms_size false) (length rest))).
Proof.
  induction rest as [|r rest IH]; intros done; simpl; [reflexivity|].
  rewrite array_set_middle.
  change (done ++ calloc forms_size false :: rest)
    with (done ++ [calloc forms_size false] ++ rest).
  rewrite app_assoc.
  replace (S (length done)) with (length (done ++ [calloc forms_size false]))
    by (rewrite length_app; simpl; lia).
  rewrite IH. rewrite <- app_assoc. reflexivity.
Qed.

Lemma resize_forms_exact (rows : option (list (option (list bool))))
      (recorded : Z) (count : nat) (n_markers : Z) :
  rows_sized rows n_markers recorded ->
  resize_forms rows recorded count n_markers =
  Some (Z.of_nat count, rows_after rows recorded count n_markers).
Proof.
  intros Hrows. unfold resize_forms, rows_after.
  destruct (Z.of_nat count =? recorded) eqn:E; simpl.
  - apply Z.eqb_eq in E. rewrite E. reflexivity.
  - destruct rows as [l|]; simpl in Hrows.
    + destruct Hrows as [Hlen _]. rewrite <- Hlen.
      pose proof (realloc_rows_all (Z.of_nat count) l []) as H. simpl in H.
      rewrite H. unfold calloc.
      destruct (Z.of_nat count <? 0) eqn:Hneg; [apply Z.ltb_lt in Hneg; lia|].
      rewrite Nat2Z.id. reflexivity.
    + subst n_markers. reflexivity.
Qed.

Lemma rows_after_sized (rows : option (list (option (list bool))))
      (recorded : Z) (count : nat) (n_markers : Z) :
  rows_sized rows n_markers recorded ->
  rows_sized (rows_after rows recorded count n_markers) n_markers (Z.of_nat count).
Proof.
  intros Hrows. unfold rows_after.
  destruct (Z.of_nat count =? recorded) eqn:E.
  - apply Z.eqb_eq in E. rewrite E. exact Hrows.
  - destruct rows as [l|]; simpl in *; [|exact Hrows].
    split; [apply repeat_length|].
    apply Forall_forall. intros r Hr. apply repeat_spec in Hr. subst r.
    simpl. rewrite repeat_length, Nat2Z.id. reflexivity.
Qed.

Lemma cache_after_ok (c : MarkerCache) (n_mf n_vf : nat) :
  cache_ok c -> cache_ok (cache_after c n_mf n_vf).
Proof.
  intros (Hk & Hm & Hv & H1 & H2 & H3 & H4). unfold cache_ok, cache_after. simpl.
  repeat split; try assumption; try lia; apply rows_after_sized; assumption.
Qed.

(** [set_weak_formulation] on an assembler whose arrays are sized: it
    returns, and leaves exactly this. *)
Lemma set_weak_formulation_sized (a : Assembler) (wf_ : WeakForm) :
  assembler_ok a ->
  set_weak_formulation a wf_ =
  Some (if Nat.eqb (spaces_size a) 0
        then with_reusable (with_wf a (Some wf_)) false false
        else with_caches (with_reusable (with_wf a (Some wf_)) false false)
               (cache_after (surface a) (length (mfsurf wf_)) (length (vfsurf wf_)))
               (cache_after (volume a) (length (mfvol wf_)) (length (vfvol wf_)))).
Proof.
  intros (Hs & Hv & _). unfold set_weak_formulation.
  change (spaces_size (with_reusable (with_wf a (Some wf_)) false false))
    with (spaces_size a).
  destruct (Nat.eqb (spaces_size a) 0); [reflexivity|].
  change (volume (with_reusable (with_wf a (Some wf_)) false false)) with (volume a).
  change (surface (with_reusable (with_wf a (Some wf_)) false false)) with (surface a).
  destruct Hs as (_ & _ & _ & _ & _ & Hs3 & Hs4).
  destruct Hv as (_ & _ & _ & _ & _ & Hv3 & Hv4).
  rewrite (resize_forms_exact _ _ (length (mfvol wf_)) _ Hv3).
  rewrite (resize_forms_exact _ _ (length (vfvol wf_)) _ Hv4).
  rewrite (resize_forms_exact _ _ (length (mfsurf wf_)) _ Hs3).
  rewrite (resize_forms_exact _ _ (length (vfsurf wf_)) _ Hs4).
  reflexivity.
Qed.

Lemma prepare_frame (a : Assembler) (mat : option SparseMatrix) (rhs : option Vector)
      (spaces : list Space) (states : list Traverse.State) :
  exists m v,
    res_asm (prepare_sparse_structure a mat rhs spaces states) = with_reusable a m v /\
    (matrix_structure_reusable a = true -> m = true) /\
    (vector_structure_reusable a = true -> v = true).
Proof.
  assert (Hv : forall a' mat' rhs' n,
             exists v, res_asm (prepare_vector a' mat' rhs' n) =
                       with_reusable a' (matrix_structure_reusable a') v /\
                       (vector_structure_reusable a' = true -> v = true)).
  { intros a' mat' rhs' n. unfold prepare_vector.
    destruct (vector_structure_reusable a') eqn:E; destruct rhs'; simpl;
      eexists;
      (split; [ destruct a'; simpl in *; subst; reflexivity
              | intros H; first [reflexivity | discriminate H] ]). }
  destruct (matrix_structure_reusable a) eqn:Hm; [|destruct mat as [m|]].
  - rewrite (prepare_without_rebuild a mat rhs spaces states (or_introl Hm)).
    destruct (Hv a (reuse_matrix a mat) (reuse_vector a rhs (get_num_dofs spaces))
                (get_num_dofs spaces)) as (v & -> & Hvv).
    exists true, v. rewrite Hm. repeat split. exact Hvv.
  - destruct (prepare_with_rebuild a m rhs spaces states Hm)
      as (coords & _ & [-> | [f ->]]).
    + destruct (Hv (with_reusable a true (vector_structure_reusable a))
                  (Some (mat_alloc (rebuilding m (get_num_dofs spaces) coords)))
                  (reuse_vector a rhs (get_num_dofs spaces)) (get_num_dofs spaces))
        as (v & -> & Hvv).
      exists true, v. split; [reflexivity|]. split; [reflexivity|]. exact Hvv.
    + exists true, (vector_structure_reusable a). repeat split. intros ->. reflexivity.
  - rewrite (prepare_without_rebuild a None rhs spaces states (or_intror eq_refl)).
    destruct (Hv a (reuse_matrix a None) (reuse_vector a rhs (get_num_dofs spaces))
                (get_num_dofs spaces)) as (v & -> & Hvv).
    exists false, v. rewrite Hm. repeat split; [discriminate | exact Hvv].
Qed.

(** Every assembler a program can hold has its arrays sized. *)
Lemma reachable_ok (a : Assembler) : reachable a -> assembler_ok a.
Proof.
  induction 1 as [fd | a a' spaces _ IH Hc H | a a' w _ IH H
                 | a mat rhs spaces states _ IH].
  - unfold assembler_ok, cache_ok. simpl. repeat split; lia.
  - eapply set_spaces_ok; eassumption.
  - rewrite (set_weak_formulation_sized a w IH) in H. injection H as <-.
    destruct IH as (Hs & Hv & Hseq).
    destruct (Nat.eqb (spaces_size a) 0); unfold assembler_ok; simpl.
    + split; [exact Hs|]. split; [exact Hv | exact Hseq].
    + split; [apply cache_after_ok, Hs|].
      split; [apply cache_after_ok, Hv | exact Hseq].
  - destruct (prepare_frame a mat rhs spaces states) as (m & v & -> & _).
    exact IH.
Qed.

Lemma flag_at_defined (arr : option (list bool)) (n : Z) (mk : nat) :
  flags_sized arr n -> Z.of_nat mk < n -> exists b, flag_at arr mk = Some b.
Proof.
  intros Hs Hmk. destruct arr as [l|]; simpl in *; [|lia].
  destruct (nth_error l mk) as [b|] eqn:E; [exists b; reflexivity|].
  apply nth_error_None in E. lia.
Qed.

Lemma row_flag_at_defined (rows : option (list (option (list bool))))
      (n forms_size : Z) (mk form : nat) :
  rows_sized rows n forms_size ->
  Z.of_nat mk < n -> Z.of_nat form < forms_size ->
  exists b, row_flag_at rows mk form = Some b.
Proof.
  intros Hs Hmk Hf. destruct rows as [l|]; simpl in *; [|lia].
  destruct Hs as [Hlen Hall].
  destruct (nth_error l mk) as [row|] eqn:E.
  2:{ apply nth_error_None in E. lia. }
  rewrite Forall_forall in Hall.
  pose proof (Hall row (nth_error_In _ _ E)) as Hrow.
  destruct row as [fl|]; simpl in Hrow; [|lia].
  destruct (nth_error fl form) as [b|] eqn:E2; [exists b; reflexivity|].
  apply nth_error_None in E2. lia.
Qed.

(** On every assembler a program can hold, reading the recalculation
    cache at a marker below the recorded marker count, and at a form
    below the recorded form count, is defined: the arrays are never
    shorter than the counts kept beside them.  This holds for the four
    surface arrays and for the four volume arrays. *)
Theorem cache_reads_in_bounds (a : Assembler) (c : MarkerCache) (mk : nat) :
  reachable a ->
  c = surface a \/ c = volume a ->
  Z.of_nat mk < markers_size c ->
  (exists b, flag_at (matrix_recalculation c) mk = Some b) /\
  (exists b, flag_at (vector_recalculation c) mk = Some b) /\
  (forall form, Z.of_nat form < mf_forms_size c ->
                exists b, row_flag_at (matrix_forms_recalculation c) mk form = Some b) /\
  (forall form, Z.of_nat form < vf_forms_size c ->
                exists b, row_flag_at (vector_forms_recalculation c) mk form = Some b).
Proof.
  intros Hr Hc Hmk.
  assert (Hok : cache_ok c).
  { destruct (reachable_ok a Hr) as (Hs & Hv & _).
    destruct Hc as [-> | ->]; assumption. }
  destruct Hok as (_ & _ & _ & H1 & H2 & H3 & H4).
  split; [eapply flag_at_defined; eassumption|].
  split; [eapply flag_at_defined; eassumption|].
  split; intros form Hf; eapply row_flag_at_defined; eassumption.
Qed.

(** An assembler bound to the two sample spaces (three markers). *)
Lemma cache_reads_in_bounds_witness :
  exists a,
    set_spaces (DiscreteProblemSelectiveAssembler false)
               (Sample.two_spaces Sample.no_neighbors) = Some a /\
    exists b, flag_at (matrix_recalculation (volume a)) 2 = Some b.
Proof.
  destruct (set_spaces (DiscreteProblemSelectiveAssembler false)
              (Sample.two_spaces Sample.no_neighbors)) as [a|] eqn:E;
    [|discriminate E].
  exists a. split; [reflexivity|].
  apply (cache_reads_in_bounds a (volume a) 2).
  - apply (@reach_set_spaces (DiscreteProblemSelectiveAssembler false) a
             (Sample.two_spaces Sample.no_neighbors)).
    + apply reach_new.
    + intros sp0 H. injection H as <-. simpl. lia.
    + exact E.
  - right. reflexivity.
  - vm_compute in E. injection E as <-. reflexivity.
Defined.

(** [set_weak_formulation] on an assembler a program can hold is always
    defined.  With no space bound it records the weak form and clears the
    flags only.  Otherwise it records the four form counts and, for each
    form category whose count changed, gives every marker a new zeroed
    row of the new length; the rows of a category whose count did not
    change, and the per-marker arrays, are kept as they are. *)
Theorem set_weak_formulation_exact (a : Assembler) (wf_ : WeakForm) :
  reachable a ->
  set_weak_formulation a wf_ =
  Some (if Nat.eqb (spaces_size a) 0
        then with_reusable (with_wf a (Some wf_)) false false
        else with_caches (with_reusable (with_wf a (Some wf_)) false false)
               (cache_after (surface a) (length (mfsurf wf_)) (length (vfsurf wf_)))
               (cache_after (volume a) (length (mfvol wf_)) (length (vfvol wf_)))).
Proof.
  intros Hr. apply set_weak_formulation_sized, reachable_ok, Hr.
Qed.

(** A weak form bound to a new assembler. *)
Lemma set_weak_formulation_exact_witness :
  set_weak_formulation (DiscreteProblemSelectiveAssembler false)
                       (Sample.weak_form false) =
  Some (with_reusable (with_wf (DiscreteProblemSelectiveAssembler false)
                               (Some (Sample.weak_form false))) false false).
Proof.
  rewrite (set_weak_formulation_exact _ _ (reach_new false)). reflexivity.
Defined.

Lemma cache_after_same (c : MarkerCache) (n_mf n_vf : nat) :
  Z.of_nat n_mf = mf_forms_size c -> Z.of_nat n_vf = vf_forms_size c ->
  cache_after c n_mf n_vf = c.
Proof.
  intros H1 H2. unfold cache_after, rows_after.
  rewrite H1, H2, !Z.eqb_refl. destruct c; reflexivity.
Qed.

(** Binding a weak form that has, in each of the four categories, as many
    forms as the one recorded keeps the whole recalculation cache, every
    set flag included, although the forms themselves may be other ones. *)
Theorem equal_counts_keep_cache (a a' : Assembler) (wf_ : WeakForm) :
  reachable a ->
  Z.of_nat (length (mfvol wf_)) = mfvol_forms_size a ->
  Z.of_nat (length (vfvol wf_)) = vfvol_forms_size a ->
  Z.of_nat (length (mfsurf wf_)) = mfsurf_forms_size a ->
  Z.of_nat (length (vfsurf wf_)) = vfsurf_forms_size a ->
  set_weak_formulation a wf_ = Some a' ->
  surface a' = surface a /\ volume a' = volume a /\
  matrix_structure_reusable a' = false /\ vector_structure_reusable a' = false.
Proof.
  intros Hr H1 H2 H3 H4 H.
  rewrite (set_weak_formulation_sized a wf_ (reachable_ok a Hr)) in H.
  destruct (Nat.eqb (spaces_size a) 0); injection H as <-; simpl.
  - repeat split.
  - rewrite (cache_after_same (surface a) _ _ H3 H4).
    rewrite (cache_after_same (volume a) _ _ H1 H2). repeat split.
Qed.

(** A weak form without forms bound after the sample spaces. *)
Lemma equal_counts_keep_cache_witness :
  exists a a',
    set_spaces (DiscreteProblemSelectiveAssembler false)
               (Sample.two_spaces Sample.no_neighbors) = Some a /\
    set_weak_formulation a (Sample.weak_form false) = Some a' /\
    surface a' = surface a /\ volume a' = volume a.
Proof.
  destruct (set_spaces (DiscreteProblemSelectiveAssembler false)
              (Sample.two_spaces Sample.no_neighbors)) as [a|] eqn:E;
    [|discriminate E].
  destruct (set_weak_formulation a (Sample.weak_form false)) as [a'|] eqn:E';
    [|vm_compute in E; injection E as <-; discriminate E'].
  exists a, a'. split; [reflexivity|]. split; [exact E'|].
  assert (Hr : reachable a).
  { apply (@reach_set_spaces (DiscreteProblemSelectiveAssembler false) a
             (Sample.two_spaces Sample.no_neighbors));
      [apply reach_new | intros sp0 H; injection H as <-; simpl; lia | exact E]. }
  destruct (equal_counts_keep_cache a a' (Sample.weak_form false) Hr)
    as (Hs & Hv & _);
    try (vm_compute in E; injection E as <-; reflexivity); [exact E'|].
  split; assumption.
Defined.

Lemma first_set_spaces (force_diagonal : bool) (w : option WeakForm)
      (spacesToSet : list Space) (sp0 : Space) :
  nth_error spacesToSet 0 = Some sp0 ->
  0 < min_marker_unused (get_mesh sp0) ->
  let a0 := with_reusable
              (with_wf (DiscreteProblemSelectiveAssembler force_diagonal) w)
              false false in
  let fresh := fresh_cache empty_cache (min_marker_unused (get_mesh sp0)) in
  set_spaces a0 spacesToSet =
  Some (with_caches
          (with_sp_seq a0 (length spacesToSet)
                       (Some (repeat (-1) (length spacesToSet))))
          fresh fresh).
Proof.
  intros Hsp0 Hk a0 fresh. unfold set_spaces.
  rewrite (track_first_binding a0 spacesToSet eq_refl), Hsp0.
  change (surface (with_sp_seq a0 _ _)) with empty_cache.
  change (volume (with_sp_seq a0 _ _)) with empty_cache.
  unfold check_markers. change (markers_size empty_cache) with 0.
  assert (E : (min_marker_unused (get_mesh sp0) =? 0) = false)
    by (apply Z.eqb_neq; lia).
  rewrite E. simpl negb. cbv iota.
  rewrite resize_cache_fresh by lia. reflexivity.
Qed.

(** The two bindings do not commute.  If the weak form is bound to a new
    assembler before the spaces, its form counts are never recorded and
    the binding of the spaces leaves every per-form row null, whatever
    the number of forms.  If the spaces are bound first, the binding of
    the weak form records the counts and gives every marker a zeroed row
    per non-empty form category. *)
Theorem binding_order_matters (force_diagonal : bool) (w : WeakForm)
        (spacesToSet : list Space) (sp0 : Space) :
  nth_error spacesToSet 0 = Some sp0 ->
  0 < min_marker_unused (get_mesh sp0) ->
  let new := DiscreteProblemSelectiveAssembler force_diagonal in
  let n_markers := Z.to_nat (min_marker_unused (get_mesh sp0)) in
  (exists a1 a2,
      set_weak_formulation new w = Some a1 /\
      set_spaces a1 spacesToSet = Some a2 /\
      wf a2 = Some w /\
      mfvol_forms_size a2 = 0 /\ vfvol_forms_size a2 = 0 /\
      mfsurf_forms_size a2 = 0 /\ vfsurf_forms_size a2 = 0 /\
      matrix_volume_forms_recalculation a2 = Some (repeat None n_markers) /\
      vector_volume_forms_recalculation a2 = Some (repeat None n_markers) /\
      matrix_surface_forms_recalculation a2 = Some (repeat None n_markers) /\
      vector_surface_forms_recalculation a2 = Some (repeat None n_markers)) /\
  (exists b1 b2,
      set_spaces new spacesToSet = Some b1 /\
      set_weak_formulation b1 w = Some b2 /\
      wf b2 = Some w /\
      mfvol_forms_size b2 = Z.of_nat (length (mfvol w)) /\
      vfvol_forms_size b2 = Z.of_nat (length (vfvol w)) /\
      mfsurf_forms_size b2 = Z.of_nat (length (mfsurf w)) /\
      vfsurf_forms_size b2 = Z.of_nat (length (vfsurf w)) /\
      matrix_volume_forms_recalculation b2 =
        rows_after (Some (repeat None n_markers)) 0 (length (mfvol w))
                   (min_marker_unused (get_mesh sp0)) /\
      vector_volume_forms_recalculation b2 =
        rows_after (Some (repeat None n_markers)) 0 (length (vfvol w))
                   (min_marker_unused (get_mesh sp0)) /\
      matrix_surface_forms_recalculation b2 =
        rows_after (Some (repeat None n_markers)) 0 (length (mfsurf w))
                   (min_marker_unused (get_mesh sp0)) /\
      vector_surface_forms_recalculation b2 =
        rows_after (Some (repeat None n_markers)) 0 (length (vfsurf w))
                   (min_marker_unused (get_mesh sp0))).
Proof.
  intros Hsp0 Hk new n_markers. split.
  - eexists. eexists. split; [reflexivity|].
    split; [apply (first_set_spaces force_diagonal (Some w) spacesToSet sp0 Hsp0 Hk)|].
    repeat split.
  - pose proof (first_set_spaces force_diagonal None spacesToSet sp0 Hsp0 Hk) as Hb1.
    cbv zeta in Hb1.
    change (with_reusable
              (with_wf (DiscreteProblemSelectiveAssembler force_diagonal) None)
              false false) with new in Hb1.
    eexists. eexists. split; [exact Hb1|].
    assert (Hr : reachable new) by apply reach_new.
    assert (Hok : assembler_ok
                    (with_caches
                       (with_sp_seq new (length spacesToSet)
                                    (Some (repeat (-1) (length spacesToSet))))
                       (fresh_cache empty_cache (min_marker_unused (get_mesh sp0)))
                       (fresh_cache empty_cache (min_marker_unused (get_mesh sp0))))).
    { apply (set_spaces_ok new spacesToSet); [apply reachable_ok, Hr | | exact Hb1].
      intros sp Hsp. rewrite Hsp0 in Hsp. injection Hsp as <-. lia. }
    rewrite (set_weak_formulation_sized _ w Hok).
    assert (Hlen : Nat.eqb (length spacesToSet) 0 = false).
    { destruct spacesToSet; [discriminate Hsp0 | reflexivity]. }
    simpl spaces_size. rewrite Hlen.
    split; [reflexivity|]. repeat split.
Qed.

(** A weak form with one volume matrix form and the two sample spaces,
    bound in either order. *)
Lemma binding_order_matters_witness :
  let form := {| mfvol_base :=
                   {| MatrixForm.base := {| scaling_factor := 1%float;
                                            assembleEverywhere := true;
                                            areas_internal := [] |};
                      MatrixForm.i := 0; MatrixForm.j := 0 |} |} in
  let w := {| mfvol := [form]; vfvol := []; mfsurf := []; vfsurf := [];
              is_DG := false; get_blocks := Sample.all_blocks |} in
  let spaces := Sample.two_spaces Sample.no_neighbors in
  (exists a1 a2,
      set_weak_formulation (DiscreteProblemSelectiveAssembler false) w = Some a1 /\
      set_spaces a1 spaces = Some a2 /\
      matrix_volume_forms_recalculation a2 = Some [None; None; None]) /\
  (exists b1 b2,
      set_spaces (DiscreteProblemSelectiveAssembler false) spaces = Some b1 /\
      set_weak_formulation b1 w = Some b2 /\
      matrix_volume_forms_recalculation b2 =
        Some [Some [false]; Some [false]; Some [false]]).
Proof.
  intros form w spaces.
  destruct (binding_order_matters false w spaces
              (Sample.space0 Sample.no_neighbors 0) eq_refl)
    as [(a1 & a2 & H1 & H2 & _ & _ & _ & _ & _ & H3 & _)
        (b1 & b2 & G1 & G2 & _ & _ & _ & _ & _ & G3 & _)];
    [simpl; lia|].
  split.
  - exists a1, a2. split; [exact H1|]. split; [exact H2 | exact H3].
  - exists b1, b2. split; [exact G1|]. split; [exact G2 | exact G3].
Defined.

(** ** [prepare_sparse_structure]: what it leaves alone *)

(** Whatever its arguments, and whether it returns or not,
    [prepare_sparse_structure] changes nothing of the assembler but the
    two flags, and never turns a flag from true to false: the last-seen
    sequence numbers, the recalculation cache and the weak form are as
    before. *)
Theorem prepare_touches_flags_only (a : Assembler) (mat : option SparseMatrix)
        (rhs : option Vector) (spaces : list Space) (states : list Traverse.State) :
  let a' := res_asm (prepare_sparse_structure a mat rhs spaces states) in
  sp_seq a' = sp_seq a /\ spaces_size a' = spaces_size a /\
  surface a' = surface a /\ volume a' = volume a /\
  wf a' = wf a /\ force_diagonal_blocks a' = force_diagonal_blocks a /\
  (matrix_structure_reusable a = true -> matrix_structure_reusable a' = true) /\
  (vector_structure_reusable a = true -> vector_structure_reusable a' = true).
Proof.
  intros a'. subst a'.
  destruct (prepare_frame a mat rhs spaces states) as (m & v & -> & Hm & Hv).
  simpl. repeat split; assumption.
Qed.

(** Without a matrix target (the residual alone is assembled) the call
    always returns, even with no weak form bound or with states that do
    not fit the spaces: it does not enter the loops.  It leaves the matrix
    flag as it was and only serves the vector: [alloc(ndof)] when the
    vector structure is not reusable or the vector is empty, [zero()]
    otherwise. *)
Theorem prepare_without_matrix (a : Assembler) (rhs : option Vector)
        (spaces : list Space) (states : list Traverse.State) :
  let r := prepare_sparse_structure a None rhs spaces states in
  let ndof := get_num_dofs spaces in
  returned r /\
  res_mat r = None /\
  matrix_structure_reusable (res_asm r) = matrix_structure_reusable a /\
  res_rhs r =
    option_map (fun v => if vector_structure_reusable a && negb (vec_length v =? 0)
                         then vec_zero v else vec_alloc v ndof) rhs.
Proof.
  intros r ndof. subst r.
  rewrite (prepare_without_rebuild a None rhs spaces states (or_intror eq_refl)).
  destruct (prepare_vector_returns a (reuse_matrix a None)
              (reuse_vector a rhs ndof) ndof) as (Hout & Hmat & Hfm & _ & Hrhs).
  fold ndof. split; [exact Hout|].
  split; [rewrite Hmat; unfold reuse_matrix;
          destruct (matrix_structure_reusable a); reflexivity|].
  split; [exact Hfm|].
  rewrite Hrhs. unfold reuse_vector.
  destruct (vector_structure_reusable a); destruct rhs as [v|]; simpl;
    try reflexivity.
  destruct (vec_length v =? 0); reflexivity.
Qed.

(** ** The structural pass for any number of fields *)

Lemma runs_as_for_each_in {A : Type} (al : list AsmList) (l : list A)
      (body : A -> M unit) (g : A -> list (Z * Z)) :
  (forall x, In x l -> runs_as al (body x) (g x)) ->
  runs_as al (for_each l body) (flat_map g l).
Proof.
  induction l as [|x l IH]; intros Hb; simpl.
  - apply runs_as_ret.
  - apply runs_as_then; [apply Hb; left; reflexivity|].
    apply IH. intros y Hy. apply Hb. right. exact Hy.
Qed.

(** Obtaining the assembly lists, from field [k] on. *)
Lemma obtain_from (spaces : list Space) (n : nat) (st : Traverse.State)
      (body : nat -> M unit) :
  covers spaces n st ->
  body = (fun i =>
            ei <- elem_at st i ;;
            match ei with
            | None => ret tt
            | Some el =>
                sp <- space_at spaces i ;;
                al <- gets m_al ;;
                al' <- read OutOfRange
                         (array_set al i (get_element_assembly_list sp el)) ;;
                modify (fun s => set_al s al')
            end) ->
  forall len k s,
    (k + len <= n)%nat -> length (m_al s) = n ->
    exists al',
      for_each (seq k len) body s = (set_al s al', Done tt) /\
      length al' = n /\
      (forall p el sp, (k <= p < k + len)%nat ->
                       state_elem st p = Some (Some el) ->
                       nth_error spaces p = Some sp ->
                       nth_error al' p = Some (get_element_assembly_list sp el)) /\
      (forall p, ~ (k <= p < k + len)%nat -> nth_error al' p = nth_error (m_al s) p).
Proof.
  intros [He Hs] Hbody. induction len as [|len IH]; intros k s Hk Hal.
  - exists (m_al s). simpl. split.
    + destruct s; reflexivity.
    + split; [exact Hal|]. split; [intros; lia | reflexivity].
  - simpl for_each. unfold bind at 1.
    destruct (state_elem st k) as [oe|] eqn:Hoe.
    2:{ apply nth_error_None in Hoe. lia. }
    destruct oe as [el|].
    + destruct (nth_error spaces k) as [sp|] eqn:Hsp.
      2:{ apply nth_error_None in Hsp. lia. }
      destruct (array_set_defined (m_al s) k (get_element_assembly_list sp el))
        as [al1 Hset]; [lia|].
      assert (Hstep : body k s = (set_al s al1, Done tt)).
      { rewrite Hbody. unfold elem_at, space_at, bind, read, gets, modify, ret.
        rewrite Hoe, Hsp, Hset. reflexivity. }
      rewrite Hstep.
      destruct (IH (S k) (set_al s al1)) as (al' & Hrun & Hlen & Hnew & Hkeep);
        [lia | simpl; rewrite (array_set_length _ _ _ _ Hset); exact Hal |].
      exists al'. split; [rewrite Hrun; reflexivity|]. split; [exact Hlen|].
      split.
      * intros p el' sp' Hp Hel' Hsp'.
        destruct (Nat.eq_dec p k) as [->|Hne].
        -- rewrite Hkeep by lia. simpl.
           rewrite Hoe in Hel'. injection Hel' as <-.
           rewrite Hsp in Hsp'. injection Hsp' as <-.
           eapply array_set_same, Hset.
        -- apply Hnew; [lia | assumption | assumption].
      * intros p Hp. rewrite Hkeep by lia. simpl.
        eapply array_set_other; [exact Hset | lia].
    + assert (Hstep : body k s = (s, Done tt)).
      { rewrite Hbody. unfold elem_at, bind, read, ret. rewrite Hoe. reflexivity. }
      rewrite Hstep.
      destruct (IH (S k) s) as (al' & Hrun & Hlen & Hnew & Hkeep); [lia | exact Hal |].
      exists al'. split; [exact Hrun|]. split; [exact Hlen|].
      split.
      * intros p el' sp' Hp Hel' Hsp'.
        destruct (Nat.eq_dec p k) as [->|Hne]; [congruence|].
        apply Hnew; [lia | assumption | assumption].
      * intros p Hp. apply Hkeep. lia.
Qed.

Lemma obtain_run (spaces : list Space) (n : nat) (st : Traverse.State) (s : Machine) :
  covers spaces n st -> length (m_al s) = n ->
  exists al',
    obtain_assembly_lists spaces n st s = (set_al s al', Done tt) /\
    al_holds spaces n st al'.
Proof.
  intros Hc Hal.
  destruct (obtain_from spaces n st _ Hc eq_refl n 0 s) as (al' & Hrun & Hlen & Hnew & _);
    [lia | exact Hal |].
  exists al'. split; [exact Hrun|]. split; [exact Hlen|].
  intros k el sp Hk. apply Hnew. lia.
Qed.

(** One block, whether coupled or not, its fields present or not. *)
Lemma local_block_general (spaces : list Space) (n : nat)
      (blocks : nat -> nat -> bool) (st : Traverse.State) (al : list AsmList)
      (m k : nat) :
  covers spaces n st -> al_holds spaces n st al ->
  (m < n)%nat -> (k < n)%nat ->
  runs_as al (local_block blocks st m k) (block_coords spaces blocks st m k).
Proof.
  intros [He Hs] [Hlen Hal] Hm Hk.
  assert (Hnone : forall c : M bool,
             (forall s, c s = (s, Done false)) ->
             runs_as al (present <- c ;; when present
                           (am <- al_at m ;;
                            an <- al_at k ;;
                            for_each (dof am) (fun am_dof_i =>
                              when (is_dof am_dof_i)
                                (for_each (dof an) (fun an_dof_j =>
                                   when (is_dof an_dof_j)
                                        (pre_add_ij am_dof_i an_dof_j)))))) []).
  { intros c Hc s _. unfold bind at 1. rewrite Hc. simpl.
    rewrite set_mat_same. reflexivity. }
  unfold block_coords, field_dofs.
  destruct (blocks m k) eqn:Hb.
  2:{ unfold local_block. rewrite Hb. apply Hnone. reflexivity. }
  destruct (state_elem st m) as [oem|] eqn:Hem.
  2:{ apply nth_error_None in Hem. lia. }
  destruct (nth_error spaces m) as [spm|] eqn:Hspm.
  2:{ apply nth_error_None in Hspm. lia. }
  destruct (state_elem st k) as [oek|] eqn:Hek.
  2:{ apply nth_error_None in Hek. lia. }
  destruct (nth_error spaces k) as [spk|] eqn:Hspk.
  2:{ apply nth_error_None in Hspk. lia. }
  destruct oem as [em|].
  2:{ unfold local_block. rewrite Hb. apply Hnone. intros s.
      unfold elem_at, bind, read, ret. rewrite Hem. reflexivity. }
  destruct oek as [ek|].
  2:{ unfold local_block. rewrite Hb. apply Hnone. intros s.
      unfold elem_at, bind, read, ret. rewrite Hem. simpl. rewrite Hek. reflexivity. }
  rewrite <- block_pairs_prod.
  apply (local_block_exact blocks st al m k em ek); try assumption.
  - apply (Hal m em spm Hm Hem Hspm).
  - apply (Hal k ek spk Hk Hek Hspk).
Qed.

Lemma local_blocks_general (spaces : list Space) (n : nat)
      (blocks : nat -> nat -> bool) (st : Traverse.State) (al : list AsmList) :
  covers spaces n st -> al_holds spaces n st al ->
  runs_as al (local_blocks n blocks st) (state_coords spaces n blocks st).
Proof.
  intros Hc Hal. unfold local_blocks, for_range, state_coords.
  apply runs_as_for_each_in. intros m Hm. apply in_seq in Hm.
  apply (runs_as_for_each_in al (seq 0 n)
           (fun k => local_block blocks st m k)
           (fun k => block_coords spaces blocks st m k)).
  intros k Hk. apply in_seq in Hk.
  apply (local_block_general spaces n); try assumption; lia.
Qed.

Lemma registers_for_each_in {A : Type} (n : nat) (l : list A)
      (body : A -> M unit) (g : A -> list (Z * Z)) :
  (forall x, In x l -> registers n (body x) (g x)) ->
  registers n (for_each l body) (flat_map g l).
Proof.
  induction l as [|x l IH]; intros Hb s Hs; simpl.
  - exists s. split; [reflexivity|]. split; [exact Hs | reflexivity].
  - destruct (Hb x (or_introl eq_refl) s Hs) as (s1 & Hx & Hs1 & Hm1).
    destruct (IH (fun y Hy => Hb y (or_intror Hy)) s1 Hs1) as (s2 & Hl & Hs2 & Hm2).
    exists s2. unfold bind. rewrite Hx, Hl.
    split; [reflexivity|]. split; [exact Hs2|].
    rewrite Hm2, Hm1. symmetry. apply registered_app.
Qed.

(** A state of a problem without DG form. *)
Lemma process_state_local (spaces : list Space) (n : nat)
      (blocks : nat -> nat -> bool) (st : Traverse.State) :
  covers spaces n st ->
  registers n (process_state spaces n blocks false st)
            (state_coords spaces n blocks st).
Proof.
  intros Hc s Hs.
  destruct (obtain_run spaces n st s Hc Hs) as (al' & Hrun & Hal).
  pose proof (local_blocks_general spaces n blocks st al' Hc Hal
                (set_al s al') eq_refl) as Hloc.
  eexists. unfold process_state. unfold bind at 1. rewrite Hrun.
  unfold bind at 1. simpl when. unfold ret at 1. rewrite Hloc.
  split; [reflexivity|]. split; [simpl; apply Hal | reflexivity].
Qed.

(** The loop over the states when every state registers what
    [state_coords] says. *)
Lemma loop_states_run (spaces : list Space) (n : nat) (blocks : nat -> nat -> bool)
      (dg : bool) (states : list Traverse.State) (m1 : SparseMatrix) :
  (forall st, In st states ->
              registers n (process_state spaces n blocks dg st)
                        (state_coords spaces n blocks st)) ->
  exists s',
    loop_states spaces n blocks dg states (start_machine m1 n) = (s', Done tt) /\
    m_mat s' = registered m1 (flat_map (state_coords spaces n blocks) states).
Proof.
  intros Hall.
  destruct (registers_for_each_in n states (process_state spaces n blocks dg)
              (state_coords spaces n blocks) Hall (start_machine m1 n))
    as (s' & Hrun & _ & Hmat); [apply repeat_length|].
  exists s'. split; [exact Hrun | exact Hmat].
Qed.

Lemma rebuild_result (a : Assembler) (w : WeakForm) (m : SparseMatrix)
      (rhs : option Vector) (spaces : list Space) (states : list Traverse.State)
      (s' : Machine) (coords : list (Z * Z)) :
  matrix_structure_reusable a = false ->
  wf a = Some w ->
  loop_states spaces (spaces_size a) (get_blocks w (force_diagonal_blocks a))
              (is_DG w) states
              (start_machine (mat_prealloc (mat_free m) (get_num_dofs spaces))
                             (spaces_size a)) = (s', Done tt) ->
  m_mat s' = registered (mat_prealloc (mat_free m) (get_num_dofs spaces)) coords ->
  returned (prepare_sparse_structure a (Some m) rhs spaces states) /\
  res_mat (prepare_sparse_structure a (Some m) rhs spaces states) =
  Some (mat_alloc (rebuilding m (get_num_dofs spaces) coords)).
Proof.
  intros Hflag Hwf Hrun Hmat.
  unfold returned, prepare_sparse_structure, reuse_matrix.
  rewrite Hflag, Hwf, Hrun, Hmat.
  destruct (prepare_vector_returns
              (with_reusable a true (vector_structure_reusable a))
              (Some (mat_alloc (registered
                                  (mat_prealloc (mat_free m) (get_num_dofs spaces))
                                  coords)))
              (reuse_vector a rhs (get_num_dofs spaces)) (get_num_dofs spaces))
    as (Hout & Hres & _).
  split; [exact Hout | exact Hres].
Qed.

(** The structural pass without DG form, for any number of fields and
    states.  If every state and the vector of spaces have a slot for each
    of the [spaces_size] fields, the rebuild returns, and between [free],
    [prealloc] and [alloc] it registers, state after state and block
    after block (rows first), for every coupled block whose two fields
    are present on the state, every pair of an unconstrained dof of the
    row field and one of the column field; nothing else. *)
Theorem local_pass_exact (a : Assembler) (w : WeakForm) (m : SparseMatrix)
        (rhs : option Vector) (spaces : list Space) (states : list Traverse.State) :
  matrix_structure_reusable a = false ->
  wf a = Some w ->
  is_DG w = false ->
  (forall st, In st states -> covers spaces (spaces_size a) st) ->
  let r := prepare_sparse_structure a (Some m) rhs spaces states in
  let coords :=
    flat_map (state_coords spaces (spaces_size a)
                           (get_blocks w (force_diagonal_blocks a))) states in
  returned r /\
  res_mat r = Some (mat_alloc (rebuilding m (get_num_dofs spaces) coords)) /\
  exists m', res_mat r = Some m' /\
             mat_calls m' = mat_calls m ++
                            [MatFree; MatPrealloc (get_num_dofs spaces)] ++
                            map as_call coords ++ [MatAlloc].
Proof.
  intros Hflag Hwf Hdg Hcov r coords.
  destruct (loop_states_run spaces (spaces_size a)
              (get_blocks w (force_diagonal_blocks a)) false states
              (mat_prealloc (mat_free m) (get_num_dofs spaces)))
    as (s' & Hrun & Hmat).
  { intros st Hst. apply process_state_local, Hcov, Hst. }
  rewrite <- Hdg in Hrun.
  destruct (rebuild_result a w m rhs spaces states s' coords Hflag Hwf Hrun Hmat)
    as [Hret Hres].
  split; [exact Hret|]. split; [exact Hres|].
  eexists. split; [exact Hres|].
  simpl. rewrite rebuilding_calls. rewrite <- app_assoc. reflexivity.
Qed.

(** Three fields of which the second has no element on the state; the
    blocks (0,2) and (2,0) are not coupled. *)
Lemma local_pass_exact_witness :
  let blocks := fun (_ : bool) (p q : nat) => negb (Nat.eqb (p + q) 2) in
  let w := {| mfvol := []; vfvol := []; mfsurf := []; vfsurf := [];
              is_DG := false; get_blocks := blocks |} in
  let a := with_wf (with_sp_seq (DiscreteProblemSelectiveAssembler false) 3
                                (Some [0; 0; 0])) (Some w) in
  let spaces := [Sample.space0 Sample.no_neighbors 0;
                 Sample.space1 Sample.no_neighbors 0;
                 Sample.space1 Sample.no_neighbors 0] in
  let st := Sample.state_of [Some (Sample.tri 1); None; Some (Sample.tri 2)] in
  let r := prepare_sparse_structure a (Some Sample.empty_mat) None spaces [st] in
  returned r /\
  option_map (fun m => pre_adds (mat_calls m)) (res_mat r) =
  Some ([(3, 3); (3, 4); (3, 5); (4, 3); (4, 4); (4, 5); (5, 3); (5, 4); (5, 5)] ++
        [(104, 104); (104, 105); (105, 104); (105, 105)]).
Proof.
  intros blocks w a spaces st r.
  destruct (local_pass_exact a w Sample.empty_mat None spaces [st]
              eq_refl eq_refl eq_refl) as (Hret & Hres & _).
  { intros st' [<-|[]]. split; simpl; lia. }
  split; [exact Hret|].
  fold r in Hres. rewrite Hres. reflexivity.
Defined.

(** Which coordinates a state contributes. *)
Lemma in_state_coords (spaces : list Space) (n : nat) (blocks : nat -> nat -> bool)
      (st : Traverse.State) (row col : Z) :
  In (row, col) (state_coords spaces n blocks st) <->
  exists m k dm dk,
    (m < n)%nat /\ (k < n)%nat /\ blocks m k = true /\
    field_dofs spaces st m = Some dm /\ field_dofs spaces st k = Some dk /\
    In row dm /\ In col dk.
Proof.
  unfold state_coords. rewrite in_flat_map. split.
  - intros (m & Hm & H). apply in_seq in Hm.
    apply in_flat_map in H. destruct H as (k & Hk & H). apply in_seq in Hk.
    unfold block_coords in H.
    destruct (blocks m k) eqn:Hb; [|destruct H].
    destruct (field_dofs spaces st m) as [dm|] eqn:Hdm; [|destruct H].
    destruct (field_dofs spaces st k) as [dk|] eqn:Hdk; [|destruct H].
    apply in_prod_iff in H.
    exists m, k, dm, dk. repeat split; try lia; try assumption; apply H.
  - intros (m & k & dm & dk & Hm & Hk & Hb & Hdm & Hdk & Hr & Hc).
    exists m. split; [apply in_seq; lia|].
    apply in_flat_map. exists k. split; [apply in_seq; lia|].
    unfold block_coords. rewrite Hb, Hdm, Hdk.
    apply in_prod_iff. split; assumption.
Qed.

(** With a symmetric block mask the local pass registers a symmetric set
    of coordinates, and the committed pattern is symmetric: with every
    coordinate it holds the transposed one. *)
Theorem symmetric_mask_symmetric_pattern (a : Assembler) (w : WeakForm)
        (m : SparseMatrix) (rhs : option Vector)
        (spaces : list Space) (states : list Traverse.State) :
  matrix_structure_reusable a = false ->
  wf a = Some w ->
  is_DG w = false ->
  (forall st, In st states -> covers spaces (spaces_size a) st) ->
  (forall p q, get_blocks w (force_diagonal_blocks a) p q =
               get_blocks w (force_diagonal_blocks a) q p) ->
  exists m' coords,
    res_mat (prepare_sparse_structure a (Some m) rhs spaces states) = Some m' /\
    m' = mat_alloc (rebuilding m (get_num_dofs spaces) coords) /\
    (forall row col, In (row, col) coords -> In (col, row) coords) /\
    (forall row col, In (row, col) (mat_pattern m') -> In (col, row) (mat_pattern m')).
Proof.
  intros Hflag Hwf Hdg Hcov Hsym.
  destruct (loop_states_run spaces (spaces_size a)
              (get_blocks w (force_diagonal_blocks a)) false states
              (mat_prealloc (mat_free m) (get_num_dofs spaces)))
    as (s' & Hrun & Hmat).
  { intros st Hst. apply process_state_local, Hcov, Hst. }
  rewrite <- Hdg in Hrun.
  destruct (rebuild_result a w m rhs spaces states s' _ Hflag Hwf Hrun Hmat)
    as [_ Hres].
  assert (Hc : forall row col,
             In (row, col)
                (flat_map (state_coords spaces (spaces_size a)
                             (get_blocks w (force_diagonal_blocks a))) states) ->
             In (col, row)
                (flat_map (state_coords spaces (spaces_size a)
                             (get_blocks w (force_diagonal_blocks a))) states)).
  { intros row col. rewrite !in_flat_map.
    intros (st & Hst & Hin). exists st. split; [exact Hst|].
    apply in_state_coords in Hin. apply in_state_coords.
    destruct Hin as (p & q & dp & dq & Hp & Hq & Hb & Hdp & Hdq & Hr & Hcol).
    exists q, p, dq, dp. repeat split; try assumption.
    rewrite <- Hsym. exact Hb. }
  eexists. eexists. split; [exact Hres|]. split; [reflexivity|].
  split; [exact Hc|].
  intros row col. simpl. unfold rebuilding. rewrite registered_pre. simpl.
  rewrite !nodup_In. apply Hc.
Qed.

(** The two sample fields coupled in every block, on two elements. *)
Lemma symmetric_mask_symmetric_pattern_witness :
  exists m',
    res_mat (prepare_sparse_structure (Sample.bound_assembler 2 false)
               (Some Sample.empty_mat) None
               (Sample.two_spaces Sample.no_neighbors)
               [Sample.state_of [Some (Sample.tri 1); Some (Sample.tri 1)];
                Sample.state_of [Some (Sample.tri 2); None]]) = Some m' /\
    (In (3, 103) (mat_pattern m') -> In (103, 3) (mat_pattern m')).
Proof.
  destruct (symmetric_mask_symmetric_pattern (Sample.bound_assembler 2 false)
              (Sample.weak_form false) Sample.empty_mat None
              (Sample.two_spaces Sample.no_neighbors)
              [Sample.state_of [Some (Sample.tri 1); Some (Sample.tri 1)];
               Sample.state_of [Some (Sample.tri 2); None]]
              eq_refl eq_refl eq_refl)
    as (m' & coords & Hres & _ & _ & Hsym).
  - intros st [<-|[<-|[]]]; split; simpl; lia.
  - reflexivity.
  - exists m'. split; [exact Hres | apply Hsym].
Defined.

(** ** The DG pass returns exactly on isolated elements *)

Lemma for_upto_zero (bound : M nat) (body : nat -> M unit) (s : Machine) :
  bound s = (s, Done 0%nat) -> for_upto bound body s = (s, Done tt).
Proof.
  intros H. unfold for_upto. unfold bind at 1. rewrite H.
  simpl for_from. unfold bind at 1. rewrite H. reflexivity.
Qed.

Lemma for_each_noop {A : Type} (l : list A) (body : A -> M unit) (s : Machine) :
  (forall x, In x l -> body x s = (s, Done tt)) ->
  for_each l body s = (s, Done tt).
Proof.
  induction l as [|x l IH]; intros H; simpl; [reflexivity|].
  unfold bind. rewrite (H x (or_introl eq_refl)).
  apply IH. intros y Hy. apply H. right. exact Hy.
Qed.

Lemma map_m_pure_run {A B : Type} (f : A -> M B) (g : A -> outcome B)
      (h : A -> B) (l : list A) (s : Machine) :
  (forall x t, f x t = (t, g x)) ->
  (forall x, In x l -> g x = Done (h x)) ->
  map_m f l s = (s, Done (map h l)).
Proof.
  intros Hf. induction l as [|x l IH]; intros Hg; simpl; [reflexivity|].
  unfold bind at 1. rewrite Hf, (Hg x (or_introl eq_refl)).
  unfold bind at 1. rewrite (IH (fun y Hy => Hg y (or_intror Hy))). reflexivity.
Qed.

Lemma isolated_covers (spaces : list Space) (n : nat) (st : Traverse.State) :
  isolated spaces n st -> covers spaces n st.
Proof.
  intros (e0 & _ & H). destruct n as [|n]; [split; lia|].
  destruct (H n) as (central & sp & Hc & Hsp & _); [lia|].
  split.
  - assert (n < length (Traverse.e st))%nat by (apply nth_error_Some; unfold state_elem in Hc; congruence).
    lia.
  - assert (n < length spaces)%nat by (apply nth_error_Some; congruence). lia.
Qed.

(** On an isolated state the DG part returns and has only allocated its
    two arrays. *)
Lemma dg_part_isolated (spaces : list Space) (n : nat) (blocks : nat -> nat -> bool)
      (st : Traverse.State) (s : Machine) :
  isolated spaces n st ->
  exists arrays counts,
    dg_part spaces n blocks st s =
    (set_neighbors s (Some arrays) (Some counts), Done tt).
Proof.
  intros (e0 & He0 & Hiso).
  pose (row := fun el =>
          match state_elem st el, nth_error spaces el with
          | Some (Some central), Some sp =>
              map (fun ed => get_neighbors (get_mesh sp) central ed)
                  (seq 0 (nvert e0))
          | _, _ => []
          end).
  assert (Hmap : forall t,
             map_m (fun el =>
                      ei <- elem_at st el ;;
                      central <- read NullPointer ei ;;
                      sp <- space_at spaces el ;;
                      ret (map (fun ed => get_neighbors (get_mesh sp) central ed)
                               (seq 0 (nvert e0))))
                   (seq 0 n) t = (t, Done (map row (seq 0 n)))).
  { intros t.
    apply (map_m_pure_run _ (neighbor_row spaces st (nvert e0)) row).
    - intros x u. apply neighbor_row_run.
    - intros el Hel. apply in_seq in Hel.
      destruct (Hiso el) as (central & sp & Hc & Hsp & _); [lia|].
      unfold neighbor_row, row. rewrite Hc, Hsp. reflexivity. }
  exists (map row (seq 0 n)), (map (map (@length Element)) (map row (seq 0 n))).
  unfold dg_part. unfold bind at 1. unfold elem_at at 1. rewrite He0. simpl.
  unfold bind at 1. simpl. unfold bind at 1.
  unfold get_the_neighbors. unfold bind at 1. rewrite Hmap.
  simpl.
  set (s1 := set_neighbors s (Some (map row (seq 0 n)))
                           (Some (map (map (@length Element)) (map row (seq 0 n))))).
  unfold dg_pre_add, for_range.
  apply for_each_noop. intros m _.
  apply for_each_noop. intros el Hel. apply in_seq in Hel.
  apply for_each_noop. intros ed Hed. apply in_seq in Hed.
  apply for_upto_zero.
  destruct (Hiso el) as (central & sp & Hc & Hsp & Hnone); [lia|].
  apply (count_at_read el ed s1 (map (map (@length Element)) (map row (seq 0 n)))
           (map (@length Element) (row el))).
  - reflexivity.
  - rewrite !nth_error_map, nth_error_seq.
    destruct (Nat.ltb_spec el n) as [_|Hge]; [reflexivity | lia].
  - unfold row. rewrite Hc, Hsp. rewrite !nth_error_map, nth_error_seq.
    destruct (Nat.ltb_spec ed (nvert e0)) as [_|Hge]; [|lia].
    simpl. rewrite Hnone by lia. reflexivity.
Qed.

(** A state of a DG problem that is isolated. *)
Lemma process_state_isolated (spaces : list Space) (n : nat)
      (blocks : nat -> nat -> bool) (st : Traverse.State) :
  isolated spaces n st ->
  registers n (process_state spaces n blocks true st)
            (state_coords spaces n blocks st).
Proof.
  intros Hiso s Hs.
  pose proof (isolated_covers spaces n st Hiso) as Hc.
  destruct (obtain_run spaces n st s Hc Hs) as (al' & Hrun & Hal).
  destruct (dg_part_isolated spaces n blocks st (set_al s al') Hiso)
    as (arrays & counts & Hdg).
  pose proof (local_blocks_general spaces n blocks st al' Hc Hal
                (set_neighbors (set_al s al') (Some arrays) (Some counts)) eq_refl)
    as Hloc.
  eexists. unfold process_state. unfold bind at 1. rewrite Hrun.
  unfold bind at 1. simpl when. rewrite Hdg. rewrite Hloc.
  split; [reflexivity|]. split; [simpl; apply Hal | reflexivity].
Qed.

(** A DG part that returns was run on an isolated state. *)
Lemma dg_part_done_isolated (spaces : list Space) (n : nat)
      (blocks : nat -> nat -> bool) (st : Traverse.State) (s s' : Machine) :
  (0 < n)%nat ->
  dg_part spaces n blocks st s = (s', Done tt) ->
  isolated spaces n st.
Proof.
  intros Hn Hrun. unfold dg_part in Hrun.
  apply bind_done in Hrun. destruct Hrun as (s1 & oe0 & He0 & Hrun).
  apply bind_done in Hrun. destruct Hrun as (s2 & e0 & Hrep & Hrun).
  apply bind_done in Hrun. destruct Hrun as (s3 & [] & Hget & Hpre).
  unfold elem_at, read in He0.
  destruct (state_elem st 0) as [oe|] eqn:Hst0; [|discriminate He0].
  injection He0 as <- <-.
  destruct oe as [e0'|]; [|discriminate Hrep].
  injection Hrep as <- <-.
  exists e0'. split; [exact Hst0|].
  unfold get_the_neighbors in Hget.
  apply bind_done in Hget. destruct Hget as (s4 & arrays & Hmap & Hset).
  apply (map_m_pure _ (neighbor_row spaces st (nvert e0'))) in Hmap;
    [|intros x t; apply neighbor_row_run].
  destruct Hmap as [-> Hrows].
  injection Hset as <-.
  intros el Hel.
  destruct (Hrows el el) as (nbs & Hnbs & Hg).
  { rewrite nth_error_seq.
    destruct (Nat.ltb_spec el n) as [_|Hge]; [reflexivity | lia]. }
  unfold neighbor_row in Hg.
  destruct (state_elem st el) as [[central|]|]; try discriminate Hg.
  destruct (nth_error spaces el) as [sp|]; [|discriminate Hg].
  injection Hg as <-.
  exists central, sp. split; [reflexivity|]. split; [reflexivity|].
  intros ed Hed.
  destruct (dg_pre_add_done spaces n blocks st (nvert e0')
              (set_neighbors s (Some arrays)
                             (Some (map (map (@length Element)) arrays))) s'
              (map (map (@length Element)) arrays) Hn eq_refl Hpre el ed Hel Hed)
    as (row & Hrow & Hzero).
  rewrite nth_error_map, Hnbs in Hrow. simpl in Hrow. injection Hrow as <-.
  rewrite !nth_error_map in Hzero.
  rewrite nth_error_seq in Hzero.
  destruct (Nat.ltb_spec ed (nvert e0')) as [_|Hge]; [|lia].
  simpl in Hzero. injection Hzero as Hlen.
  apply length_zero_iff_nil, Hlen.
Qed.

(** The structural pass with a DG form.  A rebuild over at least one
    field returns exactly when every state is isolated: each field has
    an element on it and none of these elements has a neighbour across
    any edge.  It has then registered the local blocks only, as without
    DG form.  As soon as one element has a neighbour the call does not
    return. *)
Theorem dg_pass_returns_iff_isolated (a : Assembler) (w : WeakForm)
        (m : SparseMatrix) (rhs : option Vector)
        (spaces : list Space) (states : list Traverse.State) :
  matrix_structure_reusable a = false ->
  wf a = Some w ->
  is_DG w = true ->
  (0 < spaces_size a)%nat ->
  let r := prepare_sparse_structure a (Some m) rhs spaces states in
  let coords :=
    flat_map (state_coords spaces (spaces_size a)
                           (get_blocks w (force_diagonal_blocks a))) states in
  (returned r <-> forall st, In st states -> isolated spaces (spaces_size a) st) /\
  (returned r ->
   res_mat r = Some (mat_alloc (rebuilding m (get_num_dofs spaces) coords))).
Proof.
  intros Hflag Hwf Hdg Hn r coords.
  assert (Hif : (forall st, In st states -> isolated spaces (spaces_size a) st) ->
                returned r /\
                res_mat r = Some (mat_alloc (rebuilding m (get_num_dofs spaces) coords))).
  { intros Hiso.
    destruct (loop_states_run spaces (spaces_size a)
                (get_blocks w (force_diagonal_blocks a)) true states
                (mat_prealloc (mat_free m) (get_num_dofs spaces)))
      as (s' & Hrun & Hmat).
    { intros st Hst. apply process_state_isolated, Hiso, Hst. }
    rewrite <- Hdg in Hrun.
    apply (rebuild_result a w m rhs spaces states s' coords Hflag Hwf Hrun Hmat). }
  assert (Honly : returned r ->
                  forall st, In st states -> isolated spaces (spaces_size a) st).
  { intros Hret st Hst. subst r.
    unfold returned, prepare_sparse_structure, reuse_matrix in Hret.
    rewrite Hflag, Hwf, Hdg in Hret.
    destruct (loop_states _ _ _ _ _ _) as [s [[]|f]] eqn:Hloop; [|discriminate Hret].
    unfold loop_states in Hloop.
    destruct (for_each_done_each _ _ _ _ Hloop st Hst) as (s1 & s2 & Hproc).
    unfold process_state in Hproc.
    apply bind_done in Hproc. destruct Hproc as (s3 & [] & _ & Hproc).
    apply bind_done in Hproc. destruct Hproc as (s4 & [] & Hpart & _).
    simpl when in Hpart.
    apply (dg_part_done_isolated spaces (spaces_size a) _ st s3 s4 Hn Hpart). }
  split.
  - split; [exact Honly | intros H; apply Hif, H].
  - intros Hret. apply Hif, Honly, Hret.
Qed.

(** One DG field on an element without neighbours. *)
Lemma dg_pass_returns_iff_isolated_witness :
  let r := prepare_sparse_structure (Sample.bound_assembler 1 true)
             (Some Sample.empty_mat) None
             [Sample.space0 Sample.no_neighbors 0]
             [Sample.state_of [Some (Sample.tri 7)]] in
  returned r /\
  option_map (fun m => pre_adds (mat_calls m)) (res_mat r) =
  Some [(21, 21); (21, 22); (21, 23); (22, 21); (22, 22); (22, 23);
        (23, 21); (23, 22); (23, 23)].
Proof.
  intros r.
  destruct (dg_pass_returns_iff_isolated (Sample.bound_assembler 1 true)
              (Sample.weak_form true) Sample.empty_mat None
              [Sample.space0 Sample.no_neighbors 0]
              [Sample.state_of [Some (Sample.tri 7)]]
              eq_refl eq_refl eq_refl) as [[_ Hif] Hres]; [simpl; lia|].
  assert (Hret : returned r).
  { apply Hif. intros st [<-|[]]. exists (Sample.tri 7). split; [reflexivity|].
    intros el Hel. simpl in Hel. assert (el = 0%nat) by lia. subst el.
    exists (Sample.tri 7), (Sample.space0 Sample.no_neighbors 0).
    split; [reflexivity|]. split; [reflexivity|]. intros ed _. reflexivity. }
  split; [exact Hret|].
  fold r in Hres. rewrite (Hres Hret). reflexivity.
Defined.

(** ** Through the structural pass: change sensitivity and the threshold *)

(** A rebuild over states the pass can process, with or without DG form:
    it returns, with the coordinates of the states registered and
    committed. *)
Lemma rebuild_over (a : Assembler) (w : WeakForm) (m : SparseMatrix)
      (rhs : option Vector) (spaces : list Space) (states : list Traverse.State) :
  matrix_structure_reusable a = false ->
  wf a = Some w ->
  (forall st, In st states ->
              if is_DG w then isolated spaces (spaces_size a) st
              else covers spaces (spaces_size a) st) ->
  returned (prepare_sparse_structure a (Some m) rhs spaces states) /\
  res_mat (prepare_sparse_structure a (Some m) rhs spaces states) =
  Some (mat_alloc
          (rebuilding m (get_num_dofs spaces)
             (flat_map (state_coords spaces (spaces_size a)
                          (get_blocks w (force_diagonal_blocks a))) states))).
Proof.
  intros Hflag Hwf Hst.
  destruct (loop_states_run spaces (spaces_size a)
              (get_blocks w (force_diagonal_blocks a)) (is_DG w) states
              (mat_prealloc (mat_free m) (get_num_dofs spaces)))
    as (s' & Hrun & Hmat).
  { intros st Hin. specialize (Hst st Hin).
    destruct (is_DG w);
      [apply process_state_isolated | apply process_state_local]; exact Hst. }
  exact (rebuild_result a w m rhs spaces states s' _ Hflag Hwf Hrun Hmat).
Qed.

(** The call that follows the clearing of both flags.  Whether it
    returns or not, the matrix is first released and preallocated.  When
    it returns, the matrix has been released, preallocated, registered
    into (non-negative coordinates only) and committed, a vector passed
    has been reallocated to [ndof], the matrix flag is set again and the
    vector flag is set if a vector was passed.  It does return, with the
    coordinates of the enabled blocks of every state, whenever the states
    fit the fields (and, with a DG form, no element has a neighbour). *)
Lemma rebuild_in_full (b : Assembler) (m : SparseMatrix) (rhs : option Vector)
      (spaces : list Space) (states : list Traverse.State) :
  matrix_structure_reusable b = false ->
  vector_structure_reusable b = false ->
  let r := prepare_sparse_structure b (Some m) rhs spaces states in
  let ndof := get_num_dofs spaces in
  (exists m' rest,
      res_mat r = Some m' /\
      mat_calls m' = mat_calls m ++ MatFree :: MatPrealloc ndof :: rest) /\
  (returned r ->
   (exists coords,
       Forall non_negative coords /\
       res_mat r = Some (mat_alloc (rebuilding m ndof coords))) /\
   res_rhs r = option_map (fun v => vec_alloc v ndof) rhs /\
   matrix_structure_reusable (res_asm r) = true /\
   vector_structure_reusable (res_asm r) = is_some rhs) /\
  (forall w, wf b = Some w ->
             (forall st, In st states ->
                         if is_DG w then isolated spaces (spaces_size b) st
                         else covers spaces (spaces_size b) st) ->
             returned r /\
             res_mat r =
             Some (mat_alloc
                     (rebuilding m ndof
                        (flat_map (state_coords spaces (spaces_size b)
                                     (get_blocks w (force_diagonal_blocks b)))
                                  states)))).
Proof.
  intros Hfm Hfv r ndof. subst r.
  split; [apply rebuild_starts, Hfm|].
  split; [|intros w Hwf Hst; apply (rebuild_over b w m rhs spaces states Hfm Hwf Hst)].
  intros Hret. unfold returned in Hret.
  destruct (prepare_with_rebuild b m rhs spaces states Hfm)
    as (coords & Hnn & [E | [f E]]); rewrite E in *; [|discriminate Hret].
  fold ndof.
  destruct (prepare_vector_returns
              (with_reusable b true (vector_structure_reusable b))
              (Some (mat_alloc (rebuilding m ndof coords)))
              (reuse_vector b rhs ndof) ndof) as (_ & Hmat & Hm' & Hv' & Hr).
  rewrite Hmat, Hm', Hv', Hr, reuse_vector_is_some.
  unfold reuse_vector. simpl. rewrite Hfv.
  split; [exists coords; split; [exact Hnn | reflexivity]|].
  split; [destruct rhs; reflexivity|].
  split; reflexivity.
Qed.

(** C3. Change sensitivity.  On every binding after the first,
    [set_spaces] compares each field's sequence number with the last-seen
    one and stores the current one in its place.  A mismatch for any field
    sets both [matrix_structure_reusable] and [vector_structure_reusable]
    to false, and this forces a full structural rebuild on the next
    [prepare_sparse_structure] call: that call starts with [free] and
    [prealloc(ndof)]; when it returns, the matrix has been released,
    preallocated, registered into and committed with [alloc], a vector
    passed has been reallocated with [alloc(ndof)], and the flags are set
    again for the targets passed; and it returns, with the coordinates of
    the enabled blocks of every state registered, whenever every state
    has a slot for each field (with a DG form: whenever no element has a
    neighbour).  Without a mismatch the flags are kept. *)
Theorem set_spaces_rebinding (a : Assembler) (spacesToSet : list Space)
        (seqs : list Z) (a' : Assembler) :
  sp_seq a = Some seqs ->
  set_spaces a spacesToSet = Some a' ->
  (exists seqs',
      sp_seq a' = Some seqs' /\
      forall k, (k < spaces_size a)%nat ->
                exists sp, nth_error spacesToSet k = Some sp /\
                           nth_error seqs' k = Some (get_seq sp)) /\
  (seq_mismatch spacesToSet seqs (spaces_size a) ->
   matrix_structure_reusable a' = false /\
   vector_structure_reusable a' = false /\
   forall m rhs states,
     let r := prepare_sparse_structure a' (Some m) rhs spacesToSet states in
     let ndof := get_num_dofs spacesToSet in
     (exists m' rest,
         res_mat r = Some m' /\
         mat_calls m' = mat_calls m ++ MatFree :: MatPrealloc ndof :: rest) /\
     (returned r ->
      (exists coords,
          Forall non_negative coords /\
          res_mat r = Some (mat_alloc (rebuilding m ndof coords))) /\
      res_rhs r = option_map (fun v => vec_alloc v ndof) rhs /\
      matrix_structure_reusable (res_asm r) = true /\
      vector_structure_reusable (res_asm r) = is_some rhs) /\
     (forall w, wf a' = Some w ->
                (forall st, In st states ->
                            if is_DG w then isolated spacesToSet (spaces_size a') st
                            else covers spacesToSet (spaces_size a') st) ->
                returned r /\
                res_mat r =
                Some (mat_alloc
                        (rebuilding m ndof
                           (flat_map (state_coords spacesToSet (spaces_size a')
                                        (get_blocks w (force_diagonal_blocks a')))
                                     states))))) /\
  (~ seq_mismatch spacesToSet seqs (spaces_size a) ->
   matrix_structure_reusable a' = matrix_structure_reusable a /\
   vector_structure_reusable a' = vector_structure_reusable a).
Proof.
  intros Hseq H.
  apply set_spaces_inv in H.
  destruct H as (a1 & sp0 & s & v & Ht & _ & _ & _ & ->).
  destruct (track_later_binding a spacesToSet seqs a1 Hseq Ht)
    as (_ & _ & _ & _ & _ & seqs' & Hseq' & Hcmp).
  apply compare_seqs_spec in Hcmp.
  destruct Hcmp as (_ & Hnew & _ & _ & Hmis & Hsame).
  split; [|split].
  - exists seqs'. split; [exact Hseq'|]. intros k Hk. apply Hnew. lia.
  - intros (k & sp & old & Hk & Hsp & Hold & Hne).
    assert (Hfl : (matrix_structure_reusable a1, vector_structure_reusable a1)
                  = (false, false)).
    { apply Hmis. exists k, sp, old. repeat split; try lia; assumption. }
    injection Hfl as Hfm Hfv.
    split; [exact Hfm|]. split; [exact Hfv|].
    intros m rhs states.
    apply (rebuild_in_full (with_caches a1 s v) m rhs spacesToSet states);
      [exact Hfm | exact Hfv].
  - intros Hno.
    assert (Hfl : (matrix_structure_reusable a1, vector_structure_reusable a1)
                  = (matrix_structure_reusable a, vector_structure_reusable a)).
    { apply Hsame. intros p sp old Hp Hsp Hold.
      destruct (Z.eq_dec (get_seq sp) old) as [Heq|Hne]; [exact Heq|].
      exfalso. apply Hno. exists p, sp, old. repeat split; try lia; assumption. }
    injection Hfl as Hfm Hfv. split; assumption.
Qed.

(** Field 1 was refined (sequence number 0 to 1) after a structural
    build had set both flags; the next call, on one element carrying both
    fields, rebuilds the matrix and the vector. *)
Lemma set_spaces_rebinding_witness :
  let a := with_reusable (Sample.bound_assembler 2 false) true true in
  let spaces := [Sample.space0 Sample.no_neighbors 0;
                 Sample.space1 Sample.no_neighbors 1] in
  let states := [Sample.state_of [Some (Sample.tri 1); Some (Sample.tri 1)]] in
  exists a',
    set_spaces a spaces = Some a' /\
    sp_seq a' = Some [0; 1] /\
    matrix_structure_reusable a' = false /\
    vector_structure_reusable a' = false /\
    let r := prepare_sparse_structure a' (Some Sample.empty_mat)
               (Some Sample.empty_vec) spaces states in
    returned r /\
    res_mat r =
      Some (mat_alloc
              (rebuilding Sample.empty_mat 50
                 (list_prod [3; 4; 5] [3; 4; 5] ++ list_prod [3; 4; 5] [102; 103] ++
                  list_prod [102; 103] [3; 4; 5] ++
                  list_prod [102; 103] [102; 103]))) /\
    res_rhs r = Some (vec_alloc Sample.empty_vec 50) /\
    matrix_structure_reusable (res_asm r) = true /\
    vector_structure_reusable (res_asm r) = true.
Proof.
  intros a spaces states.
  destruct (set_spaces a spaces) as [a'|] eqn:E; [|discriminate E].
  exists a'. split; [reflexivity|].
  destruct (set_spaces_rebinding a spaces [0; 0] a' eq_refl E)
    as (_ & Hmis & _).
  destruct Hmis as (Hfm & Hfv & Hnext).
  { exists 1%nat, (Sample.space1 Sample.no_neighbors 1), 0.
    repeat split; [simpl; lia | discriminate]. }
  assert (Ea : wf a' = Some (Sample.weak_form false) /\ spaces_size a' = 2%nat /\
               force_diagonal_blocks a' = false /\ sp_seq a' = Some [0; 1]).
  { pose proof E as E2. vm_compute in E2. injection E2 as <-.
    repeat split; reflexivity. }
  destruct Ea as (Ewf & Esize & Efd & Eseq).
  destruct (Hnext Sample.empty_mat (Some Sample.empty_vec) states)
    as (_ & Hret & Hrun).
  destruct (Hrun (Sample.weak_form false) Ewf) as (Hr & Hm).
  { rewrite Esize. intros st [<-|[]]. split; simpl; lia. }
  rewrite Esize, Efd in Hm.
  destruct (Hret Hr) as (_ & Hrhs & Hm' & Hv').
  split; [exact Eseq|].
  split; [exact Hfm|]. split; [exact Hfv|].
  intros r. split; [exact Hr|].
  split; [exact Hm|].
  split; [exact Hrhs|]. split; [exact Hm' | exact Hv'].
Defined.




(** ** The Newton loop of the Hermes1D examples *)

Module NewtonFacts.

Import Newton.

Section Loop.

Variable Matrix : Type.
Variable ndof : nat.
Variable assemble : (nat -> float) -> Matrix * (nat -> float).
Variable solve : Matrix -> (nat -> float) -> option (nat -> float).

(** What the loop entered at iteration [it] with the fuel left for the
    iterations up to [NEWTON_MAX_ITER] can end in. *)
Lemma loop_exits (fuel : nat) :
  forall it coeff_vec,
    1 <= it <= NEWTON_MAX_ITER ->
    Z.of_nat fuel = NEWTON_MAX_ITER + 1 - it ->
    match loop ndof assemble solve fuel it coeff_vec with
    | Break it' c =>
        it <= it' <= NEWTON_MAX_ITER /\ 1 < it' /\
        small_residual ndof assemble c = true
    | MatrixSolverFailed it' => it <= it' <= NEWTON_MAX_ITER
    | DidNotConverge it' => it' = NEWTON_MAX_ITER
    | NoFuel => False
    end.
Proof.
  unfold NEWTON_MAX_ITER.
  induction fuel as [|fuel IH]; intros it coeff_vec Hit Hfuel.
  - lia.
  - cbn [loop]. unfold small_residual, NEWTON_MAX_ITER in *.
    destruct (assemble coeff_vec) as [matrix rhs] eqn:Ha.
    destruct (PrimFloat.ltb (res_norm_squared ndof rhs)
                            (PrimFloat.mul NEWTON_TOL NEWTON_TOL)) eqn:Hres;
      destruct (it >? 1) eqn:Hgt; cbn [andb].
    1:{ rewrite Ha. cbn [snd]. rewrite Hres.
        apply Z.gtb_lt in Hgt. repeat split; lia. }
    all: destruct (solve matrix (negate ndof rhs)) as [solution|]; [|lia];
      destruct (it >=? 150) eqn:Hmax;
      [ apply Z.geb_le in Hmax; lia |];
      assert (Hlt : it < 150)
        by (destruct (Z.geb_spec it 150); [discriminate Hmax | lia]);
      specialize (IH (it + 1) (add_solution ndof coeff_vec solution));
      destruct (loop ndof assemble solve fuel (it + 1)
                     (add_solution ndof coeff_vec solution));
      first [ destruct IH as (H1 & H2 & H3); [lia | lia |];
              repeat split; try lia; exact H3
            | assert (H := IH ltac:(lia) ltac:(lia)); lia
            | apply IH; lia ].
Qed.

(** The loop of [main] always ends, whatever the assembly and the solver
    return: by [break], or by one of the two [error] calls.  It makes
    at most [NEWTON_MAX_ITER] = 150 calls of the solver, and exactly 150
    when it ends with "Newton method did not converge". *)
Theorem newton_always_ends (coeff_vec : nat -> float) :
  newton ndof assemble solve coeff_vec <> NoFuel /\
  0 <= solves (newton ndof assemble solve coeff_vec) <= NEWTON_MAX_ITER /\
  forall it, newton ndof assemble solve coeff_vec = DidNotConverge it ->
             it = NEWTON_MAX_ITER.
Proof.
  unfold newton.
  pose proof (loop_exits (Z.to_nat NEWTON_MAX_ITER) 1 coeff_vec) as H.
  unfold NEWTON_MAX_ITER in *.
  specialize (H ltac:(lia) ltac:(lia)).
  destruct (loop ndof assemble solve (Z.to_nat 150) 1 coeff_vec) as [it c|it|it|];
    try contradiction; simpl solves.
  - split; [discriminate|]. split; [lia|]. intros it' E. discriminate E.
  - split; [discriminate|]. split; [lia|]. intros it' E. discriminate E.
  - split; [discriminate|]. split; [lia|]. intros it' E. injection E as <-. exact H.
Qed.

(** The loop is left by [break] only at an iteration [it >= 2], on
    coefficients whose squared residual norm is below [NEWTON_TOL]
    squared: at least one solve is made before, even when the residual
    of the initial coefficients is already small. *)
Theorem break_needs_a_solve (coeff_vec c : nat -> float) (it : Z) :
  newton ndof assemble solve coeff_vec = Break it c ->
  2 <= it <= NEWTON_MAX_ITER /\
  1 <= solves (Break it c) /\
  small_residual ndof assemble c = true.
Proof.
  unfold newton. intros E.
  pose proof (loop_exits (Z.to_nat NEWTON_MAX_ITER) 1 coeff_vec) as H.
  unfold NEWTON_MAX_ITER in *.
  specialize (H ltac:(lia) ltac:(lia)).
  rewrite E in H. destruct H as (H1 & H2 & H3).
  simpl solves. repeat split; try lia. exact H3.
Qed.

End Loop.

(** A problem whose residual vanishes from the start and whose solver
    returns a zero update: the loop still solves once. *)
Lemma break_needs_a_solve_witness :
  let assemble := fun _ : nat -> float => (tt, fun _ : nat => 0%float) in
  let solve := fun (_ : unit) (_ : nat -> float) => Some (fun _ : nat => 0%float) in
  exists it c,
    newton 3 assemble solve (fun _ => 1%float) = Break it c /\
    2 <= it <= NEWTON_MAX_ITER.
Proof.
  intros assemble solve.
  destruct (newton 3 assemble solve (fun _ => 1%float)) as [it c|it|it|] eqn:E;
    try (vm_compute in E; discriminate E).
  exists it, c. split; [reflexivity|].
  apply (break_needs_a_solve unit 3%nat assemble solve (fun _ => 1%float) c it E).
Defined.

End NewtonFacts.
